(** * gproj: reconciling a Google Cloud project with its specification file

    A shallow embedding of the two reconciliation commands of gproj
    ([sync], the older one, and [apply], the newer one), of the operation
    pollers [waitForCreate] / [waitForEnable] and of the catalog cache
    [availableAPIs].

    The Go code talks to three remote services and to the local file system.
    Every such interaction is a [call]; a run is a state-passing computation
    over a clock, the log of the calls issued so far (each with the time at
    which it was issued) and a heap holding the Go maps that the code
    allocates and writes.  The answers of the outside world are given by an
    environment [Env] that may depend on the whole history of calls.
    Progress narration on standard output is not part of the model. *)

From stdpp Require Import gmap strings list fin_maps pretty.
From Stdlib Require Import Ascii NArith ZArith Lia OrdersEx Sorted.

Open Scope string_scope.
Open Scope list_scope.

(** ** Strings *)

(** The newline character, written "\n" in the Go source. *)
Definition nl : string := String (Ascii.ascii_of_nat 10) EmptyString.

(** [strings.Contains(s, substr)] is [strings.Index(s, substr) >= 0]. *)
Definition Contains (s substr : string) : bool :=
  match String.index 0 substr s with
  | Some _ => true
  | None => false
  end.

(** apis.go, [firstLine]: the text before the first newline, or all of it. *)
Definition firstLine (s : string) : string :=
  match String.index 0 nl s with
  | None => s
  | Some pos => String.substring 0 pos s
  end.

(** apis.go, [formatProjectNumber]: [fmt.Sprintf("projects/%d", n)]. *)
Definition formatProjectNumber (n : Z) : string := "projects/" +:+ pretty n.

(** ** Data model *)

(** Go maps are reference values: a map variable is either nil or the
    address of a map object in the heap. *)
Definition loc := positive.

Inductive mapref :=
| NilMap
| MapRef (l : loc).

Module ProjectSpec.
Record t := mk {
  Name : string;
  ID : string;
  Labels : mapref;
  APIs : list string;
  Billing : string
}.
End ProjectSpec.

Module Credentials.
Record t := mk {
  ProjectID : string;
  TokenSource : string;
  JSON : option string
}.
End Credentials.

Module Project.
Record t := mk {
  Name : string;
  ProjectId : string;
  Labels : mapref;
  ProjectNumber : Z
}.
End Project.

Module Operation.
(** [Error] is the optional status (code and message) of the operation. *)
Record t := mk {
  Name : string;
  Done : bool;
  Error : option (Z * string)
}.
End Operation.

Module ProjectBillingInfo.
Record t := mk {
  BillingAccountName : string;
  BillingEnabled : bool
}.
End ProjectBillingInfo.

Module BillingAccount.
Record t := mk {
  Name : string;
  DisplayName : string;
  Open : bool
}.
End BillingAccount.

Module Service.
(** A service of the service-usage listing: [Name] is [s.Config.Name],
    [Title] is [s.Config.Title], [Documentation] is the summary of
    [s.Config.Documentation] when that pointer is not nil. *)
Record t := mk {
  Name : string;
  Title : string;
  Documentation : option string;
  State : string
}.
End Service.

Module ListServicesResponse.
Record t := mk {
  Services : list Service.t;
  NextPageToken : string
}.
End ListServicesResponse.

(** apis.go, [type api]. *)
Module api.
Record t := mk {
  Name : string;
  Title : string;
  Summary : string;
  Enabled : bool
}.
End api.

(** The command line: only [--spec] matters to the reconciliation. *)
Record args := mkArgs { Spec : string }.

(** ** Errors

    A Go error is a message, possibly wrapping another error ([%w]).
    [GoogleapiError] is [*googleapi.Error], the only error the code
    inspects by type; [DeadlineExceeded] is [context.DeadlineExceeded]. *)
Inductive error :=
| GoogleapiError (code : Z) (msg : string)
| DeadlineExceeded
| ErrorString (msg : string)
| Wrapped (prefix : string) (e : error).

(** [err.Error()]. *)
Fixpoint Error (e : error) : string :=
  match e with
  | GoogleapiError code msg => "googleapi: Error " +:+ pretty code +:+ ": " +:+ msg
  | DeadlineExceeded => "context deadline exceeded"
  | ErrorString msg => msg
  | Wrapped prefix e' => prefix +:+ ": " +:+ Error e'
  end.

(** [errors.Is(e, context.DeadlineExceeded)]: follows the [%w] chain. *)
Fixpoint isTimeout (e : error) : bool :=
  match e with
  | DeadlineExceeded => true
  | Wrapped _ e' => isTimeout e'
  | _ => false
  end.

(** ** Calls to the outside world *)

Inductive service := CloudResourceManager | ServiceUsage | CloudBilling.

Inductive call :=
  (* local collaborators *)
| FindDefaultCredentials
| FindProjectSpec
| OsOpen (path : string)
| YamlDecode (path : string)
| NewService (svc : service) (creds : option Credentials.t)
| UserCacheDir
| MkdirAll (path : string)
| ReadFile (path : string)
| WriteFile (path : string) (data : string)
  (* resource manager *)
| ProjectsGet (id : string)
| ProjectsCreate (name id : string) (labels : gmap string string)
  (* long-running operations of a service *)
| OperationsGet (svc : service) (name : string)
  (* billing *)
| GetBillingInfo (projNum : string)
| BillingAccountsList
| UpdateBillingInfo (projNum : string) (account : string)
  (* service usage *)
| ServicesList (projNum : string) (pageToken : string)
| BatchEnable (projNum : string) (ids : list string).

Definition resp (c : call) : Type :=
  match c with
  | FindDefaultCredentials => Credentials.t
  | FindProjectSpec => string
  | OsOpen _ => unit
  | YamlDecode _ => ProjectSpec.t
  | NewService _ _ => unit
  | UserCacheDir => string
  | MkdirAll _ => unit
  | ReadFile _ => string
  | WriteFile _ _ => unit
  | ProjectsGet _ => Project.t
  | ProjectsCreate _ _ _ => Operation.t
  | OperationsGet _ _ => Operation.t
  | GetBillingInfo _ => ProjectBillingInfo.t
  | BillingAccountsList => list BillingAccount.t
  | UpdateBillingInfo _ _ => ProjectBillingInfo.t
  | ServicesList _ _ => ListServicesResponse.t
  | BatchEnable _ _ => Operation.t
  end.

(** Calls that reach a remote service. *)
Definition isRemote (c : call) : bool :=
  match c with
  | ProjectsGet _ | ProjectsCreate _ _ _ | OperationsGet _ _
  | GetBillingInfo _ | BillingAccountsList | UpdateBillingInfo _ _
  | ServicesList _ _ | BatchEnable _ _ => true
  | _ => false
  end.

(** Calls that change remote state. *)
Definition isCreate (c : call) : bool :=
  match c with ProjectsCreate _ _ _ => true | _ => false end.

Definition isBillingUpdate (c : call) : bool :=
  match c with UpdateBillingInfo _ _ => true | _ => false end.

Definition isBatchEnable (c : call) : bool :=
  match c with BatchEnable _ _ => true | _ => false end.

Definition isMutating (c : call) : bool :=
  isCreate c || isBillingUpdate c || isBatchEnable c.

(** The live catalog fetch of apis.go. *)
Definition isLiveFetch (c : call) : bool :=
  match c with ServicesList _ _ => true | _ => false end.

(** The log of a run: each call with the time (ms) at which it was issued. *)
Definition history := list (N * call).

(** The outside world.  [respond h c] is the answer to call [c] after
    history [h], with the time the call takes.  The remaining fields are
    library functions whose text is not under src/. *)
Record Env := mkEnv {
  respond : history -> forall c : call, (error + resp c) * N;
  Quote : string -> string;                          (* fmt %q *)
  Sprint : ProjectBillingInfo.t -> string;           (* pretty.Sprint *)
  TimeString : N -> string;                          (* time.Time.String *)
  Join : list string -> string;                      (* filepath.Join *)
  Unmarshal : string -> error + list api.t;          (* json.Unmarshal into []*api *)
  Marshal : list api.t -> error + string             (* json.Marshal *)
}.

(** ** Runs *)

Record state := mkState {
  now : N;
  trace : history;
  heap : gmap loc (gmap string string)
}.

Inductive outcome (A : Type) :=
| Done (a : A)
| Fail (e : error)
| OutOfFuel.
Arguments Done {A} a.
Arguments Fail {A} e.
Arguments OutOfFuel {A}.

Definition M (A : Type) : Type := state -> outcome A * state.

Definition ret {A} (a : A) : M A := fun st => (Done a, st).

Definition bind {A B} (m : M A) (k : A -> M B) : M B :=
  fun st =>
    match m st with
    | (Done a, st') => k a st'
    | (Fail e, st') => (Fail e, st')
    | (OutOfFuel, st') => (OutOfFuel, st')
    end.

Definition fail {A} (e : error) : M A := fun st => (Fail e, st).

Definition outOfFuel {A} : M A := fun st => (OutOfFuel, st).

Notation "'do' x <- m ; k" := (bind m (fun x => k))
  (at level 10, x name, m at level 100, k at level 200).
Notation "'do_' m ; k" := (bind m (fun _ => k))
  (at level 10, m at level 100, k at level 200).

(** [x, err := f(); if err != nil { return fmt.Errorf(prefix + ": %w", err) }]. *)
Definition wrapErr {A} (prefix : string) (m : M A) : M A :=
  fun st =>
    match m st with
    | (Fail e, st') => (Fail (Wrapped prefix e), st')
    | r => r
    end.

(** The same with [%v]: the message is kept, the chain is not. *)
Definition wrapErrV {A} (prefix : string) (m : M A) : M A :=
  fun st =>
    match m st with
    | (Fail e, st') => (Fail (ErrorString (prefix +:+ ": " +:+ Error e)), st')
    | r => r
    end.

(** [x, err := f()] with the error left to the caller to inspect. *)
Definition catch {A} (m : M A) : M (error + A) :=
  fun st =>
    match m st with
    | (Done a, st') => (Done (inr a), st')
    | (Fail e, st') => (Done (inl e), st')
    | (OutOfFuel, st') => (OutOfFuel, st')
    end.

(** *** Contexts and time *)

(** A context is its deadline, if it has one. *)
Definition context := option N.

Definition Background : context := None.

Definition expired (ctx : context) (t : N) : bool :=
  match ctx with
  | Some d => (d <=? t)%N
  | None => false
  end.

(** [context.WithTimeout(parent, d)]. *)
Definition WithTimeout (parent : context) (d : N) : M context :=
  fun st =>
    let dl := (now st + d)%N in
    (Done (Some (match parent with Some p => N.min p dl | None => dl end)), st).

(** [time.NewTicker(d)]: ticks at [next], [next + period], ...; the channel
    holds one tick, later ticks are dropped while it is full. *)
Record Ticker := mkTicker { next : N; period : N }.

Definition NewTicker (d : N) : M Ticker :=
  fun st => (Done {| next := (now st + d)%N; period := d |}, st).

(** One receive from [t.C]: blocks until the pending tick, after which the
    first tick later than the receive becomes the pending one. *)
Definition recvTick (t : Ticker) : M Ticker :=
  fun st =>
    let at_ := N.max (now st) (next t) in
    (Done {| next := (next t + period t * ((at_ - next t) / period t + 1))%N;
             period := period t |},
     {| now := at_; trace := trace st; heap := heap st |}).

(** *** Go maps *)

Definition deref (h : gmap loc (gmap string string)) (r : mapref) : gmap string string :=
  match r with
  | NilMap => ∅
  | MapRef l => default ∅ (h !! l)
  end.

(** [make(map[string]string)]. *)
Definition makeMap : M mapref :=
  fun st =>
    let l := fresh (dom (heap st)) in
    (Done (MapRef l),
     {| now := now st; trace := trace st; heap := <[l := ∅]> (heap st) |}).

(** [m[k] = v]; assignment to an entry of a nil map panics. *)
Definition mapAssign (r : mapref) (k v : string) : M unit :=
  fun st =>
    match r with
    | NilMap => (Fail (ErrorString "panic: assignment to entry in nil map"), st)
    | MapRef l =>
        (Done tt,
         {| now := now st; trace := trace st;
            heap := <[l := <[k := v]> (deref (heap st) r)]> (heap st) |})
    end.

(** [for k, v := range m { body }], in the order of [map_to_list] (Go's
    order is unspecified). *)
Fixpoint forEach (kvs : list (string * string)) (body : string -> string -> M unit) : M unit :=
  match kvs with
  | [] => ret tt
  | (k, v) :: rest => do_ body k v; forEach rest body
  end.

Definition mapRange (r : mapref) (body : string -> string -> M unit) : M unit :=
  fun st => forEach (map_to_list (deref (heap st) r)) body st.

(** The contents of a map, as serialised into a request. *)
Definition mapContents (r : mapref) : M (gmap string string) :=
  fun st => (Done (deref (heap st) r), st).

(** ** The engine *)

Section Engine.

Variable E : Env.

(** A call made under context [ctx]: with an expired context nothing is
    sent and the context's error comes back; a call that is still in
    flight when the deadline passes is cancelled with the same error. *)
Definition perform (ctx : context) (c : call) : M (resp c) :=
  fun st =>
    if expired ctx (now st) then (Fail DeadlineExceeded, st)
    else
      let '(r, latency) := respond E (trace st) c in
      let st' := {| now := (now st + latency)%N;
                    trace := trace st ++ [(now st, c)];
                    heap := heap st |} in
      if expired ctx (now st') then (Fail DeadlineExceeded, st')
      else match r with
           | inl e => (Fail e, st')
           | inr a => (Done a, st')
           end.

(** *** Operation pollers *)

Definition operationError (code : Z) (msg : string) : error :=
  ErrorString ("error performing operation: " +:+ pretty code +:+ " " +:+ msg).

(** The loop [for range t.C { ... }] of [waitForCreate] and [waitForEnable];
    the ticker's channel is never closed, so the loop is left only by a
    return. *)
Fixpoint pollOperation (fuel : nat) (ctx : context) (svc : service)
    (name : string) (t : Ticker) : M unit :=
  match fuel with
  | O => outOfFuel
  | S fuel' =>
      do t' <- recvTick t;
      do op <- wrapErr "error getting operation info" (perform ctx (OperationsGet svc name));
      match Operation.Error op with
      | Some (code, msg) => fail (operationError code msg)
      | None =>
          if Operation.Done op then ret tt
          else pollOperation fuel' ctx svc name t'
      end
  end.

Definition waitForOperation (fuel : nat) (ctx : context) (svc : service)
    (op : Operation.t) : M unit :=
  let name := Operation.Name op in
  match Operation.Error op with
  | Some (code, msg) => fail (operationError code msg)
  | None =>
      if Operation.Done op then ret tt
      else
        do t <- NewTicker 400;
        pollOperation fuel ctx svc name t
  end.

(** [waitForCreate] polls the resource manager's operations service. *)
Definition waitForCreate (fuel : nat) (ctx : context) (op : Operation.t) : M unit :=
  waitForOperation fuel ctx CloudResourceManager op.

(** [waitForEnable] has the same text and polls the service-usage one. *)
Definition waitForEnable (fuel : nat) (ctx : context) (op : Operation.t) : M unit :=
  waitForOperation fuel ctx ServiceUsage op.

(** *** Credentials and the spec file *)

(** credentials.go, [googleCredentials]. *)
Definition googleCredentials : M Credentials.t :=
  do creds <- perform Background FindDefaultCredentials;
  ret {| Credentials.ProjectID := "";
         Credentials.TokenSource := Credentials.TokenSource creds;
         Credentials.JSON := None |}.

(** [readProjectSpec] of [sync]. *)
Definition readProjectSpec_sync (specPath : string) : M ProjectSpec.t :=
  do specPath <- (if decide (specPath = "")
                  then wrapErr "error finding project spec" (perform Background FindProjectSpec)
                  else ret specPath);
  do_ wrapErr "error opening project spec" (perform Background (OsOpen specPath));
  wrapErr ("error parsing project spec at " +:+ specPath)
    (perform Background (YamlDecode specPath)).

(** [readProjectSpec] of [apply]. *)
Definition readProjectSpec (specPath : string) : M ProjectSpec.t :=
  do specPath <- (if decide (specPath = "")
                  then wrapErr "error finding project specification" (perform Background FindProjectSpec)
                  else ret specPath);
  do_ wrapErr "error opening project spec" (perform Background (OsOpen specPath));
  wrapErr ("error parsing project spec at " +:+ specPath)
    (perform Background (YamlDecode specPath)).

(** *** Steps shared by [sync] and [apply] *)

(** [resources.Projects.Create(project).Context(ctx).Do()]: the request
    carries the contents of the label map at the time of the call. *)
Definition ProjectsCreateDo (ctx : context) (project : Project.t) : M Operation.t :=
  do labels <- mapContents (Project.Labels project);
  perform ctx (ProjectsCreate (Project.Name project) (Project.ProjectId project) labels).

(** "make a list of open accounts". *)
Definition openAccounts (accounts : list BillingAccount.t) : list BillingAccount.t :=
  List.filter BillingAccount.Open accounts.

Definition ambiguousBilling (total opened : nat) : error :=
  ErrorString ("no billing account in spec and found " +:+ pretty total
               +:+ " billing accounts (of which " +:+ pretty opened +:+ " were open)").

(** "find the requested billing account or look up the default"; the value
    of the billing field that asks for the look-up is [""] in [sync] and
    ["enable"] in [apply]. *)
Definition findBillingAccount (sentinel : string) (spec : ProjectSpec.t) : M string :=
  let account := ProjectSpec.Billing spec in
  if decide (account = sentinel) then
    do accounts <- wrapErr "error listing billing accounts" (perform Background BillingAccountsList);
    match openAccounts accounts with
    | [a] => ret (BillingAccount.Name a)
    | opened => fail (ambiguousBilling (length accounts) (length opened))
    end
  else ret account.

Definition billingNotEnabled (updatedBilling : ProjectBillingInfo.t) : error :=
  ErrorString ("billing account was updated but API response shows billing still not enabled:"
               +:+ nl +:+ Sprint E updatedBilling).

(** "update the billing account". *)
Definition updateBillingAccount (projNum : string) (billingInfo : ProjectBillingInfo.t)
    (account : string) : M unit :=
  if decide (ProjectBillingInfo.BillingAccountName billingInfo <> account) then
    do updatedBilling <- wrapErr "error updating billing info"
                           (perform Background (UpdateBillingInfo projNum account));
    if negb (ProjectBillingInfo.BillingEnabled updatedBilling)
    then fail (billingNotEnabled updatedBilling)
    else ret tt
  else ret tt.

(** The rewriting of a requested name inside the "list of APIs to enable"
    loops. *)
Definition normalizeAPI (requestedAPI : string) : string :=
  if negb (Contains requestedAPI ".") then requestedAPI +:+ ".googleapis.com"
  else requestedAPI.

Definition tooManyAPIs : error :=
  ErrorString "cannot enable more than 20 APIs at a time".

(** [if len(toEnable) > 0 { ... }]: the batch update and its wait. *)
Definition enableAPIs (fuel : nat) (projNum : string) (toEnable : list string) : M unit :=
  if (0 <? length toEnable)%nat then
    if (20 <? length toEnable)%nat then fail tooManyAPIs
    else
      do enableOp <- wrapErr "error in API call to enable APIs"
                       (perform Background (BatchEnable projNum toEnable));
      wrapErr ("error enabling " +:+ pretty (length toEnable) +:+ " APIs")
        (waitForEnable fuel Background enableOp)
  else ret tt.

(** *** [apply] *)

(** The project record that [apply] submits for creation: name and
    identifier of the spec, and a new label map. *)
Definition newProject (spec : ProjectSpec.t) : M Project.t :=
  do labels <- makeMap;
  let project := {| Project.Name := ProjectSpec.Name spec;
                    Project.ProjectId := ProjectSpec.ID spec;
                    Project.Labels := labels;
                    Project.ProjectNumber := 0 |} in
  (* deep copy the labels so that we can safely modify the map *)
  do_ mapRange (ProjectSpec.Labels spec) (fun k v => mapAssign (Project.Labels project) k v);
  do_ mapAssign (Project.Labels project) "managed-by" "gproj";
  ret project.

(** The branch of [apply] taken when the project does not exist. *)
Definition createProject (fuel : nat) (spec : ProjectSpec.t) : M Project.t :=
  do project <- newProject spec;
  (* creating projects is a long-running operation so we have to poll *)
  do createOp <- wrapErr "error creating project" (ProjectsCreateDo Background project);
  do waitCtx <- WithTimeout Background 5000;
  do_ wrapErr "error creating project" (waitForCreate fuel waitCtx createOp);
  (* now fetch the final project info containing the data filled in by the server *)
  do project <- wrapErr "error getting project info right after creating it"
                  (perform Background (ProjectsGet (ProjectSpec.ID spec)));
  (* enable the billing API, which we need in order to enable further APIs *)
  let projNum := formatProjectNumber (Project.ProjectNumber project) in
  do enableOp <- wrapErr "error in API call to enable APIs"
                   (perform Background (BatchEnable projNum ["cloudbilling.googleapis.com"]));
  do_ wrapErrV "error enabling billing API" (waitForEnable fuel Background enableOp);
  ret project.

(** "now make a list of APIs to enable", as [apply] does it. *)
Definition toEnable_apply (requested : list string) : list string :=
  foldl (fun toEnable requestedAPI => toEnable ++ [normalizeAPI requestedAPI]) [] requested.

Definition nameInvalid (name : string) : error :=
  ErrorString ("project name " +:+ Quote E name
               +:+ " invalid: must be at least 4 characters long (required by Google Cloud)").

Definition apply (fuel : nat) (a : args) : M unit :=
  do creds <- googleCredentials;
  do spec <- readProjectSpec (Spec a);
  if (String.length (ProjectSpec.Name spec) <? 4)%nat
  then fail (nameInvalid (ProjectSpec.Name spec))
  else
    do_ perform Background (NewService CloudResourceManager (Some creds));
    do_ wrapErr "error initializing the service usage API"
          (perform Background (NewService ServiceUsage None));
    (* fetch the project, creating it if necessary *)
    do r <- catch (perform Background (ProjectsGet (ProjectSpec.ID spec)));
    do project <- match r with
                  | inr project => ret project
                  | inl (GoogleapiError 403 _) => createProject fuel spec
                  | inl err => fail err
                  end;
    do_ wrapErr "error initializing the billing API"
          (perform Background (NewService CloudBilling (Some creds)));
    (* get billing info for this account so that we know whether we need to change it *)
    let projNum := formatProjectNumber (Project.ProjectNumber project) in
    do billingInfo <- wrapErr ("error getting billing info for " +:+ ProjectSpec.ID spec)
                        (perform Background (GetBillingInfo projNum));
    do account <- findBillingAccount "enable" spec;
    do_ updateBillingAccount projNum billingInfo account;
    enableAPIs fuel projNum (toEnable_apply (ProjectSpec.APIs spec)).

(** *** [sync] *)

Definition timeNow : M N := fun st => (Done (now st), st).

(** The project record that [sync] submits for creation. *)
Definition newProject_sync (spec : ProjectSpec.t) : M Project.t :=
  do labels <- makeMap;
  let project := {| Project.Name := ProjectSpec.Name spec;
                    Project.ProjectId := ProjectSpec.ID spec;
                    Project.Labels := labels;
                    Project.ProjectNumber := 0 |} in
  (* deep copy the labels so that we can safely modify the map *)
  do_ mapRange (ProjectSpec.Labels spec) (fun k v => mapAssign (Project.Labels project) k v);
  do t <- timeNow;
  do_ mapAssign (Project.Labels project) "gproj-created-at" (TimeString E t);
  ret project.

(** The branch of [sync] taken when the project does not exist. *)
Definition createProject_sync (fuel : nat) (spec : ProjectSpec.t) : M Project.t :=
  do project <- newProject_sync spec;
  do createOp <- wrapErr "error creating project" (ProjectsCreateDo Background project);
  do waitCtx <- WithTimeout Background 5000;
  do_ wrapErr "error creating project" (waitForCreate fuel waitCtx createOp);
  wrapErr "error getting project info right after creating it"
    (perform Background (ProjectsGet (ProjectSpec.ID spec))).

(** The local [type api] of [sync]; its [service] field is always nil. *)
Record syncApi := mkSyncApi {
  name : string;
  title : string;
  summary : string;
  enabled : bool
}.

(** "next make a map from API to enabled/disabled". *)
Definition catalog (services : list Service.t) : gmap string syncApi :=
  foldl (fun apis s =>
           <[Service.Name s :=
               {| name := Service.Name s;
                  title := Service.Title s;
                  summary := default "" (Service.Documentation s);
                  enabled := bool_decide (Service.State s = "ENABLED") |}]> apis)
        ∅ services.

(** "now make a list of APIs to enable", as [sync] does it. *)
Fixpoint toEnable_sync (apis : gmap string syncApi) (toEnable : list string)
    (requested : list string) : error + list string :=
  match requested with
  | [] => inr toEnable
  | requestedAPI :: rest =>
      let requestedAPI := normalizeAPI requestedAPI in
      match apis !! requestedAPI with
      | None => inl (ErrorString ("no such API: " +:+ requestedAPI))
      | Some info =>
          toEnable_sync apis
            (if negb (enabled info) then toEnable ++ [requestedAPI] else toEnable) rest
      end
  end.

Definition sync (fuel : nat) (a : args) : M unit :=
  do spec <- readProjectSpec_sync (Spec a);
  (* TODO: validate the spec *)
  do_ perform Background (NewService CloudResourceManager None);
  (* fetch the project, creating it if necessary *)
  do r <- catch (perform Background (ProjectsGet (ProjectSpec.ID spec)));
  do project <- match r with
                | inr project => ret project
                | inl (GoogleapiError 403 _) => createProject_sync fuel spec
                | inl err => fail err
                end;
  let projNum := formatProjectNumber (Project.ProjectNumber project) in
  do_ wrapErr "error initializing the billing API"
        (perform Background (NewService CloudBilling None));
  do billing <- wrapErr ("error getting billing info for " +:+ ProjectSpec.ID spec)
                  (perform Background (GetBillingInfo projNum));
  do account <- findBillingAccount "" spec;
  do_ updateBillingAccount projNum billing account;
  (* now enable the appropriate APIs *)
  do_ wrapErr "error initializing the service usage API"
        (perform Background (NewService ServiceUsage None));
  do apiList <- wrapErr ("error getting list of enabled services for " +:+ Project.ProjectId project)
                  (perform Background (ServicesList projNum ""));
  match toEnable_sync (catalog (ListServicesResponse.Services apiList)) [] (ProjectSpec.APIs spec) with
  | inl err => fail err
  | inr toEnable => enableAPIs fuel projNum toEnable
  end.

(** *** The catalog cache (apis.go) *)

(** [cacheDir]. *)
Definition cacheDir (projectNumber : Z) : M string :=
  do dir <- wrapErr "error getting user cache dir" (perform Background UserCacheDir);
  let path := Join E [dir; "gproj"; pretty projectNumber] in
  do_ wrapErr "error creating cache dir" (perform Background (MkdirAll path));
  ret path.

(** The entry built from one listed service. *)
Definition apiOfService (s : Service.t) : api.t :=
  {| api.Name := Service.Name s;
     api.Title := Service.Title s;
     api.Summary := match Service.Documentation s with
                    | Some doc => firstLine doc
                    | None => ""
                    end;
     api.Enabled := bool_decide (Service.State s = "ENABLED") |}.

(** [Services.List(projNum).Pages(ctx, f)]: one call per page until the
    next-page token is empty. *)
Fixpoint listPages (fuel : nat) (projNum pageToken : string) (apis : list api.t)
    : M (list api.t) :=
  match fuel with
  | O => outOfFuel
  | S fuel' =>
      do r <- perform Background (ServicesList projNum pageToken);
      let apis := apis ++ List.map apiOfService (ListServicesResponse.Services r) in
      if decide (ListServicesResponse.NextPageToken r = "") then ret apis
      else listPages fuel' projNum (ListServicesResponse.NextPageToken r) apis
  end.

(** [sort.Slice] by [Name]; the order among equal names, which Go leaves
    open, is here the order of arrival. *)
Fixpoint insertByName (a : api.t) (l : list api.t) : list api.t :=
  match l with
  | [] => [a]
  | b :: l' =>
      if String.ltb (api.Name a) (api.Name b) then a :: b :: l'
      else b :: insertByName a l'
  end.

Definition sortByName (l : list api.t) : list api.t :=
  foldl (fun sorted a => insertByName a sorted) [] l.

(** [pullAvailableAPIs]. *)
Definition pullAvailableAPIs (fuel : nat) (projectNumber : Z) : M (list api.t) :=
  do_ wrapErr "error initializing the service usage API"
        (perform Background (NewService ServiceUsage None));
  let projNum := formatProjectNumber projectNumber in
  do apis <- wrapErr "error getting list of APIs" (listPages fuel projNum "" []);
  ret (sortByName apis).

(** [pullAndStoreAvailableAPIs]. *)
Definition pullAndStoreAvailableAPIs (fuel : nat) (projectNumber : Z) (path : string)
    : M (list api.t) :=
  do apis <- pullAvailableAPIs fuel projectNumber;
  match Marshal E apis with
  | inl err => fail (ErrorString ("error marshalling apis to json: " +:+ Error err))
  | inr buf =>
      do_ wrapErrV "error writing apis to cache" (perform Background (WriteFile path buf));
      ret apis
  end.

Definition decodeCacheError (cachePath : string) (err : error) : error :=
  ErrorString ("error decoding cached API listing; try deleting " +:+ cachePath
               +:+ ": " +:+ Error err).

(** [availableAPIs]. *)
Definition availableAPIs (fuel : nat) (projectNumber : Z) : M (list api.t) :=
  do r <- catch (cacheDir projectNumber);
  match r with
  | inl _ =>
      (* failed to create the cache dir so just do a pull *)
      pullAvailableAPIs fuel projectNumber
  | inr dir =>
      (* try to look up the results from cache *)
      let cachePath := Join E [dir; "available-apis.json"] in
      do cached <- catch (perform Background (ReadFile cachePath));
      match cached with
      | inl _ => pullAndStoreAvailableAPIs fuel projectNumber cachePath
      | inr cached =>
          match Unmarshal E cached with
          | inl err => fail (decodeCacheError cachePath err)
          | inr apis => ret apis
          end
      end
  end.

End Engine.

(** * The other commands

    [findProjectSpec], the argument handling of [gcloud] and the listing of
    [available].  Running the external gcloud binary and deleting a project
    are outside the model. *)

(** [strings.HasPrefix(s, prefix)]. *)
Definition HasPrefix (s prefix : string) : bool := String.prefix prefix s.

(** [strings.HasSuffix(s, suffix)]:
    [len(s) >= len(suffix) && s[len(s)-len(suffix):] == suffix]. *)
Definition HasSuffix (s suffix : string) : bool :=
  (String.length suffix <=? String.length s)%nat &&
  bool_decide (String.substring (String.length s - String.length suffix)
                 (String.length suffix) s = suffix).

#[local] Instance error_eq_dec : EqDecision error.
Proof. solve_decision. Defined.

(** [errors.Is(err, target)] for targets that are plain error values:
    equality with [err] or with an error down its [%w] chain. *)
Fixpoint errorsIs (err target : error) : bool :=
  bool_decide (err = target) ||
  match err with
  | Wrapped _ err' => errorsIs err' target
  | _ => false
  end.

(** The error [errors.New(gprojFile + " file not found")] of
    [findProjectSpec]; in the newer file it is the variable
    [ErrSpecNotFound]. *)
Definition specNotFound (gprojFile : string) : error :=
  ErrorString (gprojFile +:+ " file not found").

Definition ErrSpecNotFound : error := specNotFound "googlecloudproject.yaml".

Section FindProjectSpec.

(** The working directory ([os.Getwd]), the paths at which [os.Stat] finds a
    regular file, [filepath.Dir] and [filepath.Join]. *)
Variables (Getwd : error + string) (IsRegular : string -> bool)
  (Dir : string -> string) (JoinPath : list string -> string).

(** The name of the spec file: ".gproj" in the older file,
    "googlecloudproject.yaml" in the newer one. *)
Variable gprojFile : string.

(** The loop [for i := 0; i < 100; i++] of [findProjectSpec], with the
    iterations it has left. *)
Fixpoint searchUp (steps : nat) (path : string) : error + string :=
  match steps with
  | O => inl (ErrorString "took more than 100 steps up parent hierarchy")
  | S steps' =>
      let x := JoinPath [path; gprojFile] in
      if IsRegular x then inr x
      else
        let parent := Dir path in
        if decide (parent = path) then inl (specNotFound gprojFile)
        else searchUp steps' parent
  end.

Definition findProjectSpec : error + string :=
  match Getwd with
  | inl err => inl err
  | inr path => searchUp 100 path
  end.

End FindProjectSpec.

Section Commands.

Variable E : Env.

(** "add --project=PROJECT unless there is already a --project argument
    manually provided": the loop over the arguments. *)
Definition hasProjectArg (Args : list string) : bool :=
  existsb (fun arg => HasPrefix arg "--project") Args.

(** [gcloud] of the older file, up to the arguments it runs the gcloud
    binary with. *)
Definition gcloudArgs_sync (a : args) (Args : list string) : M (list string) :=
  do spec <- readProjectSpec_sync E (Spec a);
  if negb (hasProjectArg Args)
  then ret (("--project=" +:+ ProjectSpec.ID spec) :: Args)
  else ret Args.

(** [gcloud] of the newer file, up to the arguments it runs the gcloud
    binary with: a missing spec file is not an error. *)
Definition gcloudArgs (a : args) (Args : list string) : M (list string) :=
  do r <- catch (readProjectSpec E (Spec a));
  do spec <- match r with
             | inr spec => ret (Some spec)
             | inl err => if errorsIs err ErrSpecNotFound then ret None else fail err
             end;
  match spec with
  | Some spec =>
      if negb (hasProjectArg Args)
      then ret (("--project=" +:+ ProjectSpec.ID spec) :: Args)
      else ret Args
  | None => ret Args
  end.

(** [fmt.Printf("%-50s", s)]: [s], padded with spaces on the right to 50
    columns. *)
Definition padRight (width : nat) (s : string) : string :=
  s +:+ String.string_of_list_ascii (replicate (width - String.length s) " "%char).

(** The lines that the loop of [available] prints, in order. *)
Definition listing (All Description : bool) (apis : list api.t) : list string :=
  foldl (fun lines a =>
           if negb (HasSuffix (api.Name a) ".googleapis.com") && negb All then lines
           else if Description
                then lines ++ [padRight 50 (api.Name a) +:+ " " +:+ api.Summary a]
                else lines ++ [api.Name a])
        [] apis.

Definition notCreatedYet : error :=
  ErrorString "cannot list the available APIs before the project has been created... eep sorry".

(** [available]; the result is the list of lines printed. *)
Definition available (fuel : nat) (a : args) (All Description : bool) : M (list string) :=
  do spec <- readProjectSpec E (Spec a);
  do_ perform E Background (NewService CloudResourceManager None);
  do r <- catch (perform E Background (ProjectsGet (ProjectSpec.ID spec)));
  match r with
  | inl _ => fail notCreatedYet
  | inr project =>
      do apis <- wrapErr "error fetching available APIs"
                   (availableAPIs E fuel (Project.ProjectNumber project));
      ret (listing All Description apis)
  end.

End Commands.

(** * Notions used in the properties *)

(** The calls issued between two states of a run. *)
Definition issued (st st' : state) : list call :=
  (drop (length (trace st)) (trace st')).*2.

(** [st'] continues [st] and every call issued in between satisfies [P]. *)
Definition issues (P : call -> Prop) (st st' : state) : Prop :=
  exists new, trace st' = trace st ++ new /\ Forall (fun tc => P tc.2) new.

(** Every map object of [st] is still there, unchanged, in [st']. *)
Definition keeps (st st' : state) : Prop :=
  forall l, l ∈ dom (heap st) -> heap st' !! l = heap st !! l.

(** [m] relates every start state to its end state by [R], and returns
    only values that satisfy [Q]. *)
Definition sat {A} (R : state -> state -> Prop) (Q : A -> Prop) (m : M A) : Prop :=
  forall st, R st (m st).2 /\ forall a, (m st).1 = Done a -> Q a.

(** A successful run of [m] ends in a state related by [G] to its start. *)
Definition reaches {A} (G : state -> state -> Prop) (m : M A) : Prop :=
  forall st a, (m st).1 = Done a -> G st (m st).2.

(** Call [c] has been issued between the two states. *)
Definition submitted (c : call) (st st' : state) : Prop := c ∈ issued st st'.

(** An environment that gives call [c] the answer [x] whatever happened
    before, and one that never fails it. *)
Definition answers (E : Env) (c : call) (x : resp c) : Prop :=
  forall h, (respond E h c).1 = inr x.

Definition succeeds (E : Env) (c : call) : Prop :=
  forall h, exists x, (respond E h c).1 = inr x.

(** What [sync] asks to enable: the normalised names the catalog reports
    as not enabled. *)
Definition notEnabled (apis : gmap string syncApi) (n : string) : bool :=
  match apis !! n with
  | Some info => negb (enabled info)
  | None => false
  end.

(** The account that the billing field of the spec stands for. *)
Definition resolves (sentinel : string) (spec : ProjectSpec.t)
    (accounts : list BillingAccount.t) (account : string) : Prop :=
  if decide (ProjectSpec.Billing spec = sentinel)
  then exists a, openAccounts accounts = [a] /\ BillingAccount.Name a = account
  else ProjectSpec.Billing spec = account.

(** No requested service is listed as not enabled. *)
Definition allEnabled (services : list Service.t) (requested : list string) : Prop :=
  Forall (fun r => forall info,
            catalog services !! normalizeAPI r = Some info -> enabled info = true)
         requested.

(** No create, no billing update, and no batch-enable call but [c0]. *)
Definition onlyEnables (c0 c : call) : Prop :=
  isCreate c = false /\ isBillingUpdate c = false /\ (isBatchEnable c = true -> c = c0).

(** A batch-enable call of at most 20 services, or any other call. *)
Definition withinBatchLimit (c : call) : Prop :=
  match c with
  | BatchEnable _ ids => length ids <= 20
  | _ => True
  end.

(** The operation is reported as still running, whenever it is fetched. *)
Definition neverDone (E : Env) (svc : service) (name : string) : Prop :=
  forall h, exists op latency,
    respond E h (OperationsGet svc name) = (inr op, latency) /\
    Operation.Done op = false /\ Operation.Error op = None.

(** [st'] continues [st] by fetches of [c] only, each issued before
    [deadline]. *)
Definition polled (deadline : N) (c : call) (st st' : state) : Prop :=
  exists new, trace st' = trace st ++ new /\
              Forall (fun tc => (tc.1 < deadline)%N /\ tc.2 = c) new.

Definition timedOut : error := Wrapped "error getting operation info" DeadlineExceeded.

(** A map variable that is nil or points to a map object of the heap. *)
Definition live (h : gmap loc (gmap string string)) (r : mapref) : Prop :=
  match r with
  | NilMap => True
  | MapRef l => l ∈ dom h
  end.

Definition assignAll (m0 : gmap string string) (kvs : list (string * string))
    : gmap string string :=
  foldl (fun acc kv => <[kv.1 := kv.2]> acc) m0 kvs.

(** A fetch of the status of a long-running operation. *)
Definition isPoll (c : call) : bool :=
  match c with OperationsGet _ _ => true | _ => false end.

(** The number of such fetches in a history. *)
Definition fetched (h : history) : nat :=
  length (List.filter (fun tc => isPoll tc.2) h).

(** An answer to a fetch that ends the wait: a failed fetch, an operation
    with an error, or one that is done. *)
Definition settled (r : error + Operation.t) : Prop :=
  match r with
  | inl _ => True
  | inr op => Operation.Error op <> None \/ Operation.Done op = true
  end.

(** What the pollers return on such an answer. *)
Definition settledOutcome (r : error + Operation.t) : outcome unit :=
  match r with
  | inl err => Fail (Wrapped "error getting operation info" err)
  | inr op =>
      match Operation.Error op with
      | Some (code, msg) => Fail (operationError code msg)
      | None => Done tt
      end
  end.

(** The calls of [new], in order, were each issued at least 400 ms after the
    one before, the first one at least 400 ms after [t0]. *)
Definition paced (t0 : N) (new : history) : Prop :=
  forall i t c, new !! i = Some (t, c) -> (t0 + 400 * N.of_nat (S i) <= t)%N.

(** The directory [k] levels above [path]. *)
Fixpoint ancestor (Dir : string -> string) (k : nat) (path : string) : string :=
  match k with
  | O => path
  | S k' => ancestor Dir k' (Dir path)
  end.



(** The character '\n'. *)
Definition newline : ascii := Ascii.ascii_of_nat 10.

(** The order of [sort.Slice] in [pullAvailableAPIs]: [a] may stand before
    [b] when [b]'s name is not less than [a]'s. *)
Definition nameLe (a b : api.t) : Prop := String.ltb (api.Name b) (api.Name a) = false.

(** The pages that the service-usage listing of a project hands out, one
    after the other, starting from page token [tok]: each but the last names
    the token of the next. *)
Fixpoint pagesFrom (E : Env) (projNum tok : string) (pages : list ListServicesResponse.t)
    : Prop :=
  match pages with
  | [] => False
  | r :: rest =>
      answers E (ServicesList projNum tok) r /\
      match rest with
      | [] => ListServicesResponse.NextPageToken r = EmptyString
      | _ => ListServicesResponse.NextPageToken r <> EmptyString /\
             pagesFrom E projNum (ListServicesResponse.NextPageToken r) rest
      end
  end.

(** The tokens with which these pages are asked for. *)
Definition pageTokens (tok : string) (pages : list ListServicesResponse.t) : list string :=
  tok :: (ListServicesResponse.NextPageToken <$> removelast pages).

(** The entries of these pages, in the order of the listing. *)
Definition pageEntries (pages : list ListServicesResponse.t) : list api.t :=
  concat ((fun r => List.map apiOfService (ListServicesResponse.Services r)) <$> pages).

(** Call [c] is always refused. *)
Definition fails (E : Env) (c : call) : Prop :=
  forall h, exists err, (respond E h c).1 = inl err.

Definition isFileAccess (c : call) : bool :=
  match c with ReadFile _ | WriteFile _ _ => true | _ => false end.

(** What the latest [os.WriteFile] to [path] in a history has written. *)
Fixpoint lastWrite (path : string) (h : history) : option string :=
  match h with
  | [] => None
  | tc :: h' =>
      match lastWrite path h' with
      | Some buf => Some buf
      | None =>
          match tc.2 with
          | WriteFile p buf => if decide (p = path) then Some buf else None
          | _ => None
          end
      end
  end.

(** The file at [path] is there once this program has written it, and then
    reads back as what was written last. *)
Definition keepsFile (E : Env) (path : string) : Prop :=
  forall h,
    match lastWrite path h with
    | Some buf => (respond E h (ReadFile path)).1 = inr buf
    | None => exists err, (respond E h (ReadFile path)).1 = inl err
    end.

(** The path of the cache document of a project below cache directory [dir]. *)
Definition cachePathOf (E : Env) (dir : string) (projectNumber : Z) : string :=
  Join E [Join E [dir; "gproj"; pretty projectNumber]; "available-apis.json"].

(** A call that [sync] or [apply] may make for this spec: the project
    looked up and created is the one the spec names, billing accounts are
    listed only when the billing field holds [sentinel], a billing update
    names the account of the spec when the spec names one, and a batch
    enables a list allowed by [batch]. *)
Definition followsSpec (sentinel : string) (batch : list string -> Prop)
    (spec : ProjectSpec.t) (c : call) : Prop :=
  match c with
  | ProjectsGet id => id = ProjectSpec.ID spec
  | ProjectsCreate n id _ => n = ProjectSpec.Name spec /\ id = ProjectSpec.ID spec
  | BillingAccountsList => ProjectSpec.Billing spec = sentinel
  | UpdateBillingInfo _ account =>
      ProjectSpec.Billing spec <> sentinel -> account = ProjectSpec.Billing spec
  | BatchEnable _ ids => batch ids
  | _ => True
  end.

(** The clients of [apply]: resource manager and billing are built with
    credentials that name no quota project and carry no JSON, service usage
    with the default ones. *)
Definition clientCredentials (c : call) : Prop :=
  match c with
  | NewService svc (Some creds) =>
      svc <> ServiceUsage /\
      Credentials.ProjectID creds = EmptyString /\ Credentials.JSON creds = None
  | NewService svc None => svc = ServiceUsage
  | _ => True
  end.

(** The only page of a service listing that is asked for is the first. *)
Definition firstPageOnly (c : call) : Prop :=
  match c with
  | ServicesList _ tok => tok = EmptyString
  | _ => True
  end.

(** [googleapi.Error] with code 403, the answer that makes the engines
    create the project. *)
Definition isForbidden (err : error) : bool :=
  match err with
  | GoogleapiError 403 _ => true
  | _ => false
  end.

(** * A small world to run the engine in

    One project, one billing link, a list of billing accounts, one page of
    services and one cache file; the project can be absent until a create
    call has been issued.  Every remote call takes [wLatency] ms. *)

Record World := mkWorld {
  wSpec : ProjectSpec.t;
  wExists : bool;
  wProject : Project.t;
  wBilling : ProjectBillingInfo.t;
  wAccounts : list BillingAccount.t;
  wUpdated : error + ProjectBillingInfo.t;
  wServices : list Service.t;
  wOperation : Operation.t;
  wLatency : N;
  wCache : error + string
}.

Definition dquote : string := String (Ascii.ascii_of_nat 34) EmptyString.

Definition worldRespond (w : World) (h : history) (c : call) : (error + resp c) * N :=
  match c return (error + resp c) * N with
  | FindDefaultCredentials =>
      (inr {| Credentials.ProjectID := "other-project";
              Credentials.TokenSource := "user";
              Credentials.JSON := Some "{}" |}, 0%N)
  | FindProjectSpec => (inr "/work/googlecloudproject.yaml", 0%N)
  | OsOpen _ => (inr tt, 0%N)
  | YamlDecode _ => (inr (wSpec w), 0%N)
  | NewService _ _ => (inr tt, 0%N)
  | UserCacheDir => (inr "/home/user/.cache", 0%N)
  | MkdirAll _ => (inr tt, 0%N)
  | ReadFile _ => (wCache w, 0%N)
  | WriteFile _ _ => (inr tt, 0%N)
  | ProjectsGet _ =>
      if wExists w || existsb (fun tc => isCreate tc.2) h
      then (inr (wProject w), wLatency w)
      else (inl (GoogleapiError 403 "The caller does not have permission"), wLatency w)
  | ProjectsCreate _ _ _ => (inr (wOperation w), wLatency w)
  | OperationsGet _ _ => (inr (wOperation w), wLatency w)
  | GetBillingInfo _ => (inr (wBilling w), wLatency w)
  | BillingAccountsList => (inr (wAccounts w), wLatency w)
  | UpdateBillingInfo _ _ => (wUpdated w, wLatency w)
  | ServicesList _ _ =>
      (inr {| ListServicesResponse.Services := wServices w;
              ListServicesResponse.NextPageToken := "" |}, wLatency w)
  | BatchEnable _ _ => (inr (wOperation w), wLatency w)
  end.

Definition joinPath (parts : list string) : string :=
  match parts with
  | [] => ""
  | p :: ps => foldl (fun acc q => acc +:+ "/" +:+ q) p ps
  end.

Definition worldEnv (w : World) : Env :=
  {| respond := worldRespond w;
     Quote := fun s => dquote +:+ s +:+ dquote;
     Sprint := fun b => ProjectBillingInfo.BillingAccountName b;
     TimeString := fun t => pretty t;
     Join := joinPath;
     Unmarshal := fun s => if decide (s = "[]") then inr []
                           else inl (ErrorString "invalid character");
     Marshal := fun _ => inr "[]" |}.

Definition start : state := {| now := 0; trace := []; heap := ∅ |}.

Definition doneOp : Operation.t :=
  {| Operation.Name := "operations/1"; Operation.Done := true; Operation.Error := None |}.

Definition pendingOp : Operation.t :=
  {| Operation.Name := "operations/1"; Operation.Done := false; Operation.Error := None |}.

Definition accountA : BillingAccount.t :=
  {| BillingAccount.Name := "billingAccounts/A";
     BillingAccount.DisplayName := "Main";
     BillingAccount.Open := true |}.

Definition accountB : BillingAccount.t :=
  {| BillingAccount.Name := "billingAccounts/B";
     BillingAccount.DisplayName := "Spare";
     BillingAccount.Open := true |}.

Definition accountC : BillingAccount.t :=
  {| BillingAccount.Name := "billingAccounts/C";
     BillingAccount.DisplayName := "Closed";
     BillingAccount.Open := false |}.

Definition linkedA : ProjectBillingInfo.t :=
  {| ProjectBillingInfo.BillingAccountName := "billingAccounts/A";
     ProjectBillingInfo.BillingEnabled := true |}.

Definition unlinked : ProjectBillingInfo.t :=
  {| ProjectBillingInfo.BillingAccountName := "";
     ProjectBillingInfo.BillingEnabled := false |}.

Definition computeService : Service.t :=
  {| Service.Name := "compute.googleapis.com";
     Service.Title := "Compute Engine API";
     Service.Documentation := None;
     Service.State := "ENABLED" |}.

Definition demoProject : Project.t :=
  {| Project.Name := "demo";
     Project.ProjectId := "demo-1";
     Project.Labels := NilMap;
     Project.ProjectNumber := 42 |}.

Definition demoSpec : ProjectSpec.t :=
  {| ProjectSpec.Name := "demo";
     ProjectSpec.ID := "demo-1";
     ProjectSpec.Labels := NilMap;
     ProjectSpec.APIs := ["compute"];
     ProjectSpec.Billing := "billingAccounts/A" |}.

(** A project that already is what [demoSpec] asks for. *)
Definition convergedWorld : World :=
  {| wSpec := demoSpec;
     wExists := true;
     wProject := demoProject;
     wBilling := linkedA;
     wAccounts := [accountA; accountC];
     wUpdated := inr linkedA;
     wServices := [computeService];
     wOperation := doneOp;
     wLatency := 100;
     wCache := inr "[]" |}.

Definition noArgs : args := {| Spec := "" |}.

Definition autoSpec (sentinel : string) : ProjectSpec.t :=
  {| ProjectSpec.Name := "demo"; ProjectSpec.ID := "demo-1"; ProjectSpec.Labels := NilMap;
     ProjectSpec.APIs := []; ProjectSpec.Billing := sentinel |}.

(** Two open accounts and a closed one. *)
Definition twoOpenWorld : World :=
  {| wSpec := autoSpec "enable"; wExists := true; wProject := demoProject;
     wBilling := unlinked; wAccounts := [accountA; accountB; accountC];
     wUpdated := inr linkedA; wServices := []; wOperation := doneOp;
     wLatency := 100; wCache := inr "[]" |}.

Definition manyAPIs : list string := (fun n : nat => "svc" +:+ pretty n) <$> seq 0 21.

(** A project that does not exist yet, asked for with 21 services. *)
Definition freshWorld : World :=
  {| wSpec := {| ProjectSpec.Name := "demo";
                 ProjectSpec.ID := "demo-1";
                 ProjectSpec.Labels := NilMap;
                 ProjectSpec.APIs := manyAPIs;
                 ProjectSpec.Billing := "billingAccounts/A" |};
     wExists := false;
     wProject := demoProject;
     wBilling := unlinked;
     wAccounts := [accountA];
     wUpdated := inr linkedA;
     wServices := [];
     wOperation := doneOp;
     wLatency := 100;
     wCache := inr "[]" |}.

(** A converged project whose name has three characters. *)
Definition shortNameWorld : World :=
  {| wSpec := {| ProjectSpec.Name := "abc";
                 ProjectSpec.ID := "demo-1";
                 ProjectSpec.Labels := NilMap;
                 ProjectSpec.APIs := ["compute"];
                 ProjectSpec.Billing := "billingAccounts/A" |};
     wExists := true;
     wProject := demoProject;
     wBilling := linkedA;
     wAccounts := [accountA];
     wUpdated := inr linkedA;
     wServices := [computeService];
     wOperation := doneOp;
     wLatency := 100;
     wCache := inr "[]" |}.

(** A spec with one label, held in the map at address 1. *)
Definition labelledSpec : ProjectSpec.t :=
  {| ProjectSpec.Name := "demo";
     ProjectSpec.ID := "demo-1";
     ProjectSpec.Labels := MapRef 1%positive;
     ProjectSpec.APIs := ["compute"];
     ProjectSpec.Billing := "billingAccounts/A" |}.

Definition labelledWorld : World :=
  {| wSpec := labelledSpec;
     wExists := false;
     wProject := demoProject;
     wBilling := linkedA;
     wAccounts := [accountA];
     wUpdated := inr linkedA;
     wServices := [];
     wOperation := doneOp;
     wLatency := 100;
     wCache := inr "[]" |}.

Definition labelledStart : state :=
  {| now := 0; trace := []; heap := {[ 1%positive := {[ "team" := "infra" ]} ]} |}.

(** A world whose operations are reported as running by the first [k]
    fetches and as done from then on. *)
Definition slowRespond (k : nat) (w : World) (h : history) (c : call)
    : (error + resp c) * N :=
  match c return (error + resp c) * N with
  | OperationsGet _ _ =>
      if (fetched h <? k)%nat then (inr pendingOp, wLatency w)
      else (inr doneOp, wLatency w)
  | c' => worldRespond w h c'
  end.

Definition slowEnv (k : nat) (w : World) : Env :=
  {| respond := slowRespond k w;
     Quote := Quote (worldEnv w);
     Sprint := Sprint (worldEnv w);
     TimeString := TimeString (worldEnv w);
     Join := Join (worldEnv w);
     Unmarshal := Unmarshal (worldEnv w);
     Marshal := Marshal (worldEnv w) |}.

(** A file system with the directories /, /work and /work/src, and a spec
    file in /work. *)
Definition demoDir (path : string) : string :=
  if decide (path = "/work/src") then "/work"
  else "/".

Definition demoIsRegular (path : string) : bool :=
  bool_decide (path = "/work/googlecloudproject.yaml").

(** A world in which no spec file is found. *)
Definition noSpecRespond (w : World) (h : history) (c : call) : (error + resp c) * N :=
  match c return (error + resp c) * N with
  | FindProjectSpec => (inl ErrSpecNotFound, 0%N)
  | c' => worldRespond w h c'
  end.

Definition noSpecEnv (w : World) : Env :=
  {| respond := noSpecRespond w;
     Quote := Quote (worldEnv w);
     Sprint := Sprint (worldEnv w);
     TimeString := TimeString (worldEnv w);
     Join := Join (worldEnv w);
     Unmarshal := Unmarshal (worldEnv w);
     Marshal := Marshal (worldEnv w) |}.

(** A world whose resource manager answers every project fetch with
    error [err]. *)
Definition brokenRespond (err : error) (w : World) (h : history) (c : call)
    : (error + resp c) * N :=
  match c return (error + resp c) * N with
  | ProjectsGet _ => (inl err, wLatency w)
  | c' => worldRespond w h c'
  end.

Definition brokenEnv (err : error) (w : World) : Env :=
  {| respond := brokenRespond err w;
     Quote := Quote (worldEnv w);
     Sprint := Sprint (worldEnv w);
     TimeString := TimeString (worldEnv w);
     Join := Join (worldEnv w);
     Unmarshal := Unmarshal (worldEnv w);
     Marshal := Marshal (worldEnv w) |}.

Definition storageService : Service.t :=
  {| Service.Name := "storage.googleapis.com";
     Service.Title := "Cloud Storage API";
     Service.Documentation := Some ("Stores objects." +:+ nl +:+ "More text.");
     Service.State := "DISABLED" |}.

Definition firstPage : ListServicesResponse.t :=
  {| ListServicesResponse.Services := [storageService];
     ListServicesResponse.NextPageToken := "page-2" |}.

Definition secondPage : ListServicesResponse.t :=
  {| ListServicesResponse.Services := [computeService];
     ListServicesResponse.NextPageToken := "" |}.

(** A world whose service listing has two pages. *)
Definition pagedRespond (w : World) (h : history) (c : call) : (error + resp c) * N :=
  match c return (error + resp c) * N with
  | ServicesList _ tok =>
      if decide (tok = "") then (inr firstPage, wLatency w)
      else (inr secondPage, wLatency w)
  | c' => worldRespond w h c'
  end.

Definition pagedEnv (w : World) : Env :=
  {| respond := pagedRespond w;
     Quote := Quote (worldEnv w);
     Sprint := Sprint (worldEnv w);
     TimeString := TimeString (worldEnv w);
     Join := Join (worldEnv w);
     Unmarshal := Unmarshal (worldEnv w);
     Marshal := Marshal (worldEnv w) |}.

(** The paged world with a disk: a file reads back as what was written to
    it last and is absent before; the codec knows the demo catalog. *)
Definition diskRespond (w : World) (h : history) (c : call) : (error + resp c) * N :=
  match c return (error + resp c) * N with
  | ReadFile p =>
      (match lastWrite p h with
       | Some buf => inr buf
       | None => inl (ErrorString "no such file or directory")
       end, 0%N)
  | c' => pagedRespond w h c'
  end.

Definition demoCatalog : list api.t := sortByName (pageEntries [firstPage; secondPage]).

Definition demoCatalogJSON : string := "[compute,storage]".

Definition diskEnv (w : World) : Env :=
  {| respond := diskRespond w;
     Quote := Quote (worldEnv w);
     Sprint := Sprint (worldEnv w);
     TimeString := TimeString (worldEnv w);
     Join := Join (worldEnv w);
     Unmarshal := fun s => if decide (s = demoCatalogJSON) then inr demoCatalog
                           else Unmarshal (worldEnv w) s;
     Marshal := fun apis => match apis with
                            | [] => inr "[]"
                            | _ => inr demoCatalogJSON
                            end |}.

(** The paged world without a home: [os.UserCacheDir] is refused. *)
Definition homelessRespond (w : World) (h : history) (c : call) : (error + resp c) * N :=
  match c return (error + resp c) * N with
  | UserCacheDir => (inl (ErrorString "neither $XDG_CACHE_HOME nor $HOME are defined"), 0%N)
  | c' => pagedRespond w h c'
  end.

Definition homelessEnv (w : World) : Env :=
  {| respond := homelessRespond w;
     Quote := Quote (worldEnv w);
     Sprint := Sprint (worldEnv w);
     TimeString := TimeString (worldEnv w);
     Join := Join (worldEnv w);
     Unmarshal := Unmarshal (worldEnv w);
     Marshal := Marshal (worldEnv w) |}.

(** The paged world with a full disk: no cache document, and none can be
    written. *)
Definition fullDiskRespond (w : World) (h : history) (c : call) : (error + resp c) * N :=
  match c return (error + resp c) * N with
  | ReadFile _ => (inl (ErrorString "no such file or directory"), 0%N)
  | WriteFile _ _ => (inl (ErrorString "no space left on device"), 0%N)
  | c' => pagedRespond w h c'
  end.

Definition fullDiskEnv (w : World) : Env :=
  {| respond := fullDiskRespond w;
     Quote := Quote (worldEnv w);
     Sprint := Sprint (worldEnv w);
     TimeString := TimeString (worldEnv w);
     Join := Join (worldEnv w);
     Unmarshal := Unmarshal (worldEnv w);
     Marshal := Marshal (worldEnv w) |}.

(** The demo project in a world whose service listing is empty. *)
Definition emptyCatalogWorld : World :=
  {| wSpec := demoSpec; wExists := true; wProject := demoProject;
     wBilling := linkedA; wAccounts := [accountA];
     wUpdated := inr linkedA; wServices := [];
     wOperation := doneOp; wLatency := 100; wCache := inr "[]" |}.

(** A world without the project, in which no operation ever completes. *)
Definition stuckWorld : World :=
  {| wSpec := demoSpec; wExists := false; wProject := demoProject;
     wBilling := unlinked; wAccounts := [accountA];
     wUpdated := inr linkedA; wServices := [];
     wOperation := pendingOp; wLatency := 100; wCache := inr "[]" |}.

(** * Properties *)

(** ** Names of services *)

(** A one-character pattern occurs in [s] exactly when the character does. *)
Lemma Contains_char (c : Ascii.ascii) (s : string) :
  Contains s (String c EmptyString) = true <-> In c (String.list_ascii_of_string s).
Proof.
  unfold Contains. induction s as [|a s IH]; simpl.
  - split; [discriminate | tauto].
  - destruct (Ascii.ascii_dec c a) as [->|Hne].
    + destruct s; simpl; split; auto.
    + destruct (String.index 0 (String c EmptyString) s) eqn:Hi.
      * split; auto. intros _. right. apply IH. reflexivity.
      * split; [discriminate|]. intros [Heq|Hin]; [congruence|].
        apply IH in Hin. discriminate.
Qed.

Lemma chars_of_append (s t : string) :
  String.list_ascii_of_string (s +:+ t) = String.list_ascii_of_string s ++ String.list_ascii_of_string t.
Proof. induction s as [|a s IH]; simpl; [reflexivity | by rewrite IH]. Qed.

Lemma Contains_dot_suffix (s : string) :
  Contains (s +:+ ".googleapis.com") "." = true.
Proof.
  apply Contains_char. rewrite chars_of_append.
  apply in_or_app. right. simpl. tauto.
Qed.

Lemma normalizeAPI_dotted (s : string) :
  Contains s "." = true -> normalizeAPI s = s.
Proof. unfold normalizeAPI. intros ->. reflexivity. Qed.

Lemma normalizeAPI_short (s : string) :
  Contains s "." = false -> normalizeAPI s = s +:+ ".googleapis.com".
Proof. unfold normalizeAPI. intros ->. reflexivity. Qed.

Lemma normalizeAPI_has_dot (s : string) :
  Contains (normalizeAPI s) "." = true.
Proof.
  destruct (Contains s ".") eqn:H.
  - by rewrite normalizeAPI_dotted.
  - rewrite normalizeAPI_short by done. apply Contains_dot_suffix.
Qed.

Lemma toEnable_apply_from (acc requested : list string) :
  foldl (fun toEnable requestedAPI => toEnable ++ [normalizeAPI requestedAPI]) acc requested
  = acc ++ List.map normalizeAPI requested.
Proof.
  revert acc. induction requested as [|r rest IH]; intros acc; simpl.
  - by rewrite app_nil_r.
  - rewrite IH, <- app_assoc. reflexivity.
Qed.

Lemma toEnable_apply_map (requested : list string) :
  toEnable_apply requested = List.map normalizeAPI requested.
Proof. unfold toEnable_apply. by rewrite toEnable_apply_from. Qed.

Lemma toEnable_sync_from (apis : gmap string syncApi) (acc requested : list string) :
  Forall (fun r => is_Some (apis !! normalizeAPI r)) requested ->
  toEnable_sync apis acc requested
  = inr (acc ++ List.filter (notEnabled apis) (List.map normalizeAPI requested)).
Proof.
  intros H. revert acc. induction H as [|r rest [info Hr] _ IH]; intros acc; simpl.
  - by rewrite app_nil_r.
  - unfold notEnabled at 1. rewrite Hr. rewrite IH.
    destruct (negb (enabled info)); [rewrite <- app_assoc|]; reflexivity.
Qed.

Lemma toEnable_sync_missing (apis : gmap string syncApi) (acc requested : list string) :
  ~ Forall (fun r => is_Some (apis !! normalizeAPI r)) requested ->
  exists n, n ∈ List.map normalizeAPI requested /\ apis !! n = None /\
            toEnable_sync apis acc requested = inl (ErrorString ("no such API: " +:+ n)).
Proof.
  revert acc. induction requested as [|r rest IH]; intros acc H.
  - destruct H. constructor.
  - simpl. destruct (apis !! normalizeAPI r) as [info|] eqn:Hr.
    + destruct (IH (if negb (enabled info) then acc ++ [normalizeAPI r] else acc)) as (n & Hn & Hnone & Heq).
      * intros HF. apply H. constructor; [by eexists | done].
      * exists n. split; [by right | done].
    + exists (normalizeAPI r). split; [by left | done].
Qed.

(** ** Reasoning about runs *)

#[local] Instance issues_preorder P : PreOrder (issues P).
Proof.
  split.
  - intros st. exists []. by rewrite app_nil_r.
  - intros st1 st2 st3 (n1 & H1 & F1) (n2 & H2 & F2).
    exists (n1 ++ n2). split.
    + by rewrite H2, H1, app_assoc.
    + by apply Forall_app.
Qed.

#[local] Instance keeps_preorder : PreOrder keeps.
Proof.
  split.
  - by intros st l _.
  - intros st1 st2 st3 H1 H2 l Hl.
    rewrite H2, H1; [done | done |].
    apply elem_of_dom. rewrite H1 by done. by apply elem_of_dom.
Qed.

Lemma issues_issued P st st' :
  issues P st st' -> Forall P (issued st st').
Proof.
  intros (new & Ht & HF). unfold issued.
  rewrite Ht, drop_app_length.
  by apply Forall_fmap.
Qed.

Section Rules.

Context (R : state -> state -> Prop) `{!PreOrder R}.

Lemma sat_ret {A} (Q : A -> Prop) (a : A) : Q a -> sat R Q (ret a).
Proof. intros H st. split; [reflexivity|]. simpl. by intros ? [= <-]. Qed.

Lemma sat_fail {A} (Q : A -> Prop) e : sat R Q (fail e).
Proof. intros st. split; [reflexivity | discriminate]. Qed.

Lemma sat_outOfFuel {A} (Q : A -> Prop) : sat R Q outOfFuel.
Proof. intros st. split; [reflexivity | discriminate]. Qed.

Lemma sat_bind {A B} (Q : A -> Prop) (Q' : B -> Prop) (m : M A) (k : A -> M B) :
  sat R Q m -> (forall a, Q a -> sat R Q' (k a)) -> sat R Q' (bind m k).
Proof.
  intros Hm Hk st. unfold bind.
  destruct (Hm st) as [HR HQ].
  destruct (m st) as [[a|e|] st1]; simpl in *.
  - destruct (Hk a (HQ a eq_refl) st1) as [HR' HQ'].
    split; [by etransitivity | done].
  - split; [done | discriminate].
  - split; [done | discriminate].
Qed.

Lemma sat_weaken {A} (Q Q' : A -> Prop) (m : M A) :
  (forall a, Q a -> Q' a) -> sat R Q m -> sat R Q' m.
Proof. intros HQ Hm st. destruct (Hm st). split; auto. Qed.

Lemma sat_wrapErr {A} (Q : A -> Prop) prefix (m : M A) :
  sat R Q m -> sat R Q (wrapErr prefix m).
Proof.
  intros Hm st. unfold wrapErr. destruct (Hm st) as [HR HQ].
  destruct (m st) as [[a|e|] st1]; simpl in *; split; auto; discriminate.
Qed.

Lemma sat_wrapErrV {A} (Q : A -> Prop) prefix (m : M A) :
  sat R Q m -> sat R Q (wrapErrV prefix m).
Proof.
  intros Hm st. unfold wrapErrV. destruct (Hm st) as [HR HQ].
  destruct (m st) as [[a|e|] st1]; simpl in *; split; auto; discriminate.
Qed.

Lemma sat_catch {A} (Q : A -> Prop) (m : M A) :
  sat R Q m -> sat R (fun r => forall a, r = inr a -> Q a) (catch m).
Proof.
  intros Hm st. unfold catch. destruct (Hm st) as [HR HQ].
  destruct (m st) as [[a|e|] st1]; simpl in *; split; auto.
  - intros ? [= <-] ? [= <-]. auto.
  - intros ? [= <-] ? [=].
  - discriminate.
Qed.

End Rules.

(** Decides a closed decidable proposition by evaluation. *)
Ltac by_compute := apply (bool_decide_unpack _); vm_compute; exact I.

(** Closes the side condition of the rules above. *)
Ltac pre := try (match goal with |- PreOrder _ => apply _ end).

Ltac sat_bind_with tac := eapply sat_bind; pre; [tac; pre |].
Ltac sat_end := first [apply sat_fail | apply sat_outOfFuel | apply sat_ret]; pre; try done.

Section Leaves.

Variable E : Env.

Lemma perform_trace ctx c st :
  trace (perform E ctx c st).2 = trace st \/
  trace (perform E ctx c st).2 = trace st ++ [(now st, c)].
Proof.
  unfold perform. destruct (expired ctx (now st)); [by left|].
  destruct (respond E (trace st) c) as [r lat].
  destruct (expired ctx _); [by right|]. destruct r; by right.
Qed.

Lemma perform_heap ctx c st : heap (perform E ctx c st).2 = heap st.
Proof.
  unfold perform. destruct (expired ctx (now st)); [done|].
  destruct (respond E (trace st) c) as [r lat].
  destruct (expired ctx _); [done|]. by destruct r.
Qed.

Lemma perform_value ctx c st a :
  (perform E ctx c st).1 = Done a -> (respond E (trace st) c).1 = inr a.
Proof.
  unfold perform. destruct (expired ctx (now st)); [discriminate|].
  destruct (respond E (trace st) c) as [r lat].
  destruct (expired ctx _); [discriminate|].
  destruct r; simpl; [discriminate | by intros [= ->]].
Qed.

Lemma sat_perform (P : call -> Prop) ctx c :
  P c -> sat (issues P) (fun _ => True) (perform E ctx c).
Proof.
  intros HP st. split; [|done].
  destruct (perform_trace ctx c st) as [H|H].
  - exists []. by rewrite app_nil_r.
  - exists [(now st, c)]. split; [done|]. by constructor.
Qed.

Lemma sat_perform_answers (P : call -> Prop) ctx c x :
  answers E c x -> P c -> sat (issues P) (fun a => a = x) (perform E ctx c).
Proof.
  intros Hx HP st. split; [by apply (sat_perform P ctx c HP st)|].
  intros a Ha. apply perform_value in Ha. rewrite Hx in Ha. congruence.
Qed.

Lemma sat_perform_keeps ctx c :
  sat keeps (fun _ => True) (perform E ctx c).
Proof. intros st. split; [|done]. intros l _. by rewrite perform_heap. Qed.

Lemma issues_same_trace P st st' : trace st' = trace st -> issues P st st'.
Proof. intros H. exists []. by rewrite app_nil_r. Qed.

Lemma keeps_same_heap st st' : heap st' = heap st -> keeps st st'.
Proof. intros H l _. by rewrite H. Qed.

Lemma sat_recvTick_issues P t : sat (issues P) (fun _ => True) (recvTick t).
Proof. intros st. split; [by apply issues_same_trace | done]. Qed.

Lemma sat_recvTick_keeps t : sat keeps (fun _ => True) (recvTick t).
Proof. intros st. split; [by apply keeps_same_heap | done]. Qed.

(** The pollers only ever fetch the operation they wait for. *)
Lemma sat_pollOperation_issues (P : call -> Prop) fuel ctx svc name t :
  P (OperationsGet svc name) ->
  sat (issues P) (fun _ => True) (pollOperation E fuel ctx svc name t).
Proof.
  intros HP. revert t. induction fuel as [|fuel IH]; intros t; simpl.
  - sat_end.
  - sat_bind_with ltac:(apply sat_recvTick_issues). intros t' _.
    sat_bind_with ltac:(apply sat_wrapErr; pre; by apply (sat_perform P ctx (OperationsGet svc name))).
    intros op _. destruct (Operation.Error op) as [[code msg]|]; [sat_end|].
    destruct (Operation.Done op); [sat_end | apply IH].
Qed.

Lemma sat_NewTicker (R : state -> state -> Prop) `{!PreOrder R} d :
  sat R (fun _ => True) (NewTicker d).
Proof. intros st. split; [reflexivity | done]. Qed.

Lemma sat_waitForOperation_issues (P : call -> Prop) fuel ctx svc op :
  P (OperationsGet svc (Operation.Name op)) ->
  sat (issues P) (fun _ => True) (waitForOperation E fuel ctx svc op).
Proof.
  intros HP. unfold waitForOperation.
  destruct (Operation.Error op) as [[code msg]|]; [sat_end|].
  destruct (Operation.Done op); [sat_end|].
  sat_bind_with ltac:(apply sat_NewTicker).
  intros t _. by apply sat_pollOperation_issues.
Qed.

Lemma sat_pollOperation_keeps fuel ctx svc name t :
  sat keeps (fun _ => True) (pollOperation E fuel ctx svc name t).
Proof.
  revert t. induction fuel as [|fuel IH]; intros t; simpl.
  - sat_end.
  - sat_bind_with ltac:(apply sat_recvTick_keeps). intros t' _.
    sat_bind_with ltac:(apply sat_wrapErr; pre; by apply (sat_perform_keeps ctx (OperationsGet svc name))).
    intros op _. destruct (Operation.Error op) as [[code msg]|]; [sat_end|].
    destruct (Operation.Done op); [sat_end | apply IH].
Qed.

Lemma sat_waitForOperation_keeps fuel ctx svc op :
  sat keeps (fun _ => True) (waitForOperation E fuel ctx svc op).
Proof.
  unfold waitForOperation.
  destruct (Operation.Error op) as [[code msg]|]; [sat_end|].
  destruct (Operation.Done op); [sat_end|].
  sat_bind_with ltac:(apply sat_NewTicker).
  intros t _. by apply sat_pollOperation_keeps.
Qed.

End Leaves.

(** ** Normalisation of requested names *)

(** C10: the normalisation of requested API names is idempotent: a
    normalised name always contains a '.', so normalising it again leaves it
    unchanged. *)
Theorem normalizeAPI_idempotent (requestedAPI : string) :
  Contains (normalizeAPI requestedAPI) "." = true /\
  normalizeAPI (normalizeAPI requestedAPI) = normalizeAPI requestedAPI.
Proof.
  split; [apply normalizeAPI_has_dot|].
  apply normalizeAPI_dotted, normalizeAPI_has_dot.
Qed.

(** C5: a requested name without a '.' is rewritten by appending
    ".googleapis.com", a name with a '.' is passed through unchanged, and
    it is the rewritten names that [apply] submits for enablement and that
    [sync] looks up in the catalog and submits. *)
Theorem normalizeAPI_appends_suffix
    (requestedAPI : string) (requested : list string) (apis : gmap string syncApi) :
  ("."%char ∉ String.list_ascii_of_string requestedAPI ->
     normalizeAPI requestedAPI = requestedAPI +:+ ".googleapis.com") /\
  ("."%char ∈ String.list_ascii_of_string requestedAPI ->
     normalizeAPI requestedAPI = requestedAPI) /\
  toEnable_apply requested = List.map normalizeAPI requested /\
  (Forall (fun r => is_Some (apis !! normalizeAPI r)) requested ->
     toEnable_sync apis [] requested
     = inr (List.filter (notEnabled apis) (List.map normalizeAPI requested))).
Proof.
  repeat split.
  - intros H. apply normalizeAPI_short.
    destruct (Contains requestedAPI ".") eqn:Hc; [|done].
    destruct H. apply list_elem_of_In. by apply Contains_char.
  - intros H. apply normalizeAPI_dotted.
    apply Contains_char. by apply list_elem_of_In.
  - apply toEnable_apply_map.
  - intros H. by rewrite toEnable_sync_from.
Qed.

Lemma normalizeAPI_compute :
  normalizeAPI "compute" = "compute.googleapis.com" /\
  normalizeAPI "storage.googleapis.com" = "storage.googleapis.com" /\
  toEnable_sync (catalog [computeService]) [] ["compute"] = inr [].
Proof.
  pose proof (normalizeAPI_appends_suffix "compute" ["compute"] (catalog [computeService]))
    as (H1 & _ & _ & H4).
  pose proof (normalizeAPI_appends_suffix "storage.googleapis.com" [] ∅) as (_ & H2 & _).
  split; [apply H1; by_compute|].
  split; [apply H2; by_compute|].
  rewrite H4; [reflexivity|].
  repeat constructor. by_compute.
Defined.

(** ** Billing *)

(** Rewrites the calls issued along an explicit log. *)
Ltac show_issued :=
  unfold issued; simpl trace;
  rewrite <- ?app_assoc; rewrite ?drop_app_length, ?drop_all; simpl.

Lemma openAccounts_spec (accounts : list BillingAccount.t) (a : BillingAccount.t) :
  a ∈ openAccounts accounts <-> a ∈ accounts /\ BillingAccount.Open a = true.
Proof.
  unfold openAccounts. rewrite !list_elem_of_In, filter_In. tauto.
Qed.

(** C3: when the spec's billing field is the auto-select value ([""] for
    [sync], ["enable"] for [apply]) the engine lists the billing accounts and
    keeps the open ones; exactly one open account is selected, any other
    number fails with an error that carries the number of accounts and the
    number of open accounts. *)
Theorem findBillingAccount_auto_select
    (E : Env) (sentinel : string) (spec : ProjectSpec.t)
    (accounts : list BillingAccount.t) (st : state) :
  ProjectSpec.Billing spec = sentinel ->
  (respond E (trace st) BillingAccountsList).1 = inr accounts ->
  let r := findBillingAccount E sentinel spec st in
  issued st r.2 = [BillingAccountsList] /\
  (forall a, a ∈ openAccounts accounts <-> a ∈ accounts /\ BillingAccount.Open a = true) /\
  (length (openAccounts accounts) = 1 ->
     exists a, openAccounts accounts = [a] /\ r.1 = Done (BillingAccount.Name a)) /\
  (length (openAccounts accounts) <> 1 ->
     r.1 = Fail (ambiguousBilling (length accounts) (length (openAccounts accounts))) /\
     Error (ambiguousBilling (length accounts) (length (openAccounts accounts)))
     = "no billing account in spec and found " +:+ pretty (length accounts)
       +:+ " billing accounts (of which " +:+ pretty (length (openAccounts accounts))
       +:+ " were open)").
Proof.
  intros Hs Hr r. subst r. unfold findBillingAccount.
  rewrite decide_True by done.
  unfold bind, wrapErr, perform. simpl.
  destruct (respond E (trace st) BillingAccountsList) as [x lat]. simpl in Hr. subst x.
  split; [|split; [apply openAccounts_spec|]].
  - destruct (openAccounts accounts) as [|a [|b l]]; by show_issued.
  - destruct (openAccounts accounts) as [|a [|b l]]; simpl; split; intros H; try done.
    by exists a.
Qed.

Lemma findBillingAccount_examples :
  (findBillingAccount (worldEnv convergedWorld) "enable" (autoSpec "enable") start).1
  = Done "billingAccounts/A" /\
  (findBillingAccount (worldEnv twoOpenWorld) "enable" (autoSpec "enable") start).1
  = Fail (ErrorString
            "no billing account in spec and found 3 billing accounts (of which 2 were open)").
Proof.
  split.
  - destruct (findBillingAccount_auto_select (worldEnv convergedWorld) "enable"
                (autoSpec "enable") [accountA; accountC] start eq_refl eq_refl)
      as (_ & _ & H & _).
    destruct (H eq_refl) as (a & Ha & ->).
    vm_compute in Ha. by injection Ha as <-.
  - destruct (findBillingAccount_auto_select (worldEnv twoOpenWorld) "enable"
                (autoSpec "enable") [accountA; accountB; accountC] start eq_refl eq_refl)
      as (_ & _ & _ & H).
    destruct H as [-> _]; [vm_compute; lia | reflexivity].
Defined.

(** C4: a billing link that differs from the resolved account is updated
    and the returned link is checked; a successful update call whose
    response reports billing as not enabled fails with an error of its own,
    different from the error of a failed call; an equal link causes no call
    at all. *)
Theorem updateBillingAccount_verifies
    (E : Env) (projNum : string) (billingInfo : ProjectBillingInfo.t)
    (account : string) (st : state) :
  let r := updateBillingAccount E projNum billingInfo account st in
  (ProjectBillingInfo.BillingAccountName billingInfo = account -> r = (Done tt, st)) /\
  (ProjectBillingInfo.BillingAccountName billingInfo <> account ->
     issued st r.2 = [UpdateBillingInfo projNum account] /\
     (forall err, (respond E (trace st) (UpdateBillingInfo projNum account)).1 = inl err ->
        r.1 = Fail (Wrapped "error updating billing info" err)) /\
     (forall updatedBilling,
        (respond E (trace st) (UpdateBillingInfo projNum account)).1 = inr updatedBilling ->
        r.1 = if ProjectBillingInfo.BillingEnabled updatedBilling then Done tt
              else Fail (billingNotEnabled E updatedBilling))) /\
  (forall err updatedBilling,
     Error (Wrapped "error updating billing info" err)
     <> Error (billingNotEnabled E updatedBilling)).
Proof.
  intros r. subst r. unfold updateBillingAccount.
  split; [|split; [intros H; split; [|split]|]].
  - intros H. by rewrite decide_False by (intros Hne; by apply Hne).
  - rewrite decide_True by done.
    unfold bind, wrapErr, perform. simpl.
    destruct (respond E (trace st) (UpdateBillingInfo projNum account)) as [[e|u] lat];
      [|destruct (ProjectBillingInfo.BillingEnabled u)]; by show_issued.
  - intros err Hr. rewrite decide_True by done.
    unfold bind, wrapErr, perform. simpl.
    destruct (respond E (trace st) (UpdateBillingInfo projNum account)) as [x lat].
    simpl in Hr. by subst x.
  - intros u Hr. rewrite decide_True by done.
    unfold bind, wrapErr, perform. simpl.
    destruct (respond E (trace st) (UpdateBillingInfo projNum account)) as [x lat].
    simpl in Hr. subst x. by destruct (ProjectBillingInfo.BillingEnabled u).
  - intros err u. simpl. discriminate.
Qed.

Lemma updateBillingAccount_examples :
  updateBillingAccount (worldEnv convergedWorld) "projects/42" linkedA "billingAccounts/A" start
  = (Done tt, start) /\
  (updateBillingAccount
     (worldEnv {| wSpec := demoSpec; wExists := true; wProject := demoProject;
                  wBilling := unlinked; wAccounts := [accountA];
                  wUpdated := inr unlinked; wServices := []; wOperation := doneOp;
                  wLatency := 100; wCache := inr "[]" |})
     "projects/42" unlinked "billingAccounts/A" start).1
  = Fail (ErrorString
            ("billing account was updated but API response shows billing still not enabled:"
             +:+ nl)).
Proof.
  split.
  - by apply (updateBillingAccount_verifies (worldEnv convergedWorld) "projects/42" linkedA
                "billingAccounts/A" start).
  - set (E := worldEnv _).
    destruct (updateBillingAccount_verifies E "projects/42" unlinked "billingAccounts/A" start)
      as (_ & H & _).
    destruct H as (_ & _ & H); [by vm_compute|].
    by rewrite (H unlinked eq_refl).
Defined.

(** ** The operation poller *)

Lemma pollOperation_timeout (E : Env) svc name deadline :
  neverDone E svc name ->
  forall n fuel t st,
    period t = 400%N ->
    (deadline <= next t + 400 * N.of_nat n)%N ->
    (n < fuel)%nat ->
    (pollOperation E fuel (Some deadline) svc name t st).1 = Fail timedOut /\
    polled deadline (OperationsGet svc name) st
      (pollOperation E fuel (Some deadline) svc name t st).2.
Proof.
  intros Hnever. induction n as [|n IH]; intros fuel t st Hp Hd Hf;
    (destruct fuel as [|fuel]; [lia|]); simpl;
    unfold bind, recvTick, wrapErr, perform; simpl.
  - rewrite (proj2 (N.leb_le _ _)) by lia. simpl.
    split; [done|]. exists []. by rewrite app_nil_r.
  - destruct (deadline <=? N.max (now st) (next t))%N eqn:Hex; simpl.
    { split; [done|]. exists []. by rewrite app_nil_r. }
    apply N.leb_gt in Hex.
    destruct (Hnever (trace st)) as (op & lat & -> & Hdone & Herr). simpl.
    destruct (deadline <=? N.max (now st) (next t) + lat)%N eqn:Hex'; simpl.
    { split; [done|]. eexists. split; [done|]. by repeat constructor. }
    rewrite Herr, Hdone.
    match goal with |- context [pollOperation E fuel _ svc name ?t' ?st'] =>
      destruct (IH fuel t' st') as [Hr Hpoll];
        [done | simpl; rewrite Hp; generalize ((N.max (now st) (next t) - next t) / 400)%N; lia
         | lia |]
    end.
    split; [done|].
    destruct Hpoll as (new & Ht & HF). simpl in Ht.
    eexists. split; [rewrite Ht, <- app_assoc; reflexivity|].
    constructor; [done | exact HF].
Qed.

Lemma waitForOperation_timeout (E : Env) svc (op : Operation.t) deadline fuel st :
  Operation.Done op = false ->
  Operation.Error op = None ->
  neverDone E svc (Operation.Name op) ->
  (N.to_nat ((deadline - now st) / 400) < fuel)%nat ->
  (waitForOperation E fuel (Some deadline) svc op st).1 = Fail timedOut /\
  polled deadline (OperationsGet svc (Operation.Name op)) st
    (waitForOperation E fuel (Some deadline) svc op st).2.
Proof.
  intros Hdone Herr Hnever Hfuel.
  unfold waitForOperation. rewrite Herr, Hdone.
  unfold bind, NewTicker. simpl.
  apply (pollOperation_timeout E svc (Operation.Name op) deadline Hnever
           (N.to_nat ((deadline - now st) / 400)) fuel
           {| next := now st + 400; period := 400 |} st); [done | | done].
  simpl. pose proof (N.mod_lt (deadline - now st) 400).
  pose proof (N.div_mod (deadline - now st) 400). lia.
Qed.

(** C7: a wait under a deadline for an operation that never reports done
    returns a timeout error, and polling stops: with fuel for the ticks that
    fit before the deadline the poller returns, and every fetch it issued
    was issued before the deadline. *)
Theorem waitForCreate_times_out
    (E : Env) (op : Operation.t) (deadline : N) (fuel : nat) (st : state) :
  Operation.Done op = false ->
  Operation.Error op = None ->
  neverDone E CloudResourceManager (Operation.Name op) ->
  (N.to_nat ((deadline - now st) / 400) < fuel)%nat ->
  let r := waitForCreate E fuel (Some deadline) op st in
  r.1 = Fail timedOut /\
  isTimeout timedOut = true /\
  polled deadline (OperationsGet CloudResourceManager (Operation.Name op)) st r.2.
Proof.
  intros Hdone Herr Hnever Hfuel r. subst r.
  destruct (waitForOperation_timeout E CloudResourceManager op deadline fuel st)
    as [Hr Hp]; by repeat split.
Qed.

Lemma waitForCreate_never_done :
  let r := waitForCreate
             (worldEnv {| wSpec := demoSpec; wExists := false; wProject := demoProject;
                          wBilling := unlinked; wAccounts := [accountA];
                          wUpdated := inr linkedA; wServices := []; wOperation := pendingOp;
                          wLatency := 100; wCache := inr "[]" |})
             13 (Some 5000%N) pendingOp start in
  r.1 = Fail timedOut /\
  isTimeout timedOut = true /\
  polled 5000 (OperationsGet CloudResourceManager "operations/1") start r.2.
Proof.
  apply waitForCreate_times_out.
  - reflexivity.
  - reflexivity.
  - intros h. by eexists _, _.
  - vm_compute. lia.
Defined.

(** The run of that example: twelve fetches, at 400 ms, 800 ms, ..., 4800 ms. *)
Example waitForCreate_never_done_fetches :
  (trace (waitForCreate
            (worldEnv {| wSpec := demoSpec; wExists := false; wProject := demoProject;
                         wBilling := unlinked; wAccounts := [accountA];
                         wUpdated := inr linkedA; wServices := [];
                         wOperation := pendingOp; wLatency := 100; wCache := inr "[]" |})
            13 (Some 5000%N) pendingOp start).2).*1
  = (fun k : nat => (400 * N.of_nat k)%N) <$> seq 1 12.
Proof. by vm_compute. Qed.

(** ** The catalog cache *)

(** Steps through the next call of an unfolded run, using what is known
    about the environment's answer to it. *)
Ltac answer_call :=
  match goal with
  | |- context [respond ?E ?h ?c] =>
      let x := fresh "x" in
      let lat := fresh "lat" in
      let Hx := fresh "Hx" in
      destruct (respond E h c) as [x lat] eqn:Hx;
      first
        [ match goal with
          | H : answers E c _ |- _ =>
              let H' := fresh in
              pose proof (H h) as H'; rewrite Hx in H'; simpl in H'; subst x
          end
        | match goal with
          | H : succeeds E c |- _ =>
              let H' := fresh in
              destruct (H h) as [? H']; rewrite Hx in H'; simpl in H'; subst x
          end
        | destruct x as [?|?] ];
      simpl
  end.

Lemma decodeCacheError_names_path (cachePath : string) (err : error) :
  exists pre post, Error (decodeCacheError cachePath err) = pre +:+ cachePath +:+ post.
Proof. by eexists _, _. Qed.

(** C8: when the cache document of a project exists it is decoded and
    returned as it is, without any live fetch; when it does not decode the
    result is an error whose message names the path of the cache document,
    again without a live fetch. *)
Theorem availableAPIs_cached
    (E : Env) (fuel : nat) (projectNumber : Z) (dir cached : string) (st : state) :
  answers E UserCacheDir dir ->
  succeeds E (MkdirAll (Join E [dir; "gproj"; pretty projectNumber])) ->
  answers E (ReadFile (Join E [Join E [dir; "gproj"; pretty projectNumber];
                               "available-apis.json"])) cached ->
  let cachePath := Join E [Join E [dir; "gproj"; pretty projectNumber];
                           "available-apis.json"] in
  let r := availableAPIs E fuel projectNumber st in
  issued st r.2 = [UserCacheDir; MkdirAll (Join E [dir; "gproj"; pretty projectNumber]);
                   ReadFile cachePath] /\
  Forall (fun c => isRemote c = false /\ isLiveFetch c = false) (issued st r.2) /\
  (forall apis, Unmarshal E cached = inr apis -> r.1 = Done apis) /\
  (forall err, Unmarshal E cached = inl err ->
     r.1 = Fail (decodeCacheError cachePath err) /\
     exists pre post, Error (decodeCacheError cachePath err) = pre +:+ cachePath +:+ post).
Proof.
  intros Hdir Hmk Hread cachePath r.
  assert (Hrun : issued st r.2
                 = [UserCacheDir; MkdirAll (Join E [dir; "gproj"; pretty projectNumber]);
                    ReadFile cachePath] /\
                 r.1 = match Unmarshal E cached with
                       | inl err => Fail (decodeCacheError cachePath err)
                       | inr apis => Done apis
                       end).
  { subst r cachePath. unfold availableAPIs, cacheDir, bind, catch, wrapErr, perform. simpl.
    do 3 answer_call.
    destruct (Unmarshal E cached); simpl; split; try done; by show_issued. }
  destruct Hrun as [Hi Hr]. rewrite Hi, Hr.
  split; [done|]. split; [by repeat constructor|].
  split.
  - by intros apis ->.
  - intros err ->. split; [done | apply decodeCacheError_names_path].
Qed.

Lemma availableAPIs_cached_examples :
  (availableAPIs (worldEnv convergedWorld) 5 42 start).1 = Done [] /\
  (availableAPIs
     (worldEnv {| wSpec := demoSpec; wExists := true; wProject := demoProject;
                  wBilling := linkedA; wAccounts := [accountA];
                  wUpdated := inr linkedA; wServices := [computeService];
                  wOperation := doneOp; wLatency := 100; wCache := inr "[{" |})
     5 42 start).1
  = Fail (ErrorString
            "error decoding cached API listing; try deleting /home/user/.cache/gproj/42/available-apis.json: invalid character").
Proof.
  split.
  - refine (proj1 (proj2 (proj2
      (availableAPIs_cached (worldEnv convergedWorld) 5 42 "/home/user/.cache" "[]" start
         _ _ _))) [] _); try (intros h; reflexivity); try reflexivity.
    intros h. by eexists.
  - set (E := worldEnv _).
    refine (proj1 (proj2 (proj2 (proj2
      (availableAPIs_cached E 5 42 "/home/user/.cache" "[{" start _ _ _)))
      (ErrorString "invalid character") _)); try (intros h; reflexivity); try reflexivity.
    intros h. by eexists.
Defined.

(** ** Whole runs *)

Lemma sat_bind_any {A B} (R : state -> state -> Prop) `{!PreOrder R}
    (Q' : B -> Prop) (m : M A) (k : A -> M B) :
  sat R (fun _ => True) m -> (forall a, sat R Q' (k a)) -> sat R Q' (bind m k).
Proof. intros Hm Hk. eapply sat_bind; pre; [exact Hm | auto]. Qed.

Lemma sat_catch_any {A} (R : state -> state -> Prop) `{!PreOrder R} (m : M A) :
  sat R (fun _ => True) m -> sat R (fun _ => True) (catch m).
Proof.
  intros Hm. eapply sat_weaken; pre; [ | apply sat_catch; pre; exact Hm]. done.
Qed.

Lemma sat_waitForCreate_issues E (P : call -> Prop) fuel ctx op :
  P (OperationsGet CloudResourceManager (Operation.Name op)) ->
  sat (issues P) (fun _ => True) (waitForCreate E fuel ctx op).
Proof. apply sat_waitForOperation_issues. Qed.

Lemma sat_waitForEnable_issues E (P : call -> Prop) fuel ctx op :
  P (OperationsGet ServiceUsage (Operation.Name op)) ->
  sat (issues P) (fun _ => True) (waitForEnable E fuel ctx op).
Proof. apply sat_waitForOperation_issues. Qed.

Lemma sat_state_only {A} (P : call -> Prop) (m : M A) :
  (forall st, trace (m st).2 = trace st) -> sat (issues P) (fun _ => True) m.
Proof. intros H st. split; [by apply issues_same_trace | done]. Qed.

Lemma forEach_trace (body : string -> string -> M unit) kvs :
  (forall k v st, trace (body k v st).2 = trace st) ->
  forall st, trace (forEach kvs body st).2 = trace st.
Proof.
  intros Hb. induction kvs as [|[k v] rest IH]; intros st; simpl; [done|].
  unfold bind. specialize (Hb k v st).
  destruct (body k v st) as [[[]|e|] st1]; simpl in *; [|done|done].
  by rewrite IH.
Qed.

Lemma mapAssign_trace r k v st : trace (mapAssign r k v st).2 = trace st.
Proof. by destruct r. Qed.

Lemma mapRange_assign_trace r r' st :
  trace (mapRange r (fun k v => mapAssign r' k v) st).2 = trace st.
Proof. unfold mapRange. apply forEach_trace. intros. apply mapAssign_trace. Qed.

(** Decomposes a run into its calls when nothing is assumed about the
    answers; [solveP] shows that a call is one of those allowed. *)
Ltac sat_any solveP :=
  repeat lazymatch goal with
    | |- sat _ _ (bind _ _) => apply sat_bind_any; pre; [ | intros ? ]
    | |- sat _ _ (ret _) => apply sat_ret; pre; exact I
    | |- sat _ _ (fail _) => apply sat_fail; pre
    | |- sat _ _ outOfFuel => apply sat_outOfFuel; pre
    | |- sat _ _ (wrapErr _ _) => apply sat_wrapErr; pre
    | |- sat _ _ (wrapErrV _ _) => apply sat_wrapErrV; pre
    | |- sat _ _ (catch _) => apply sat_catch_any; pre
    | |- sat (issues ?P) _ (perform ?E ?ctx ?c) => apply (sat_perform E P ctx c); solveP
    | |- sat (issues _) _ (waitForCreate _ _ _ _) => apply sat_waitForCreate_issues; solveP
    | |- sat (issues _) _ (waitForEnable _ _ _ _) => apply sat_waitForEnable_issues; solveP
    | |- sat (issues _) _ (mapRange _ _) => apply sat_state_only; apply mapRange_assign_trace
    | |- sat (issues _) _ (mapAssign _ _ _) => apply sat_state_only; apply mapAssign_trace
    | |- sat (issues _) _ makeMap => apply sat_state_only; done
    | |- sat (issues _) _ (mapContents _) => apply sat_state_only; done
    | |- sat (issues _) _ (WithTimeout _ _) => apply sat_state_only; done
    | |- sat (issues _) _ timeNow => apply sat_state_only; done
    | |- sat _ _ (if ?b then _ else _) => destruct b eqn:?
    | |- sat _ _ (match ?x with _ => _ end) => destruct x eqn:?
    end.

Lemma sat_enableAPIs_limit E fuel projNum toEnable :
  sat (issues withinBatchLimit) (fun _ => True) (enableAPIs E fuel projNum toEnable).
Proof.
  unfold enableAPIs.
  destruct (0 <? length toEnable)%nat; [|sat_any idtac].
  destruct (20 <? length toEnable)%nat eqn:H20; [sat_any idtac|].
  apply Nat.ltb_ge in H20.
  sat_any ltac:(by simpl).
Qed.

Lemma sat_apply_limit E fuel a :
  sat (issues withinBatchLimit) (fun _ => True) (apply E fuel a).
Proof.
  unfold apply, googleCredentials, readProjectSpec, createProject, newProject,
    ProjectsCreateDo, findBillingAccount, updateBillingAccount.
  sat_any ltac:(first [exact I | by simpl; lia | apply sat_enableAPIs_limit]).
  all: apply sat_enableAPIs_limit.
Qed.

Lemma sat_sync_limit E fuel a :
  sat (issues withinBatchLimit) (fun _ => True) (sync E fuel a).
Proof.
  unfold sync, readProjectSpec_sync, createProject_sync, newProject_sync,
    ProjectsCreateDo, findBillingAccount, updateBillingAccount.
  sat_any ltac:(first [exact I | by simpl; lia | apply sat_enableAPIs_limit]).
  all: apply sat_enableAPIs_limit.
Qed.

(** ** The batch limit *)

(** C6 (as amended): with more than 20 entries to enable, the enable step
    returns the batch-limit error without submitting any call, so that no
    batch-enable call of [apply] or [sync] ever carries more than 20
    services; what earlier steps of the same run have submitted is not
    undone. *)
Theorem enableAPIs_rejects_over_limit
    (E : Env) (fuel : nat) (a : args) (projNum : string) (toEnable : list string)
    (st : state) :
  (20 < length toEnable ->
     enableAPIs E fuel projNum toEnable st = (Fail tooManyAPIs, st)) /\
  Forall withinBatchLimit (issued st (apply E fuel a st).2) /\
  Forall withinBatchLimit (issued st (sync E fuel a st).2).
Proof.
  split; [|split].
  - intros H. unfold enableAPIs.
    rewrite (proj2 (Nat.ltb_lt 0 _)) by lia.
    by rewrite (proj2 (Nat.ltb_lt 20 _)) by lia.
  - apply issues_issued, sat_apply_limit.
  - apply issues_issued, sat_sync_limit.
Qed.

Lemma enableAPIs_rejects_21 :
  enableAPIs (worldEnv freshWorld) 5 "projects/42" manyAPIs start = (Fail tooManyAPIs, start).
Proof.
  apply (enableAPIs_rejects_over_limit (worldEnv freshWorld) 5 noArgs "projects/42"
           manyAPIs start).
  vm_compute. lia.
Defined.

(** C6, as stated, fails: a run of [apply] for a project that does not exist
    yet, with 21 requested services, is rejected with the batch-limit error
    only after it has created the project, enabled the billing service in
    a batch of its own and updated the billing link. *)
Lemma apply_rejects_after_mutations :
  let r := apply (worldEnv freshWorld) 5 noArgs start in
  20 < length (toEnable_apply manyAPIs) /\
  r.1 = Fail tooManyAPIs /\
  List.filter isMutating (issued start r.2)
  = [ProjectsCreate "demo" "demo-1" {["managed-by" := "gproj"]};
     BatchEnable "projects/42" ["cloudbilling.googleapis.com"];
     UpdateBillingInfo "projects/42" "billingAccounts/A"].
Proof.
  split; [vm_compute; lia|]. split; by vm_compute.
Qed.

(** ** Reconciling a converged project *)

Lemma sat_ret_eq {A} (R : state -> state -> Prop) `{!PreOrder R} (a : A) :
  sat R (fun x => x = a) (ret a).
Proof. by apply sat_ret. Qed.

Lemma perform_Background_answers E c x st :
  answers E c x -> (perform E Background c st).1 = Done x.
Proof.
  intros H. unfold perform. simpl. specialize (H (trace st)).
  destruct (respond E (trace st) c) as [r lat]. simpl in H. by subst r.
Qed.

Lemma submitted_later (P : call -> Prop) c st st1 st2 :
  issues P st st1 -> submitted c st1 st2 -> submitted c st st2.
Proof.
  intros (new & Ht & _). unfold submitted, issued.
  rewrite Ht, length_app, <- drop_drop.
  intros H. apply list_elem_of_fmap in H as (tc & -> & H).
  apply list_elem_of_fmap. exists tc. split; [done|].
  eapply (subseteq_drop _ _ _ H).
Qed.

Lemma reaches_bind {A B} (R G : state -> state -> Prop) (Q : A -> Prop)
    (m : M A) (k : A -> M B) :
  (forall st st1 st2, R st st1 -> G st1 st2 -> G st st2) ->
  sat R Q m -> (forall a, Q a -> reaches G (k a)) -> reaches G (bind m k).
Proof.
  intros HG Hm Hk st b. unfold bind.
  destruct (Hm st) as [HR HQ].
  destruct (m st) as [[a|e|] st1]; simpl in *; [|discriminate|discriminate].
  intros Hb. eapply HG; [exact HR|]. by eapply Hk; [apply HQ|].
Qed.

Lemma reaches_bind_any {A B} (R G : state -> state -> Prop) (m : M A) (k : A -> M B) :
  (forall st st1 st2, R st st1 -> G st1 st2 -> G st st2) ->
  sat R (fun _ => True) m -> (forall a, reaches G (k a)) -> reaches G (bind m k).
Proof. intros HG Hm Hk. eapply reaches_bind; [exact HG | exact Hm | auto]. Qed.

Lemma reaches_fail {A} (G : state -> state -> Prop) e : reaches G (@fail A e).
Proof. intros st a. discriminate. Qed.

Lemma perform_Done_trace E ctx c st a :
  (perform E ctx c st).1 = Done a ->
  trace (perform E ctx c st).2 = trace st ++ [(now st, c)].
Proof.
  unfold perform. destruct (expired ctx (now st)); [discriminate|].
  destruct (respond E (trace st) c) as [r lat].
  destruct (expired ctx _); [discriminate|]. by destruct r.
Qed.

Lemma reaches_enableAPIs E fuel projNum toEnable :
  toEnable <> [] ->
  reaches (submitted (BatchEnable projNum toEnable)) (enableAPIs E fuel projNum toEnable).
Proof.
  intros Hne st a. unfold enableAPIs.
  assert (H0 : (0 <? length toEnable)%nat = true) by by destruct toEnable.
  rewrite H0.
  destruct (20 <? length toEnable)%nat; [simpl; discriminate|].
  unfold bind, wrapErr.
  pose proof (perform_Done_trace E Background (BatchEnable projNum toEnable) st) as Ht.
  destruct (perform E Background (BatchEnable projNum toEnable) st) as [[op|e|] st1];
    simpl in *; [|discriminate|discriminate].
  specialize (Ht op eq_refl).
  destruct (sat_waitForEnable_issues E (fun _ => True) fuel Background op I st1)
    as [(new & Hw & _) _].
  intros _. unfold submitted, issued.
  destruct (waitForEnable E fuel Background op st1) as [[[]|e|] st2]; simpl in *;
    rewrite Hw, Ht, <- app_assoc, drop_app_length, fmap_app; simpl; by left.
Qed.

Section SpecFile.

Variables (E : Env) (spec : ProjectSpec.t) (P : call -> Prop).

Hypothesis Hspec : forall path, answers E (YamlDecode path) spec.
Hypothesis HP : forall c, isRemote c = false -> P c.

Ltac allowed := apply HP; reflexivity.

Lemma sat_readProjectSpec_sync path :
  sat (issues P) (fun s => s = spec) (readProjectSpec_sync E path).
Proof.
  unfold readProjectSpec_sync.
  apply sat_bind_any; pre; [sat_any allowed|]. intros p.
  apply sat_bind_any; pre; [sat_any allowed|]. intros _.
  apply sat_wrapErr; pre.
  apply (sat_perform_answers E P Background (YamlDecode p)); [apply Hspec | allowed].
Qed.

Lemma sat_readProjectSpec path :
  sat (issues P) (fun s => s = spec) (readProjectSpec E path).
Proof.
  unfold readProjectSpec.
  apply sat_bind_any; pre; [sat_any allowed|]. intros p.
  apply sat_bind_any; pre; [sat_any allowed|]. intros _.
  apply sat_wrapErr; pre.
  apply (sat_perform_answers E P Background (YamlDecode p)); [apply Hspec | allowed].
Qed.

Lemma sat_googleCredentials :
  sat (issues P) (fun _ => True) (googleCredentials E).
Proof. unfold googleCredentials. sat_any allowed. Qed.

End SpecFile.

Section Converged.

Variables (E : Env) (spec : ProjectSpec.t) (project : Project.t)
  (billing : ProjectBillingInfo.t) (accounts : list BillingAccount.t).

Hypothesis Hspec : forall path, answers E (YamlDecode path) spec.
Hypothesis Hget : answers E (ProjectsGet (ProjectSpec.ID spec)) project.
Hypothesis Hbilling :
  answers E (GetBillingInfo (formatProjectNumber (Project.ProjectNumber project))) billing.
Hypothesis Haccounts : answers E BillingAccountsList accounts.

Variable P : call -> Prop.
Hypothesis HP : forall c, isMutating c = false -> P c.

Ltac allowed := apply HP; reflexivity.

Lemma sat_answers ctx c x :
  answers E c x -> isMutating c = false ->
  sat (issues P) (fun a => a = x) (perform E ctx c).
Proof. intros Hx Hc. apply sat_perform_answers; [done | by apply HP]. Qed.

Lemma sat_catch_answers c x :
  answers E c x -> isMutating c = false ->
  sat (issues P) (fun r => r = inr x) (catch (perform E Background c)).
Proof.
  intros Hx Hc st. unfold catch.
  pose proof (perform_Background_answers E c x st Hx) as Hd.
  destruct (sat_perform E P Background c (HP c Hc) st) as [HR _].
  destruct (perform E Background c st) as [[a| |] st1]; simpl in *; try done.
  injection Hd as ->. split; [done|]. by intros ? [= <-].
Qed.

Lemma allows_local : forall c, isRemote c = false -> P c.
Proof. intros c Hc. apply HP. by destruct c. Qed.

Ltac answered :=
  lazymatch goal with
  | |- sat _ _ (perform _ ?ctx ?c) =>
      eapply (sat_answers ctx c); [solve [eauto] | reflexivity]
  | |- sat _ _ (catch (perform _ _ ?c)) =>
      eapply (sat_catch_answers c); [solve [eauto] | reflexivity]
  | |- sat _ _ (wrapErr _ _) => apply sat_wrapErr; pre; answered
  end.

Lemma sat_findBillingAccount sentinel account :
  resolves sentinel spec accounts account ->
  sat (issues P) (fun a => a = account) (findBillingAccount E sentinel spec).
Proof.
  unfold resolves, findBillingAccount. intros H.
  destruct (decide (ProjectSpec.Billing spec = sentinel)) as [_|_].
  - destruct H as (a & Ha & <-).
    eapply sat_bind; pre; [answered|].
    intros ? ->. rewrite Ha. sat_end.
  - subst account. sat_end.
Qed.

Lemma sat_updateBillingAccount_same projNum :
  sat (issues P) (fun _ => True)
    (updateBillingAccount E projNum billing (ProjectBillingInfo.BillingAccountName billing)).
Proof.
  unfold updateBillingAccount. rewrite decide_False by (intros H; by apply H).
  sat_end.
Qed.

Lemma sat_enableAPIs fuel projNum toEnable :
  P (BatchEnable projNum toEnable) ->
  sat (issues P) (fun _ => True) (enableAPIs E fuel projNum toEnable).
Proof.
  intros Hc. unfold enableAPIs. sat_any ltac:(first [exact Hc | allowed]).
Qed.

Lemma toEnable_sync_allEnabled services requested toEnable :
  allEnabled services requested ->
  toEnable_sync (catalog services) toEnable requested = inr toEnable \/
  exists err, toEnable_sync (catalog services) toEnable requested = inl err.
Proof.
  induction 1 as [|r rest Hr _ IH]; simpl; [by left|].
  destruct (catalog services !! normalizeAPI r) as [info|]; [|right; by eexists].
  by rewrite (Hr info eq_refl).
Qed.

(** [sync] on a converged project. *)
Lemma sat_sync_converged fuel a apiList :
  resolves "" spec accounts (ProjectBillingInfo.BillingAccountName billing) ->
  answers E (ServicesList (formatProjectNumber (Project.ProjectNumber project)) "") apiList ->
  allEnabled (ListServicesResponse.Services apiList) (ProjectSpec.APIs spec) ->
  sat (issues P) (fun _ => True) (sync E fuel a).
Proof.
  intros Hres Hlist Hen. unfold sync.
  eapply sat_bind; pre; [apply sat_readProjectSpec_sync; [exact Hspec | exact allows_local]|]. intros ? ->.
  apply sat_bind_any; pre; [sat_any allowed|]. intros _.
  eapply sat_bind; pre; [answered|]. intros ? ->.
  eapply sat_bind; pre; [apply sat_ret_eq; pre|]. intros ? ->.
  apply sat_bind_any; pre; [sat_any allowed|]. intros _.
  eapply sat_bind; pre; [answered|]. intros ? ->.
  eapply sat_bind; pre; [by apply sat_findBillingAccount|]. intros ? ->.
  apply sat_bind_any; pre; [apply sat_updateBillingAccount_same|]. intros _.
  apply sat_bind_any; pre; [sat_any allowed|]. intros _.
  eapply sat_bind; pre; [answered|]. intros ? ->.
  destruct (toEnable_sync_allEnabled _ _ [] Hen) as [->|[err ->]]; sat_end.
Qed.

(** [apply] on a project that exists and whose billing link matches. *)
Lemma sat_apply_converged fuel a :
  resolves "enable" spec accounts (ProjectBillingInfo.BillingAccountName billing) ->
  P (BatchEnable (formatProjectNumber (Project.ProjectNumber project))
       (toEnable_apply (ProjectSpec.APIs spec))) ->
  sat (issues P) (fun _ => True) (apply E fuel a).
Proof.
  intros Hres Hc. unfold apply.
  apply sat_bind_any; pre; [unfold googleCredentials; sat_any allowed|]. intros creds.
  eapply sat_bind; pre; [apply sat_readProjectSpec; [exact Hspec | exact allows_local]|]. intros ? ->.
  destruct (String.length (ProjectSpec.Name spec) <? 4)%nat; [sat_end|].
  apply sat_bind_any; pre; [sat_any allowed|]. intros _.
  apply sat_bind_any; pre; [sat_any allowed|]. intros _.
  eapply sat_bind; pre; [answered|]. intros ? ->.
  eapply sat_bind; pre; [apply sat_ret_eq; pre|]. intros ? ->.
  apply sat_bind_any; pre; [sat_any allowed|]. intros _.
  eapply sat_bind; pre; [answered|]. intros ? ->.
  eapply sat_bind; pre; [by apply sat_findBillingAccount|]. intros ? ->.
  apply sat_bind_any; pre; [apply sat_updateBillingAccount_same|]. intros _.
  by apply sat_enableAPIs.
Qed.

(** [apply] on such a project submits the whole request list again. *)
Lemma reaches_apply_converged fuel a :
  resolves "enable" spec accounts (ProjectBillingInfo.BillingAccountName billing) ->
  ProjectSpec.APIs spec <> [] ->
  reaches (submitted (BatchEnable (formatProjectNumber (Project.ProjectNumber project))
                        (toEnable_apply (ProjectSpec.APIs spec))))
    (apply E fuel a).
Proof.
  intros Hres Hne. unfold apply.
  eapply reaches_bind_any;
    [apply submitted_later | unfold googleCredentials; sat_any allowed|].
  intros creds.
  eapply reaches_bind;
    [apply submitted_later | apply sat_readProjectSpec; [exact Hspec | exact allows_local]|].
  intros ? ->.
  destruct (String.length (ProjectSpec.Name spec) <? 4)%nat; [apply reaches_fail|].
  eapply reaches_bind_any; [apply submitted_later | sat_any allowed|]. intros _.
  eapply reaches_bind_any; [apply submitted_later | sat_any allowed|]. intros _.
  eapply reaches_bind; [apply submitted_later | answered|]. intros ? ->.
  eapply reaches_bind; [apply submitted_later | apply (sat_ret_eq (issues P))|].
  intros ? ->.
  eapply reaches_bind_any; [apply submitted_later | sat_any allowed|]. intros _.
  eapply reaches_bind; [apply submitted_later | answered|]. intros ? ->.
  eapply reaches_bind; [apply submitted_later | by apply sat_findBillingAccount|].
  intros ? ->.
  eapply reaches_bind_any;
    [apply (submitted_later P) | apply sat_updateBillingAccount_same|].
  intros _.
  apply reaches_enableAPIs. rewrite toEnable_apply_map. by destruct (ProjectSpec.APIs spec).
Qed.

End Converged.

Lemma onlyEnables_nonmutating c0 c : isMutating c = false -> onlyEnables c0 c.
Proof. unfold onlyEnables. destruct c; simpl; try discriminate; by intros _. Qed.

(** C1 (as amended): on a project that exists and whose billing link is
    the account the spec resolves to, neither command creates a project or
    updates billing.  [sync], when every requested service is in the listed
    catalog and enabled, computes an empty list and issues no mutating call
    at all.  [apply] does not look at the catalog: the only mutating call it
    can issue is the batch-enable of the whole normalised request list, and
    a successful run with a non-empty request list does issue it. *)
Theorem reconcile_converged
    (E : Env) (spec : ProjectSpec.t) (project : Project.t)
    (billing : ProjectBillingInfo.t) (accounts : list BillingAccount.t)
    (apiList : ListServicesResponse.t) (fuel : nat) (a : args) (st : state) :
  (forall path, answers E (YamlDecode path) spec) ->
  answers E (ProjectsGet (ProjectSpec.ID spec)) project ->
  answers E (GetBillingInfo (formatProjectNumber (Project.ProjectNumber project))) billing ->
  answers E BillingAccountsList accounts ->
  answers E (ServicesList (formatProjectNumber (Project.ProjectNumber project)) "") apiList ->
  (resolves "" spec accounts (ProjectBillingInfo.BillingAccountName billing) ->
   allEnabled (ListServicesResponse.Services apiList) (ProjectSpec.APIs spec) ->
   Forall (fun c => isMutating c = false) (issued st (sync E fuel a st).2)) /\
  (resolves "enable" spec accounts (ProjectBillingInfo.BillingAccountName billing) ->
   let batch := BatchEnable (formatProjectNumber (Project.ProjectNumber project))
                  (List.map normalizeAPI (ProjectSpec.APIs spec)) in
   Forall (onlyEnables batch) (issued st (apply E fuel a st).2) /\
   ((apply E fuel a st).1 = Done tt -> ProjectSpec.APIs spec <> [] ->
    batch ∈ issued st (apply E fuel a st).2)).
Proof.
  intros Hspec Hget Hbilling Haccounts Hlist. split.
  - intros Hres Hen. apply issues_issued.
    by apply (sat_sync_converged E spec project billing accounts Hspec Hget Hbilling
                Haccounts _ (fun c H => H) fuel a apiList).
  - intros Hres batch. subst batch. rewrite <- toEnable_apply_map. split.
    + apply issues_issued.
      apply (sat_apply_converged E spec project billing accounts Hspec Hget Hbilling
               Haccounts _ (onlyEnables_nonmutating _) fuel a Hres).
      by repeat split.
    + intros Hdone Hne.
      by apply (reaches_apply_converged E spec project billing accounts Hspec Hget Hbilling
                  Haccounts (fun _ => True) (fun _ _ => I) fuel a Hres Hne st tt).
Qed.

Lemma reconcile_converged_demo :
  Forall (fun c => isMutating c = false)
    (issued start (sync (worldEnv convergedWorld) 5 noArgs start).2) /\
  Forall (onlyEnables (BatchEnable "projects/42" ["compute.googleapis.com"]))
    (issued start (apply (worldEnv convergedWorld) 5 noArgs start).2) /\
  BatchEnable "projects/42" ["compute.googleapis.com"]
  ∈ issued start (apply (worldEnv convergedWorld) 5 noArgs start).2.
Proof.
  destruct (reconcile_converged (worldEnv convergedWorld) demoSpec demoProject linkedA
              [accountA; accountC]
              {| ListServicesResponse.Services := [computeService];
                 ListServicesResponse.NextPageToken := "" |}
              5 noArgs start) as [Hsync Happly];
    try (intros h; reflexivity).
  { intros path h. reflexivity. }
  split.
  - apply Hsync; [reflexivity|].
    repeat constructor. intros info Hi. vm_compute in Hi. by injection Hi as <-.
  - destruct Happly as [Hall Hin]; [reflexivity|].
    split; [exact Hall|]. apply Hin; [reflexivity | discriminate].
Defined.

(** C1, as stated, fails for [apply]: on a project that exists, with the
    matching billing link and the one requested service already enabled,
    the run still submits a batch-enable call. *)
Lemma apply_converged_still_enables :
  let r := apply (worldEnv convergedWorld) 5 noArgs start in
  wExists convergedWorld = true /\
  ProjectBillingInfo.BillingAccountName (wBilling convergedWorld)
  = ProjectSpec.Billing (wSpec convergedWorld) /\
  allEnabled (wServices convergedWorld) (ProjectSpec.APIs (wSpec convergedWorld)) /\
  r.1 = Done tt /\
  List.filter isMutating (issued start r.2)
  = [BatchEnable "projects/42" ["compute.googleapis.com"]].
Proof.
  split; [reflexivity|]. split; [reflexivity|]. split.
  - repeat constructor. intros info Hi. vm_compute in Hi. by injection Hi as <-.
  - split; by vm_compute.
Qed.

(** ** Validation of the project name *)

(** [apply] rejects a short name before it reaches any remote service. *)
Lemma apply_rejects_short_name (E : Env) (spec : ProjectSpec.t) fuel a st :
  (forall path, answers E (YamlDecode path) spec) ->
  String.length (ProjectSpec.Name spec) < 4 ->
  Forall (fun c => isRemote c = false) (issued st (apply E fuel a st).2) /\
  (apply E fuel a st).1 <> Done tt.
Proof.
  intros Hspec Hlen.
  assert (Hlt : (String.length (ProjectSpec.Name spec) <? 4)%nat = true)
    by by apply Nat.ltb_lt.
  split.
  - assert (Hs : sat (issues (fun c => isRemote c = false)) (fun _ => True) (apply E fuel a));
      [|apply issues_issued, Hs].
    unfold apply.
    apply sat_bind_any; pre; [apply sat_googleCredentials; auto|]. intros creds.
    eapply sat_bind; pre; [apply (sat_readProjectSpec E spec); auto|]. intros ? ->.
    rewrite Hlt. sat_end.
  - intros Hdone.
    assert (Hr : reaches (fun _ _ => False) (apply E fuel a)); [|by eapply Hr].
    unfold apply.
    eapply reaches_bind_any;
      [by intros | apply (sat_googleCredentials E (fun _ => True)); auto|].
    intros creds.
    eapply reaches_bind;
      [by intros | apply (sat_readProjectSpec E spec (fun _ => True)); auto|].
    intros ? ->. rewrite Hlt. apply reaches_fail.
Qed.

(** With the local steps succeeding, the result is the validation error. *)
Lemma apply_short_name_error (E : Env) (spec : ProjectSpec.t) fuel a st :
  (forall path, answers E (YamlDecode path) spec) ->
  succeeds E FindDefaultCredentials ->
  succeeds E FindProjectSpec ->
  (forall path, succeeds E (OsOpen path)) ->
  String.length (ProjectSpec.Name spec) < 4 ->
  (apply E fuel a st).1 = Fail (nameInvalid E (ProjectSpec.Name spec)).
Proof.
  intros Hspec Hcreds Hfind Hopen Hlen.
  assert (Hlt : (String.length (ProjectSpec.Name spec) <? 4)%nat = true)
    by by apply Nat.ltb_lt.
  unfold apply, googleCredentials, readProjectSpec, bind, wrapErr, perform. simpl.
  answer_call.
  destruct (decide (Spec a = "")); simpl; [answer_call|];
    (match goal with |- context [respond E ?h (OsOpen ?p)] =>
       let xo := fresh "xo" in let lo := fresh "lo" in let Ho := fresh "Ho" in
       destruct (Hopen p h) as [[] Ho]; destruct (respond E h (OsOpen p)) as [xo lo];
       simpl in Ho; subst xo; simpl end);
    (match goal with |- context [respond E ?h (YamlDecode ?p)] =>
       let xy := fresh "xy" in let ly := fresh "ly" in let Hy := fresh "Hy" in
       pose proof (Hspec p h) as Hy; destruct (respond E h (YamlDecode p)) as [xy ly];
       simpl in Hy; subst xy; simpl end);
    by rewrite Hlt.
Qed.

(** C2: a name shorter than 4 characters must be rejected before any
    remote call.  [apply] does so; [sync], where validation is still a TODO,
    does not: with the name "abc" it goes on to call the resource manager, the
    billing service and the service-usage service, and succeeds. *)
Theorem sync_does_not_validate_name :
  let r := sync (worldEnv shortNameWorld) 5 noArgs start in
  String.length (ProjectSpec.Name (wSpec shortNameWorld)) < 4 /\
  r.1 = Done tt /\
  List.filter isRemote (issued start r.2)
  = [ProjectsGet "demo-1"; GetBillingInfo "projects/42"; ServicesList "projects/42" ""] /\
  (apply (worldEnv shortNameWorld) 5 noArgs start).1
  = Fail (nameInvalid (worldEnv shortNameWorld) "abc") /\
  List.filter isRemote (issued start (apply (worldEnv shortNameWorld) 5 noArgs start).2) = [].
Proof.
  split; [vm_compute; lia|]. repeat split; by vm_compute.
Qed.

(** ** Labels *)

Lemma assignAll_list_to_map (kvs : list (string * string)) (m0 : gmap string string) :
  NoDup kvs.*1 -> assignAll m0 kvs = list_to_map kvs ∪ m0.
Proof.
  unfold assignAll. revert m0. induction kvs as [|[k v] rest IH]; intros m0 Hnd.
  - simpl. by rewrite (left_id_L ∅ (∪)).
  - rewrite fmap_cons in Hnd. apply NoDup_cons in Hnd as [Hk Hnd]. simpl.
    rewrite IH by done. rewrite <- insert_union_l.
    symmetry. apply insert_union_r. by apply not_elem_of_list_to_map_1.
Qed.

Lemma assignAll_map_to_list (m : gmap string string) :
  assignAll ∅ (map_to_list m) = m.
Proof.
  rewrite assignAll_list_to_map by apply NoDup_fst_map_to_list.
  by rewrite list_to_map_to_list, (right_id_L ∅ (∪)).
Qed.

(** Copying entries into the map at [l] writes that map and nothing else. *)
Lemma forEach_copy (l : loc) kvs st m0 :
  heap st !! l = Some m0 ->
  forEach kvs (fun k v => mapAssign (MapRef l) k v) st
  = (Done tt, {| now := now st; trace := trace st;
                 heap := <[l := assignAll m0 kvs]> (heap st) |}).
Proof.
  revert st m0. induction kvs as [|[k v] rest IH]; intros st m0 Hl; simpl.
  - unfold ret, assignAll. simpl. rewrite insert_id by done. by destruct st.
  - unfold bind. simpl. rewrite Hl. simpl.
    erewrite IH; [|simpl; apply lookup_insert_eq].
    simpl. by rewrite insert_insert_eq.
Qed.

Lemma deref_fresh (h : gmap loc (gmap string string)) (r : mapref) m :
  live h r -> deref (<[fresh (dom h) := m]> h) r = deref h r.
Proof.
  destruct r as [|l]; simpl; [done|]. intros Hl.
  rewrite lookup_insert_ne; [done|]. intros <-. by apply (is_fresh (dom h)).
Qed.

(** The record built for creation has a new map for its labels, holding the
    labels of the spec and the marker. *)
Lemma newProject_run (spec : ProjectSpec.t) (st : state) :
  newProject spec st
  = (Done {| Project.Name := ProjectSpec.Name spec;
             Project.ProjectId := ProjectSpec.ID spec;
             Project.Labels := MapRef (fresh (dom (heap st)));
             Project.ProjectNumber := 0 |},
     {| now := now st; trace := trace st;
        heap := <[fresh (dom (heap st)) :=
                    <["managed-by" := "gproj"]>
                      (deref (<[fresh (dom (heap st)) := ∅]> (heap st))
                         (ProjectSpec.Labels spec))]> (heap st) |}).
Proof.
  unfold newProject, bind, makeMap, mapRange. simpl.
  erewrite forEach_copy; [|simpl; apply lookup_insert_eq]. simpl.
  rewrite lookup_insert_eq. simpl.
  by rewrite assignAll_map_to_list, !insert_insert_eq.
Qed.

Lemma newProject_sync_run (E : Env) (spec : ProjectSpec.t) (st : state) :
  newProject_sync E spec st
  = (Done {| Project.Name := ProjectSpec.Name spec;
             Project.ProjectId := ProjectSpec.ID spec;
             Project.Labels := MapRef (fresh (dom (heap st)));
             Project.ProjectNumber := 0 |},
     {| now := now st; trace := trace st;
        heap := <[fresh (dom (heap st)) :=
                    <["gproj-created-at" := TimeString E (now st)]>
                      (deref (<[fresh (dom (heap st)) := ∅]> (heap st))
                         (ProjectSpec.Labels spec))]> (heap st) |}).
Proof.
  unfold newProject_sync, bind, makeMap, mapRange, timeNow. simpl.
  erewrite forEach_copy; [|simpl; apply lookup_insert_eq]. simpl.
  rewrite lookup_insert_eq. simpl.
  by rewrite assignAll_map_to_list, !insert_insert_eq.
Qed.

Lemma keeps_fresh st st' m :
  heap st' = <[fresh (dom (heap st)) := m]> (heap st) -> keeps st st'.
Proof.
  intros H l Hl. rewrite H, lookup_insert_ne; [done|].
  intros <-. by apply (is_fresh (dom (heap st))).
Qed.

Lemma sat_newProject_keeps spec : sat keeps (fun _ => True) (newProject spec).
Proof.
  intros st. split; [|done]. rewrite newProject_run. simpl. by eapply keeps_fresh.
Qed.

Lemma sat_newProject_sync_keeps E spec :
  sat keeps (fun _ => True) (newProject_sync E spec).
Proof.
  intros st. split; [|done]. rewrite newProject_sync_run. simpl. by eapply keeps_fresh.
Qed.

Lemma sat_heap_only {A} (m : M A) :
  (forall st, heap (m st).2 = heap st) -> sat keeps (fun _ => True) m.
Proof. intros H st. split; [by apply keeps_same_heap | done]. Qed.

(** Decomposes a run into steps that leave the existing maps alone. *)
Ltac sat_keeps :=
  repeat lazymatch goal with
    | |- sat _ _ (bind _ _) => apply sat_bind_any; pre; [ | intros ? ]
    | |- sat _ _ (ret _) => apply sat_ret; pre; exact I
    | |- sat _ _ (fail _) => apply sat_fail; pre
    | |- sat _ _ (wrapErr _ _) => apply sat_wrapErr; pre
    | |- sat _ _ (wrapErrV _ _) => apply sat_wrapErrV; pre
    | |- sat _ _ (catch _) => apply sat_catch_any; pre
    | |- sat keeps _ (perform ?E ?ctx ?c) => apply (sat_perform_keeps E ctx c)
    | |- sat keeps _ (waitForCreate _ _ _ _) => apply sat_waitForOperation_keeps
    | |- sat keeps _ (waitForEnable _ _ _ _) => apply sat_waitForOperation_keeps
    | |- sat keeps _ (newProject _) => apply sat_newProject_keeps
    | |- sat keeps _ (newProject_sync _ _) => apply sat_newProject_sync_keeps
    | |- sat keeps _ (mapContents _) => apply sat_heap_only; done
    | |- sat keeps _ (WithTimeout _ _) => apply sat_heap_only; done
    | |- sat _ _ (if ?b then _ else _) => destruct b eqn:?
    | |- sat _ _ (match ?x with _ => _ end) => destruct x eqn:?
    end.

Lemma sat_apply_keeps E fuel a : sat keeps (fun _ => True) (apply E fuel a).
Proof.
  unfold apply, googleCredentials, readProjectSpec, createProject, ProjectsCreateDo,
    findBillingAccount, updateBillingAccount, enableAPIs.
  sat_keeps.
Qed.

Lemma sat_sync_keeps E fuel a : sat keeps (fun _ => True) (sync E fuel a).
Proof.
  unfold sync, readProjectSpec_sync, createProject_sync, ProjectsCreateDo,
    findBillingAccount, updateBillingAccount, enableAPIs.
  sat_keeps.
Qed.

Lemma sat_createProject_keeps E fuel spec :
  sat keeps (fun _ => True) (createProject E fuel spec).
Proof. unfold createProject, ProjectsCreateDo. sat_keeps. Qed.

Lemma sat_createProject_sync_keeps E fuel spec :
  sat keeps (fun _ => True) (createProject_sync E fuel spec).
Proof. unfold createProject_sync, ProjectsCreateDo. sat_keeps. Qed.

Lemma keeps_deref st st' r :
  live (heap st) r -> keeps st st' -> deref (heap st') r = deref (heap st) r.
Proof. destruct r as [|l]; simpl; [done|]. intros Hl Hk. by rewrite Hk. Qed.

Lemma ProjectsCreateDo_run E ctx (project : Project.t) st :
  ProjectsCreateDo E ctx project st
  = perform E ctx (ProjectsCreate (Project.Name project) (Project.ProjectId project)
                     (deref (heap st) (Project.Labels project))) st.
Proof. reflexivity. Qed.

(** A run that starts with the create call for [project] and goes on. *)
Lemma create_first E (project : Project.t) {A} (k : Operation.t -> M A) st :
  (forall op, sat (issues (fun _ => True)) (fun _ => True) (k op)) ->
  exists rest,
    issued st (bind (wrapErr "error creating project" (ProjectsCreateDo E Background project))
                 k st).2
    = ProjectsCreate (Project.Name project) (Project.ProjectId project)
        (deref (heap st) (Project.Labels project)) :: rest.
Proof.
  intros Hk. unfold bind, wrapErr. rewrite ProjectsCreateDo_run.
  unfold perform. simpl.
  destruct (respond E (trace st)
              (ProjectsCreate (Project.Name project) (Project.ProjectId project)
                 (deref (heap st) (Project.Labels project)))) as [[e|op] lat]; simpl.
  - exists []. by show_issued.
  - match goal with |- context [k op ?st1] =>
      destruct (Hk op st1) as [(new & Ht & _) _]; exists new.*2; unfold issued;
      rewrite Ht; simpl end.
    by rewrite <- app_assoc, drop_app_length.
Qed.

Lemma bind_run {A B} (m : M A) (k : A -> M B) st a st1 :
  m st = (Done a, st1) -> bind m k st = k a st1.
Proof. unfold bind. by intros ->. Qed.

(** In [apply], the creation of a project whose create operation never
    completes is given up after the five seconds of its wait. *)
Lemma createProject_times_out (E : Env) fuel spec st (op : Operation.t) :
  (forall h n i l, exists lat, respond E h (ProjectsCreate n i l) = (inr op, lat)) ->
  Operation.Done op = false ->
  Operation.Error op = None ->
  neverDone E CloudResourceManager (Operation.Name op) ->
  12 < fuel ->
  (createProject E fuel spec st).1 = Fail (Wrapped "error creating project" timedOut).
Proof.
  intros Hcreate Hdone Herr Hnever Hfuel.
  unfold createProject. erewrite bind_run by apply newProject_run. cbv beta.
  unfold bind at 1. unfold wrapErr at 1. rewrite ProjectsCreateDo_run.
  unfold perform. simpl.
  match goal with |- context [respond E ?h (ProjectsCreate ?n ?i ?l)] =>
    destruct (Hcreate h n i l) as [lat ->] end.
  simpl. unfold bind at 1. unfold WithTimeout at 1. simpl.
  unfold bind at 1. unfold wrapErr at 1. unfold waitForCreate.
  match goal with |- context [waitForOperation E fuel (Some ?d) ?svc op ?st1] =>
    destruct (waitForOperation_timeout E svc op d fuel st1 Hdone Herr Hnever) as [Hr _];
      [|destruct (waitForOperation E fuel (Some d) svc op st1) as [o st2]]
  end.
  - simpl. replace (now st + lat + 5000 - (now st + lat))%N with 5000%N by lia.
    by vm_compute.
  - simpl in Hr. by subst o.
Qed.

(** C9: the label map of the spec is never written.  A whole run of
    [apply] or [sync] leaves every map that existed before it as it was; on
    the creation path the labels are copied into a new map to which the
    marker is added, so that the spec's labels are the same before and after,
    and the project is created with the spec's labels plus the marker
    ("managed-by" in [apply], "gproj-created-at" in [sync]). *)
Theorem labels_copied_not_shared
    (E : Env) (fuel : nat) (a : args) (spec : ProjectSpec.t) (st : state) :
  live (heap st) (ProjectSpec.Labels spec) ->
  keeps st (apply E fuel a st).2 /\
  keeps st (sync E fuel a st).2 /\
  (deref (heap (createProject E fuel spec st).2) (ProjectSpec.Labels spec)
   = deref (heap st) (ProjectSpec.Labels spec) /\
   exists rest,
     issued st (createProject E fuel spec st).2
     = ProjectsCreate (ProjectSpec.Name spec) (ProjectSpec.ID spec)
         (<["managed-by" := "gproj"]> (deref (heap st) (ProjectSpec.Labels spec)))
       :: rest) /\
  (deref (heap (createProject_sync E fuel spec st).2) (ProjectSpec.Labels spec)
   = deref (heap st) (ProjectSpec.Labels spec) /\
   exists rest,
     issued st (createProject_sync E fuel spec st).2
     = ProjectsCreate (ProjectSpec.Name spec) (ProjectSpec.ID spec)
         (<["gproj-created-at" := TimeString E (now st)]>
            (deref (heap st) (ProjectSpec.Labels spec)))
       :: rest).
Proof.
  intros Hlive.
  split; [apply sat_apply_keeps|]. split; [apply sat_sync_keeps|]. split; split.
  - apply keeps_deref; [done | apply sat_createProject_keeps].
  - unfold createProject. erewrite bind_run by apply newProject_run. cbv beta.
    match goal with |- context [bind (wrapErr ?pre (ProjectsCreateDo E Background ?p)) ?k ?st1] =>
      set (m := wrapErr pre (ProjectsCreateDo E Background p));
      change (exists rest, issued st1 (bind m k st1).2 = ProjectsCreate
                (ProjectSpec.Name spec) (ProjectSpec.ID spec)
                (<["managed-by" := "gproj"]> (deref (heap st) (ProjectSpec.Labels spec)))
                :: rest);
      destruct (create_first E p k st1) as [rest Hr]; [|exists rest; subst m; rewrite Hr]
    end.
    + intros op. sat_any ltac:(exact I).
    + simpl. rewrite lookup_insert_eq. simpl. by rewrite deref_fresh.
  - apply keeps_deref; [done | apply sat_createProject_sync_keeps].
  - unfold createProject_sync. erewrite bind_run by apply newProject_sync_run. cbv beta.
    match goal with |- context [bind (wrapErr ?pre (ProjectsCreateDo E Background ?p)) ?k ?st1] =>
      set (m := wrapErr pre (ProjectsCreateDo E Background p));
      change (exists rest, issued st1 (bind m k st1).2 = ProjectsCreate
                (ProjectSpec.Name spec) (ProjectSpec.ID spec)
                (<["gproj-created-at" := TimeString E (now st)]>
                   (deref (heap st) (ProjectSpec.Labels spec)))
                :: rest);
      destruct (create_first E p k st1) as [rest Hr]; [|exists rest; subst m; rewrite Hr]
    end.
    + intros op. sat_any ltac:(exact I).
    + simpl. rewrite lookup_insert_eq. simpl. by rewrite deref_fresh.
Qed.

Lemma labels_copied_demo :
  let st' := (apply (worldEnv labelledWorld) 5 noArgs labelledStart).2 in
  heap st' !! 1%positive = Some {[ "team" := "infra" ]} /\
  exists rest,
    issued labelledStart (createProject (worldEnv labelledWorld) 5 labelledSpec labelledStart).2
    = ProjectsCreate "demo" "demo-1" {[ "team" := "infra"; "managed-by" := "gproj" ]} :: rest.
Proof.
  destruct (labels_copied_not_shared (worldEnv labelledWorld) 5 noArgs labelledSpec
              labelledStart) as (Hkeep & _ & [_ Hcreate] & _).
  { simpl. by_compute. }
  split.
  - rewrite Hkeep; [reflexivity | by_compute].
  - destruct Hcreate as [rest Hr]. exists rest. rewrite Hr. reflexivity.
Defined.

(** * Further properties *)

(** ** The pollers *)



Lemma fetched_snoc h t c : fetched (h ++ [(t, c)]) = fetched h + (if isPoll c then 1 else 0).
Proof.
  unfold fetched. rewrite List.filter_app, length_app. simpl.
  by destruct (isPoll c).
Qed.

Lemma issued_step st st1 st' t c :
  trace st1 = trace st ++ [(t, c)] ->
  (exists new, trace st' = trace st1 ++ new) ->
  issued st st' = c :: issued st1 st'.
Proof.
  intros H1 [new H']. unfold issued.
  rewrite H', drop_app_length, H1, <- app_assoc, drop_app_length. reflexivity.
Qed.

Lemma pollOperation_extends E fuel ctx svc name t st :
  exists new, trace (pollOperation E fuel ctx svc name t st).2 = trace st ++ new.
Proof.
  destruct (sat_pollOperation_issues E (fun _ => True) fuel ctx svc name t I st)
    as [(new & H & _) _].
  by exists new.
Qed.

Lemma pollOperation_after_polls (E : Env) svc name (r : error + Operation.t) (target : nat) :
  (forall h, fetched h < target ->
     exists op latency, respond E h (OperationsGet svc name) = (inr op, latency) /\
                        Operation.Done op = false /\ Operation.Error op = None) ->
  (forall h, fetched h = target -> (respond E h (OperationsGet svc name)).1 = r) ->
  settled r ->
  forall k fuel t st,
    fetched (trace st) + k = target ->
    k < fuel ->
    (pollOperation E fuel Background svc name t st).1 = settledOutcome r /\
    issued st (pollOperation E fuel Background svc name t st).2
    = replicate (S k) (OperationsGet svc name).
Proof.
  intros Hpending Hfinal Hsettled.
  induction k as [|k IH]; intros fuel t st Hk Hfuel;
    (destruct fuel as [|fuel]; [lia|]); simpl;
    unfold bind, recvTick, wrapErr, perform; simpl.
  - specialize (Hfinal (trace st) ltac:(lia)).
    destruct (respond E (trace st) (OperationsGet svc name)) as [x lat].
    simpl in Hfinal. subst x.
    destruct r as [err|op]; simpl; [split; [done | by show_issued]|].
    destruct (Operation.Error op) as [[code msg]|] eqn:He; simpl;
      [split; [done | by show_issued]|].
    destruct Hsettled as [Hs|Hs]; [by rewrite He in Hs|].
    rewrite Hs. split; [done | by show_issued].
  - destruct (Hpending (trace st) ltac:(lia)) as (op & lat & -> & Hd & He). simpl.
    rewrite He, Hd.
    match goal with |- context [pollOperation E fuel _ svc name ?t' ?st'] =>
      destruct (IH fuel t' st') as [Hr Hi];
        [simpl; rewrite fetched_snoc; simpl; lia | lia |];
      split; [done|];
      erewrite (issued_step st st'); [by rewrite Hi | reflexivity
                                      | apply pollOperation_extends]
    end.
Qed.

(** X2: a wait without deadline for an operation that the first [k]
    fetches report as running and the next fetch settles (a failed fetch, an
    operation error, or done) issues exactly [k + 1] fetches and returns what
    that last answer stands for: a failed fetch and an operation error are
    fatal, done is success. *)
Theorem wait_after_polls
    (E : Env) (svc : service) (op : Operation.t) (r : error + Operation.t)
    (k fuel : nat) (st : state) :
  Operation.Done op = false ->
  Operation.Error op = None ->
  (forall h, fetched h < fetched (trace st) + k ->
     exists op' latency,
       respond E h (OperationsGet svc (Operation.Name op)) = (inr op', latency) /\
       Operation.Done op' = false /\ Operation.Error op' = None) ->
  (forall h, fetched h = fetched (trace st) + k ->
     (respond E h (OperationsGet svc (Operation.Name op))).1 = r) ->
  settled r ->
  k < fuel ->
  (waitForOperation E fuel Background svc op st).1 = settledOutcome r /\
  issued st (waitForOperation E fuel Background svc op st).2
  = replicate (S k) (OperationsGet svc (Operation.Name op)).
Proof.
  intros Hd He Hpending Hfinal Hsettled Hfuel.
  unfold waitForOperation. rewrite He, Hd. unfold bind, NewTicker. simpl.
  by apply (pollOperation_after_polls E svc (Operation.Name op) r
              (fetched (trace st) + k) Hpending Hfinal Hsettled k fuel).
Qed.

Lemma wait_after_polls_demo :
  (waitForOperation (slowEnv 2 convergedWorld) 3 Background ServiceUsage pendingOp start).1
  = Done tt /\
  issued start
    (waitForOperation (slowEnv 2 convergedWorld) 3 Background ServiceUsage pendingOp start).2
  = replicate 3 (OperationsGet ServiceUsage "operations/1").
Proof.
  apply (wait_after_polls (slowEnv 2 convergedWorld) ServiceUsage pendingOp (inr doneOp)
           2 3 start).
  - reflexivity.
  - reflexivity.
  - intros h Hh. exists pendingOp, 100%N. simpl. unfold slowRespond.
    rewrite (proj2 (Nat.ltb_lt _ _)) by exact Hh. done.
  - intros h Hh. simpl. unfold slowRespond.
    rewrite (proj2 (Nat.ltb_ge _ _)) by (simpl in Hh; lia). done.
  - simpl. by right.
  - lia.
Defined.

Lemma pollOperation_paced (E : Env) fuel ctx svc name t st :
  period t = 400%N ->
  exists new,
    trace (pollOperation E fuel ctx svc name t st).2 = trace st ++ new /\
    forall i tm c, new !! i = Some (tm, c) ->
                   (next t + 400 * N.of_nat i <= tm)%N /\ c = OperationsGet svc name.
Proof.
  revert t st. induction fuel as [|fuel IH]; intros t st Hp; simpl.
  { exists []. split; [by rewrite app_nil_r | done]. }
  unfold bind, recvTick, wrapErr, perform. simpl.
  destruct (expired ctx (N.max (now st) (next t))).
  { exists []. split; [by rewrite app_nil_r | done]. }
  destruct (respond E (trace st) (OperationsGet svc name)) as [r lat]. simpl.
  assert (Hone : forall i tm c,
             [(N.max (now st) (next t), OperationsGet svc name)] !! i = Some (tm, c) ->
             (next t + 400 * N.of_nat i <= tm)%N /\ c = OperationsGet svc name).
  { intros [|i] tm c; simpl; [|done]. intros [= <- <-]. split; [lia | done]. }
  destruct (expired ctx _); [by eexists|].
  destruct r as [err|op]; simpl; [by eexists|].
  destruct (Operation.Error op) as [[code msg]|]; [by eexists|].
  destruct (Operation.Done op); [by eexists|].
  match goal with |- context [pollOperation E fuel ctx svc name ?t' ?st'] =>
    destruct (IH t' st' Hp) as (new & Ht & Hnew) end.
  simpl in Ht, Hnew. rewrite Hp in Hnew.
  eexists. split; [rewrite Ht, <- app_assoc; reflexivity|].
  intros [|i] tm c; simpl.
  - intros [= <- <-]. split; [lia | done].
  - intros Hi. destruct (Hnew i tm c Hi) as [Hle ->]. split; [|done].
    revert Hle. generalize ((N.max (now st) (next t) - next t) / 400)%N. lia.
Qed.

(** X3: the pollers never fetch faster than their ticker: whatever the
    environment answers and however long the fetches take, the [i]-th fetch of
    a wait is issued at least [400 * i] ms after the wait began, and every
    call of a wait is a fetch of the operation waited for. *)
Theorem wait_paced
    (E : Env) (fuel : nat) (ctx : context) (svc : service) (op : Operation.t) (st : state)
    (i : nat) (tm : N) (c : call) :
  drop (length (trace st)) (trace (waitForOperation E fuel ctx svc op st).2) !! i
  = Some (tm, c) ->
  (now st + 400 * N.of_nat (S i) <= tm)%N /\ c = OperationsGet svc (Operation.Name op).
Proof.
  unfold waitForOperation.
  destruct (Operation.Error op) as [[code msg]|];
    [simpl; by rewrite drop_all|].
  destruct (Operation.Done op); [simpl; by rewrite drop_all|].
  unfold bind, NewTicker. simpl.
  match goal with |- context [pollOperation E fuel ctx svc ?n ?t' st] =>
    destruct (pollOperation_paced E fuel ctx svc n t' st eq_refl) as (new & Ht & Hnew) end.
  rewrite Ht, drop_app_length. intros Hi.
  destruct (Hnew i tm c Hi) as [Hle ->]. simpl in Hle. split; [lia | done].
Qed.

Lemma wait_paced_demo :
  (0 + 400 * N.of_nat 3 <= 1200)%N /\
  OperationsGet ServiceUsage "operations/1" = OperationsGet ServiceUsage "operations/1".
Proof.
  apply (wait_paced (slowEnv 5 convergedWorld) 4 Background ServiceUsage pendingOp start
           2 1200%N (OperationsGet ServiceUsage "operations/1")).
  by vm_compute.
Defined.

(** ** Finding the spec file *)

Lemma searchUp_found IsRegular Dir JoinPath gprojFile steps path x :
  searchUp IsRegular Dir JoinPath gprojFile steps path = inr x <->
  exists k, k < steps /\
    x = JoinPath [ancestor Dir k path; gprojFile] /\
    IsRegular x = true /\
    forall j, j < k ->
      IsRegular (JoinPath [ancestor Dir j path; gprojFile]) = false /\
      Dir (ancestor Dir j path) <> ancestor Dir j path.
Proof.
  revert path. induction steps as [|steps IH]; intros path; simpl.
  { split; [discriminate | intros (k & Hk & _); lia]. }
  destruct (IsRegular (JoinPath [path; gprojFile])) eqn:Hreg.
  - split.
    + intros [= <-]. exists 0. split_and!; [lia | done | done | intros j Hj; lia].
    + intros (k & Hk & -> & Hx & Hbefore).
      destruct k as [|k]; [done|].
      destruct (Hbefore 0 ltac:(lia)) as [H0 _]. simpl in H0. congruence.
  - destruct (decide (Dir path = path)) as [Hroot|Hroot].
    + split; [discriminate|].
      intros (k & Hk & -> & Hx & Hbefore).
      destruct k as [|k]; [simpl in Hx; congruence|].
      by destruct (Hbefore 0 ltac:(lia)) as [_ H0].
    + rewrite IH. split.
      * intros (k & Hk & -> & Hx & Hbefore). exists (S k).
        split_and!; [lia | done | done |].
        intros [|j] Hj; simpl; [done | apply Hbefore; lia].
      * intros (k & Hk & -> & Hx & Hbefore).
        destruct k as [|k]; [simpl in Hx; congruence|].
        exists k. split_and!; [lia | done | done |].
        intros j Hj. apply (Hbefore (S j)). lia.
Qed.

Lemma searchUp_root IsRegular Dir JoinPath gprojFile steps path k :
  k < steps ->
  Dir (ancestor Dir k path) = ancestor Dir k path ->
  (forall j, j <= k -> IsRegular (JoinPath [ancestor Dir j path; gprojFile]) = false) ->
  (forall j, j < k -> Dir (ancestor Dir j path) <> ancestor Dir j path) ->
  searchUp IsRegular Dir JoinPath gprojFile steps path = inl (specNotFound gprojFile).
Proof.
  revert path k. induction steps as [|steps IH]; intros path k Hk Hroot Hnone Hup; [lia|].
  simpl. pose proof (Hnone 0 ltac:(lia)) as H0. simpl in H0. rewrite H0.
  destruct k as [|k].
  - simpl in Hroot. by rewrite decide_True.
  - rewrite decide_False by apply (Hup 0 ltac:(lia)).
    apply (IH (Dir path) k); [lia | done | |].
    + intros j Hj. apply (Hnone (S j)). lia.
    + intros j Hj. apply (Hup (S j)). lia.
Qed.

Lemma searchUp_too_deep IsRegular Dir JoinPath gprojFile steps path :
  (forall j, j < steps ->
     IsRegular (JoinPath [ancestor Dir j path; gprojFile]) = false /\
     Dir (ancestor Dir j path) <> ancestor Dir j path) ->
  searchUp IsRegular Dir JoinPath gprojFile steps path
  = inl (ErrorString "took more than 100 steps up parent hierarchy").
Proof.
  revert path. induction steps as [|steps IH]; intros path H; [done|].
  simpl. destruct (H 0 ltac:(lia)) as [H0 Hup]. simpl in H0, Hup.
  rewrite H0, decide_False by done. apply IH.
  intros j Hj. apply (H (S j)). lia.
Qed.

(** X4: [findProjectSpec] returns the spec file of the nearest directory
    that has one, looking at the working directory and at most 99 directories
    above it: it returns a path exactly when one of these directories holds a
    regular file of that name and no directory below it does; it reports that
    no file was found when it reaches the root first, and gives up with another
    error when 100 directories have neither the file nor are the root, even if
    a directory further up has the file. *)
Theorem findProjectSpec_nearest
    (Getwd : error + string) (IsRegular : string -> bool) (Dir : string -> string)
    (JoinPath : list string -> string) (gprojFile cwd : string) :
  Getwd = inr cwd ->
  (forall x,
     findProjectSpec Getwd IsRegular Dir JoinPath gprojFile = inr x <->
     exists k, k < 100 /\
       x = JoinPath [ancestor Dir k cwd; gprojFile] /\
       IsRegular x = true /\
       forall j, j < k ->
         IsRegular (JoinPath [ancestor Dir j cwd; gprojFile]) = false /\
         Dir (ancestor Dir j cwd) <> ancestor Dir j cwd) /\
  (forall k, k < 100 ->
     Dir (ancestor Dir k cwd) = ancestor Dir k cwd ->
     (forall j, j <= k -> IsRegular (JoinPath [ancestor Dir j cwd; gprojFile]) = false) ->
     (forall j, j < k -> Dir (ancestor Dir j cwd) <> ancestor Dir j cwd) ->
     findProjectSpec Getwd IsRegular Dir JoinPath gprojFile = inl (specNotFound gprojFile)) /\
  ((forall j, j < 100 ->
      IsRegular (JoinPath [ancestor Dir j cwd; gprojFile]) = false /\
      Dir (ancestor Dir j cwd) <> ancestor Dir j cwd) ->
   findProjectSpec Getwd IsRegular Dir JoinPath gprojFile
   = inl (ErrorString "took more than 100 steps up parent hierarchy")).
Proof.
  intros ->. unfold findProjectSpec. split; [|split].
  - intros x. apply searchUp_found.
  - intros k. apply searchUp_root.
  - apply searchUp_too_deep.
Qed.

Lemma findProjectSpec_demo :
  findProjectSpec (inr "/work/src") demoIsRegular demoDir joinPath "googlecloudproject.yaml"
  = inr "/work/googlecloudproject.yaml" /\
  findProjectSpec (inr "/work/src") demoIsRegular demoDir joinPath ".gproj"
  = inl (ErrorString ".gproj file not found").
Proof.
  destruct (findProjectSpec_nearest (inr "/work/src") demoIsRegular demoDir joinPath
              "googlecloudproject.yaml" "/work/src" eq_refl) as (Hfound & _ & _).
  destruct (findProjectSpec_nearest (inr "/work/src") demoIsRegular demoDir joinPath
              ".gproj" "/work/src" eq_refl) as (_ & Hroot & _).
  split.
  - apply Hfound. exists 1. split_and!; [lia | reflexivity | reflexivity |].
    intros [|j] Hj; [|lia]. split; [reflexivity | by vm_compute].
  - apply (Hroot 2); [lia | reflexivity | |].
    + intros [|[|[|j]]] Hj; try lia; reflexivity.
    + intros [|[|j]] Hj; try lia; by vm_compute.
Defined.

(** ** The arguments of gcloud *)

Lemma hasProjectArg_injected (id : string) (Args : list string) :
  hasProjectArg (("--project=" +:+ id) :: Args) = true.
Proof. reflexivity. Qed.

Section Gcloud.

Variable E : Env.

Ltac local_call := reflexivity.

Lemma sat_gcloudArgs_sync a Args :
  sat (issues (fun c => isRemote c = false))
    (fun res => hasProjectArg res = true /\
                (hasProjectArg Args = true -> res = Args) /\
                (hasProjectArg Args = false ->
                 exists id, res = ("--project=" +:+ id) :: Args))
    (gcloudArgs_sync E a Args).
Proof.
  unfold gcloudArgs_sync, readProjectSpec_sync.
  apply sat_bind_any; pre; [sat_any local_call|]. intros spec.
  destruct (hasProjectArg Args) eqn:Hhas; simpl; apply sat_ret; pre.
  - by split_and!.
  - split_and!; [done | done | by eexists].
Qed.

Lemma sat_gcloudArgs a Args :
  sat (issues (fun c => isRemote c = false))
    (fun res => (hasProjectArg Args = true -> res = Args) /\
                (res = Args \/
                 hasProjectArg Args = false /\
                 exists id, res = ("--project=" +:+ id) :: Args))
    (gcloudArgs E a Args).
Proof.
  unfold gcloudArgs, readProjectSpec.
  apply sat_bind_any; pre; [sat_any local_call|]. intros r.
  apply sat_bind_any; pre; [sat_any local_call|].
  intros [spec|]; [|apply sat_ret; pre; by split; [|left]].
  destruct (hasProjectArg Args) eqn:Hhas; simpl; apply sat_ret; pre.
  - by split; [|left].
  - split; [done|]. right. split; [done | by eexists].
Qed.

End Gcloud.

(** X5: whatever the spec file and the arguments, the arguments that
    [gcloud] hands to the gcloud binary are the user's arguments, whole and
    in order, with at most one [--project=...] argument put in front; nothing
    is put in front when an argument of the user starts with [--project]; and
    getting there takes no call to a remote service.  In the older file a
    successful run always ends with a [--project] argument present. *)
Theorem gcloud_keeps_arguments
    (E : Env) (a : args) (Args res : list string) (st : state) :
  ((gcloudArgs E a Args st).1 = Done res ->
     (hasProjectArg Args = true -> res = Args) /\
     (res = Args \/
      hasProjectArg Args = false /\ exists id, res = ("--project=" +:+ id) :: Args)) /\
  ((gcloudArgs_sync E a Args st).1 = Done res ->
     hasProjectArg res = true /\
     (hasProjectArg Args = true -> res = Args) /\
     (hasProjectArg Args = false -> exists id, res = ("--project=" +:+ id) :: Args)) /\
  Forall (fun c => isRemote c = false) (issued st (gcloudArgs E a Args st).2) /\
  Forall (fun c => isRemote c = false) (issued st (gcloudArgs_sync E a Args st).2).
Proof.
  destruct (sat_gcloudArgs E a Args st) as [Hi Hq].
  destruct (sat_gcloudArgs_sync E a Args st) as [Hi' Hq'].
  split_and!; [apply Hq | apply Hq' | by apply issues_issued | by apply issues_issued].
Qed.

Lemma gcloud_keeps_arguments_demo :
  (hasProjectArg ["compute"; "instances"; "list"] = false /\
   exists id, ["--project=demo-1"; "compute"; "instances"; "list"]
              = ("--project=" +:+ id) :: ["compute"; "instances"; "list"]) /\
  hasProjectArg ["--project=demo-1"; "compute"; "instances"; "list"] = true.
Proof.
  split.
  - destruct (proj1 (gcloud_keeps_arguments (worldEnv convergedWorld) noArgs
                       ["compute"; "instances"; "list"]
                       ["--project=demo-1"; "compute"; "instances"; "list"] start)
                eq_refl) as [_ [H|H]]; [discriminate | exact H].
  - apply (proj1 (proj2 (gcloud_keeps_arguments (worldEnv convergedWorld) noArgs
                           ["compute"; "instances"; "list"]
                           ["--project=demo-1"; "compute"; "instances"; "list"] start))
             eq_refl).
Defined.

Lemma errorsIs_Wrapped prefix err msg :
  errorsIs (Wrapped prefix err) (ErrorString msg) = errorsIs err (ErrorString msg).
Proof. by cbn [errorsIs]; rewrite bool_decide_eq_false_2. Qed.

(** X6: when no spec path is given and the search for the spec file fails,
    the older [gcloud] fails with that error wrapped, whatever it is; the
    newer one goes on with the user's arguments unchanged when the error is
    [ErrSpecNotFound], and fails with the error wrapped otherwise. *)
Theorem gcloud_without_spec_file
    (E : Env) (a : args) (Args : list string) (err : error) (st : state) :
  Spec a = EmptyString ->
  (forall h, (respond E h FindProjectSpec).1 = inl err) ->
  (gcloudArgs_sync E a Args st).1 = Fail (Wrapped "error finding project spec" err) /\
  (gcloudArgs E a Args st).1
  = (if errorsIs err ErrSpecNotFound then Done Args
     else Fail (Wrapped "error finding project specification" err)) /\
  issued st (gcloudArgs E a Args st).2 = [FindProjectSpec].
Proof.
  intros Ha Hfind.
  unfold gcloudArgs_sync, gcloudArgs, readProjectSpec_sync, readProjectSpec.
  rewrite Ha. simpl. unfold bind, catch, wrapErr, perform. simpl.
  specialize (Hfind (trace st)).
  destruct (respond E (trace st) FindProjectSpec) as [x lat]. simpl in Hfind. subst x.
  split; [done|].
  unfold ErrSpecNotFound, specNotFound. rewrite !errorsIs_Wrapped.
  destruct (errorsIs err _); split; try done; by show_issued.
Qed.

Lemma gcloud_without_spec_file_demo :
  (gcloudArgs_sync (noSpecEnv convergedWorld) noArgs ["info"] start).1
  = Fail (Wrapped "error finding project spec" ErrSpecNotFound) /\
  (gcloudArgs (noSpecEnv convergedWorld) noArgs ["info"] start).1 = Done ["info"] /\
  issued start (gcloudArgs (noSpecEnv convergedWorld) noArgs ["info"] start).2
  = [FindProjectSpec].
Proof.
  apply (gcloud_without_spec_file (noSpecEnv convergedWorld) noArgs ["info"]
           ErrSpecNotFound start).
  - reflexivity.
  - intros h. reflexivity.
Defined.

(** ** Listing the available services *)










Section Available.

Variables (E : Env) (spec : ProjectSpec.t).

Hypothesis Hspec : forall path, answers E (YamlDecode path) spec.
Hypothesis Hget :
  forall h, exists err, (respond E h (ProjectsGet (ProjectSpec.ID spec))).1 = inl err.

Lemma catch_perform_fails st :
  exists err, (catch (perform E Background (ProjectsGet (ProjectSpec.ID spec))) st).1
              = Done (inl err).
Proof.
  unfold catch, perform. simpl. destruct (Hget (trace st)) as [err He].
  destruct (respond E (trace st) (ProjectsGet (ProjectSpec.ID spec))) as [x lat].
  simpl in He. subst x. by exists err.
Qed.

Lemma sat_catch_fails (P : call -> Prop) :
  P (ProjectsGet (ProjectSpec.ID spec)) ->
  sat (issues P) (fun r => exists err, r = inl err)
    (catch (perform E Background (ProjectsGet (ProjectSpec.ID spec)))).
Proof.
  intros HP st.
  destruct (sat_catch_any (issues P) _
              (sat_perform E P Background (ProjectsGet (ProjectSpec.ID spec)) HP) st)
    as [HR _].
  split; [done|]. intros r Hr. destruct (catch_perform_fails st) as [err He].
  exists err. congruence.
Qed.

Lemma sat_available_not_created fuel a All Description :
  sat (issues (fun c => isRemote c = true -> c = ProjectsGet (ProjectSpec.ID spec)))
    (fun _ => False) (available E fuel a All Description).
Proof.
  unfold available.
  eapply sat_bind; pre; [apply sat_readProjectSpec; [exact Hspec | by intros c ->]|].
  intros ? ->.
  apply sat_bind_any; pre; [sat_any ltac:(by idtac)|]. intros _.
  eapply sat_bind; pre; [by apply sat_catch_fails|].
  intros r [err ->]. apply sat_fail; pre.
Qed.

End Available.

(** X8: when the project cannot be fetched, for whatever reason, [available]
    stops there: it never succeeds, and apart from that one fetch it reaches
    no remote service; once the fetch has been made, the error is
    the fixed "cannot list the available APIs before the project has been
    created" message, the cause is dropped. *)
Theorem available_needs_project
    (E : Env) (spec : ProjectSpec.t) (fuel : nat) (a : args) (All Description : bool)
    (st : state) :
  (forall path, answers E (YamlDecode path) spec) ->
  (forall h, exists err, (respond E h (ProjectsGet (ProjectSpec.ID spec))).1 = inl err) ->
  Forall (fun c => isRemote c = true -> c = ProjectsGet (ProjectSpec.ID spec))
    (issued st (available E fuel a All Description st).2) /\
  (forall lines, (available E fuel a All Description st).1 <> Done lines) /\
  (ProjectsGet (ProjectSpec.ID spec) ∈ issued st (available E fuel a All Description st).2 ->
   (available E fuel a All Description st).1 = Fail notCreatedYet).
Proof.
  intros Hspec Hget.
  destruct (sat_available_not_created E spec Hspec Hget fuel a All Description st)
    as [Hi Hq].
  split_and!; [by apply issues_issued | intros lines Hl; by apply (Hq lines) |].
  unfold available, readProjectSpec, bind, catch, wrapErr, perform. simpl.
  destruct (decide (Spec a = "")); simpl.
  - destruct (respond E (trace st) FindProjectSpec) as [[?|path] ?]; simpl;
      [show_issued; intros Hin%list_elem_of_In; simpl in Hin; intuition discriminate|].
    match goal with |- context [respond E ?h (OsOpen path)] =>
      destruct (respond E h (OsOpen path)) as [[?|[]] ?]; simpl end;
      [show_issued; intros Hin%list_elem_of_In; simpl in Hin; intuition discriminate|].
    match goal with |- context [respond E ?h (YamlDecode path)] =>
      pose proof (Hspec path h) as Hy;
      destruct (respond E h (YamlDecode path)) as [y ?]; simpl in Hy; subst y; simpl end.
    match goal with |- context [respond E ?h (NewService ?s ?c)] =>
      destruct (respond E h (NewService s c)) as [[?|[]] ?]; simpl end;
      [show_issued; intros Hin%list_elem_of_In; simpl in Hin; intuition discriminate|].
    match goal with |- context [respond E ?h (ProjectsGet ?i)] =>
      destruct (Hget h) as [err He];
      destruct (respond E h (ProjectsGet i)) as [g ?]; simpl in He; subst g; simpl end.
    done.
  - match goal with |- context [respond E ?h (OsOpen ?path)] =>
      destruct (respond E h (OsOpen path)) as [[?|[]] ?]; simpl end;
      [show_issued; intros Hin%list_elem_of_In; simpl in Hin; intuition discriminate|].
    match goal with |- context [respond E ?h (YamlDecode ?path)] =>
      pose proof (Hspec path h) as Hy;
      destruct (respond E h (YamlDecode path)) as [y ?]; simpl in Hy; subst y; simpl end.
    match goal with |- context [respond E ?h (NewService ?s ?c)] =>
      destruct (respond E h (NewService s c)) as [[?|[]] ?]; simpl end;
      [show_issued; intros Hin%list_elem_of_In; simpl in Hin; intuition discriminate|].
    match goal with |- context [respond E ?h (ProjectsGet ?i)] =>
      destruct (Hget h) as [err He];
      destruct (respond E h (ProjectsGet i)) as [g ?]; simpl in He; subst g; simpl end.
    done.
Qed.

Lemma available_needs_project_demo :
  (available (brokenEnv (GoogleapiError 500 "backend error") convergedWorld)
     5 noArgs false false start).1
  = Fail notCreatedYet.
Proof.
  apply (available_needs_project (brokenEnv (GoogleapiError 500 "backend error") convergedWorld)
           demoSpec 5 noArgs false false start).
  - intros path h. reflexivity.
  - intros h. eexists. reflexivity.
  - apply list_elem_of_In. vm_compute. auto 10.
Defined.

(** ** The live catalog *)

Lemma index_char (c : ascii) (s : string) :
  match String.index 0 (String c EmptyString) s with
  | None => c ∉ String.list_ascii_of_string s
  | Some n =>
      exists rest, s = String.substring 0 n s +:+ String c rest /\
                   c ∉ String.list_ascii_of_string (String.substring 0 n s)
  end.
Proof.
  induction s as [|a s IH]; simpl.
  - apply not_elem_of_nil.
  - destruct (Ascii.ascii_dec c a) as [->|Hne].
    + replace (String.prefix EmptyString s) with true by by destruct s.
      exists s. split; [done | apply not_elem_of_nil].
    + destruct (String.index 0 (String c EmptyString) s) as [n|].
      * destruct IH as (rest & Hs & Hpre). exists rest. simpl. split.
        -- exact (f_equal (String a) Hs).
        -- apply not_elem_of_cons. by split.
      * apply not_elem_of_cons. by split.
Qed.

(** X9: [firstLine] returns the text before the first newline: a prefix of
    its argument that holds no newline and is followed, in the argument, by
    nothing or by a newline; so the summary of every catalog entry built from
    a listed service is a single line. *)
Theorem firstLine_single_line (s : string) (svc : Service.t) :
  (newline ∉ String.list_ascii_of_string (firstLine s)) /\
  (exists rest, s = (firstLine s +:+ rest) /\
                (rest = EmptyString \/ exists rest', rest = String newline rest')) /\
  newline ∉ String.list_ascii_of_string (api.Summary (apiOfService svc)).
Proof.
  assert (H : forall s, (newline ∉ String.list_ascii_of_string (firstLine s)) /\
                        exists rest, s = (firstLine s +:+ rest) /\
                          (rest = EmptyString \/ exists rest', rest = String newline rest')).
  { clear. intros s. unfold firstLine, nl. fold newline.
    pose proof (index_char newline s) as Hi.
    destruct (String.index 0 (String newline EmptyString) s) as [n|].
    - destruct Hi as (rest & Hs & Hpre). split; [done|].
      exists (String newline rest). split; [done | right; by eexists].
    - split; [done|]. exists EmptyString. split; [|by left].
      clear. induction s as [|a s IH]; [done | exact (f_equal (String a) IH)]. }
  split; [apply H|]. split; [apply H|].
  unfold apiOfService. simpl.
  destruct (Service.Documentation svc); [apply H | apply not_elem_of_nil].
Qed.

Lemma ltb_irrefl (a : string) : String.ltb a a = false.
Proof.
  unfold String.ltb. destruct (String.compare a a) eqn:H; try done.
  exfalso. eapply (@StrictOrder_Irreflexive _ _ String_as_OT.lt_strorder a). exact H.
Qed.

Lemma ltb_asym (a b : string) : String.ltb a b = true -> String.ltb b a = false.
Proof.
  unfold String.ltb.
  destruct (String.compare a b) eqn:H1; try done.
  destruct (String.compare b a) eqn:H2; try done. intros _.
  exfalso. eapply (@StrictOrder_Irreflexive _ _ String_as_OT.lt_strorder a).
  eapply (@StrictOrder_Transitive _ _ String_as_OT.lt_strorder); [exact H1 | exact H2].
Qed.

Lemma ltb_trans (a b c : string) :
  String.ltb a b = true -> String.ltb b c = true -> String.ltb a c = true.
Proof.
  unfold String.ltb.
  destruct (String.compare a b) eqn:H1; try done.
  destruct (String.compare b c) eqn:H2; try done. intros _ _.
  pose proof (@StrictOrder_Transitive _ _ String_as_OT.lt_strorder a b c H1 H2) as H.
  unfold String_as_OT.lt in H.
  change (String_as_OT.compare a c) with (String.compare a c) in H. by rewrite H.
Qed.

Lemma ltb_total (a b : string) :
  String.ltb a b = false -> String.ltb b a = false -> a = b.
Proof.
  unfold String.ltb.
  destruct (String_as_OT.compare_spec a b) as [H|H|H].
  - done.
  - unfold String_as_OT.lt in H.
    change (String_as_OT.compare a b) with (String.compare a b) in H. by rewrite H.
  - unfold String_as_OT.lt in H.
    change (String_as_OT.compare b a) with (String.compare b a) in H. rewrite H.
    by intros _.
Qed.

Lemma nameLe_trans (a b c : api.t) : nameLe a b -> nameLe b c -> nameLe a c.
Proof.
  unfold nameLe. intros Hab Hbc.
  destruct (String.ltb (api.Name c) (api.Name a)) eqn:Hca; [|done].
  destruct (String.ltb (api.Name a) (api.Name b)) eqn:Hab'.
  - by rewrite (ltb_trans _ _ _ Hca Hab') in Hbc.
  - rewrite (ltb_total _ _ Hab' Hab) in Hca. congruence.
Qed.

Lemma insertByName_perm (a : api.t) (l : list api.t) : insertByName a l ≡ₚ a :: l.
Proof.
  induction l as [|b l IH]; simpl; [done|].
  destruct (String.ltb (api.Name a) (api.Name b)); [done|].
  by rewrite IH, perm_swap.
Qed.

Lemma insertByName_sorted (a : api.t) (l : list api.t) :
  StronglySorted nameLe l -> StronglySorted nameLe (insertByName a l).
Proof.
  induction 1 as [|b l Hl IH Hb]; simpl.
  - by repeat constructor.
  - destruct (String.ltb (api.Name a) (api.Name b)) eqn:Hab.
    + apply SSorted_cons; [by constructor|].
      assert (Hle : nameLe a b) by by apply ltb_asym.
      constructor; [done|].
      eapply Forall_impl; [exact Hb|]. intros c Hc. by eapply nameLe_trans.
    + apply SSorted_cons; [done|].
      rewrite insertByName_perm. by constructor.
Qed.

(** X10: the entries that [pullAvailableAPIs] sorts come out sorted by name,
    ascending, and are the entries that went in, each as often as before. *)
Theorem sortByName_sorted (l : list api.t) :
  StronglySorted nameLe (sortByName l) /\ sortByName l ≡ₚ l.
Proof.
  unfold sortByName.
  assert (H : forall acc, StronglySorted nameLe acc ->
                StronglySorted nameLe (foldl (fun sorted a => insertByName a sorted) acc l) /\
                foldl (fun sorted a => insertByName a sorted) acc l ≡ₚ acc ++ l).
  { induction l as [|a l IH]; intros acc Hacc; simpl.
    - by rewrite app_nil_r.
    - destruct (IH (insertByName a acc) (insertByName_sorted a acc Hacc)) as [Hs Hp].
      split; [done|]. rewrite Hp, insertByName_perm.
      by rewrite <- Permutation_middle. }
  apply (H []). constructor.
Qed.

Lemma sat_listPages_issues E (P : call -> Prop) fuel projNum tok apis :
  (forall t, P (ServicesList projNum t)) ->
  sat (issues P) (fun _ => True) (listPages E fuel projNum tok apis).
Proof.
  intros HP. revert tok apis. induction fuel as [|fuel IH]; intros tok apis; simpl.
  - sat_end.
  - apply sat_bind_any; pre; [by apply (sat_perform E P Background (ServicesList projNum tok))|].
    intros r. destruct (decide _); [sat_end | apply IH].
Qed.

Lemma listPages_follows E projNum pages :
  forall tok fuel apis st,
    pagesFrom E projNum tok pages ->
    length pages <= fuel ->
    (listPages E fuel projNum tok apis st).1 = Done (apis ++ pageEntries pages) /\
    issued st (listPages E fuel projNum tok apis st).2
    = (ServicesList projNum <$> pageTokens tok pages).
Proof.
  induction pages as [|r rest IH]; intros tok fuel apis st Hp Hfuel; [done|].
  destruct fuel as [|fuel]; [simpl in Hfuel; lia|].
  destruct Hp as [Hr Hrest]. simpl.
  unfold bind, perform. simpl. specialize (Hr (trace st)).
  destruct (respond E (trace st) (ServicesList projNum tok)) as [x lat].
  simpl in Hr. subst x. simpl.
  destruct rest as [|r' rest].
  - rewrite Hrest, decide_True by done. unfold pageEntries. simpl.
    rewrite app_nil_r. split; [done | by show_issued].
  - destruct Hrest as [Hne Hrest]. rewrite decide_False by done.
    assert (Hfuel' : length (r' :: rest) <= fuel) by (simpl in *; lia).
    match goal with |- context [listPages E fuel projNum ?tok' ?apis' ?st'] =>
      destruct (IH tok' fuel apis' st' Hrest Hfuel') as [Hres Hi];
      destruct (sat_listPages_issues E (fun _ => True) fuel projNum tok' apis'
                  (fun _ => I) st') as [(new & Hnew & _) _];
      pose proof (issued_step st st' _ _ _ eq_refl (ex_intro _ new Hnew)) as Hstep
    end.
    split.
    + rewrite Hres. unfold pageEntries. simpl. by rewrite <- app_assoc.
    + rewrite Hstep, Hi. reflexivity.
Qed.

(** ** The catalog cache on disk *)

Lemma perform_Background_run E c st :
  perform E Background c st
  = (match (respond E (trace st) c).1 with inl e => Fail e | inr a => Done a end,
     {| now := (now st + (respond E (trace st) c).2)%N;
        trace := trace st ++ [(now st, c)];
        heap := heap st |}).
Proof.
  unfold perform. simpl. by destruct (respond E (trace st) c) as [[e|a] lat].
Qed.

(** Steps through a call that the environment always accepts. *)
Ltac run_succeeds H :=
  rewrite perform_Background_run;
  match goal with
  | |- context [(respond _ ?h ?c).1] =>
      lazymatch type of H with
      | succeeds _ c => destruct (H h) as [[] ->]
      end
  end;
  cbv beta iota.

Lemma lastWrite_app path h h' :
  lastWrite path (h ++ h')
  = match lastWrite path h' with Some buf => Some buf | None => lastWrite path h end.
Proof.
  induction h as [|tc h IH]; simpl.
  - by destruct (lastWrite path h').
  - rewrite IH. by destruct (lastWrite path h').
Qed.

Lemma issues_new P st st' :
  issues P st st' -> exists new, trace st' = trace st ++ new /\ new.*2 = issued st st'.
Proof.
  intros (new & Ht & _). exists new. split; [done|].
  unfold issued. by rewrite Ht, drop_app_length.
Qed.

Lemma sat_pullAvailableAPIs_issues E (P : call -> Prop) fuel projectNumber :
  P (NewService ServiceUsage None) ->
  (forall t, P (ServicesList (formatProjectNumber projectNumber) t)) ->
  sat (issues P) (fun _ => True) (pullAvailableAPIs E fuel projectNumber).
Proof.
  intros Hnew Hlist. unfold pullAvailableAPIs.
  apply sat_bind_any; pre.
  { apply sat_wrapErr; pre.
    by apply (sat_perform E P Background (NewService ServiceUsage None)). }
  intros _. apply sat_bind_any; pre; [|intros; sat_end].
  apply sat_wrapErr; pre. by apply sat_listPages_issues.
Qed.

Lemma cacheDir_run E projectNumber dir st :
  answers E UserCacheDir dir ->
  succeeds E (MkdirAll (Join E [dir; "gproj"; pretty projectNumber])) ->
  exists st1 t1 t2,
    cacheDir E projectNumber st = (Done (Join E [dir; "gproj"; pretty projectNumber]), st1) /\
    trace st1 = trace st ++ [(t1, UserCacheDir);
                             (t2, MkdirAll (Join E [dir; "gproj"; pretty projectNumber]))].
Proof.
  intros Hdir Hmk. unfold cacheDir, bind, wrapErr.
  rewrite perform_Background_run, Hdir. cbv beta iota.
  run_succeeds Hmk.
  eexists _, _, _. split; [reflexivity|]. simpl. by rewrite <- app_assoc.
Qed.

Section CacheOnDisk.

Variables (E : Env) (fuel : nat) (projectNumber : Z) (dir : string).

Let cachePath := cachePathOf E dir projectNumber.

Hypothesis Hdir : answers E UserCacheDir dir.
Hypothesis Hmk : succeeds E (MkdirAll (Join E [dir; "gproj"; pretty projectNumber])).
Hypothesis Hdisk : keepsFile E cachePath.

Lemma availableAPIs_hit_run buf apis st :
  lastWrite cachePath (trace st) = Some buf ->
  Unmarshal E buf = inr apis ->
  (availableAPIs E fuel projectNumber st).1 = Done apis /\
  issued st (availableAPIs E fuel projectNumber st).2
  = [UserCacheDir; MkdirAll (Join E [dir; "gproj"; pretty projectNumber]);
     ReadFile cachePath].
Proof.
  intros Hlast Hdec.
  destruct (cacheDir_run E projectNumber dir st Hdir Hmk) as (st1 & t1 & t2 & Hrun & Ht).
  unfold availableAPIs, bind, catch. rewrite Hrun. simpl.
  fold (cachePathOf E dir projectNumber). fold cachePath.
  rewrite perform_Background_run.
  assert (Hlast1 : lastWrite cachePath (trace st1) = Some buf).
  { rewrite Ht, lastWrite_app. simpl. exact Hlast. }
  pose proof (Hdisk (trace st1)) as Hread. rewrite Hlast1 in Hread.
  rewrite Hread. simpl. rewrite Hdec. simpl.
  split; [done|]. unfold issued. simpl. rewrite Ht, <- app_assoc, drop_app_length.
  reflexivity.
Qed.

Hypothesis Hnew : succeeds E (NewService ServiceUsage None).

Variable pages : list ListServicesResponse.t.

Hypothesis Hpages : pagesFrom E (formatProjectNumber projectNumber) EmptyString pages.
Hypothesis Hfuel : length pages <= fuel.

Lemma pullAvailableAPIs_run st :
  (pullAvailableAPIs E fuel projectNumber st).1 = Done (sortByName (pageEntries pages)) /\
  exists new,
    trace (pullAvailableAPIs E fuel projectNumber st).2 = trace st ++ new /\
    new.*2 = NewService ServiceUsage None
             :: (ServicesList (formatProjectNumber projectNumber)
                   <$> pageTokens EmptyString pages).
Proof.
  destruct (issues_new (fun _ => True) st (pullAvailableAPIs E fuel projectNumber st).2)
    as (new & Ht & Hi).
  { by apply sat_pullAvailableAPIs_issues. }
  revert Ht Hi. unfold pullAvailableAPIs, bind, wrapErr.
  run_succeeds Hnew.
  match goal with |- context [listPages E fuel ?p ?tok ?apis ?st'] =>
    destruct (listPages_follows E p pages tok fuel apis st' Hpages Hfuel) as [Hres Hi'];
    destruct (sat_listPages_issues E (fun _ => True) fuel p tok apis (fun _ => I) st')
      as [(new' & Hnew' & _) _];
    pose proof (issued_step st st' _ _ _ eq_refl (ex_intro _ new' Hnew')) as Hstep;
    destruct (listPages E fuel p tok apis st') as [o st''] eqn:Hl
  end.
  simpl in Hres, Hi', Hstep. subst o. simpl. intros Ht Hi.
  split; [done|]. exists new. split; [done|]. by rewrite Hi, Hstep, Hi'.
Qed.

Variable buf : string.

Hypothesis Henc : Marshal E (sortByName (pageEntries pages)) = inr buf.
Hypothesis Hwrite : succeeds E (WriteFile cachePath buf).

Lemma availableAPIs_miss_run st :
  lastWrite cachePath (trace st) = None ->
  (availableAPIs E fuel projectNumber st).1 = Done (sortByName (pageEntries pages)) /\
  issued st (availableAPIs E fuel projectNumber st).2
  = [UserCacheDir; MkdirAll (Join E [dir; "gproj"; pretty projectNumber]);
     ReadFile cachePath; NewService ServiceUsage None]
    ++ (ServicesList (formatProjectNumber projectNumber) <$> pageTokens EmptyString pages)
    ++ [WriteFile cachePath buf] /\
  lastWrite cachePath (trace (availableAPIs E fuel projectNumber st).2) = Some buf.
Proof.
  intros Hlast.
  destruct (cacheDir_run E projectNumber dir st Hdir Hmk) as (st1 & t1 & t2 & Hrun & Ht).
  unfold availableAPIs, bind, catch. rewrite Hrun. simpl.
  fold (cachePathOf E dir projectNumber). fold cachePath.
  rewrite perform_Background_run.
  assert (Hlast1 : lastWrite cachePath (trace st1) = None).
  { rewrite Ht, lastWrite_app. simpl. exact Hlast. }
  pose proof (Hdisk (trace st1)) as Hread. rewrite Hlast1 in Hread.
  destruct Hread as [err ->]. cbv beta iota.
  unfold pullAndStoreAvailableAPIs, bind.
  match goal with |- context [pullAvailableAPIs E fuel projectNumber ?st2] =>
    destruct (pullAvailableAPIs_run st2) as (Hres & new & Hnew' & Hcalls);
    destruct (pullAvailableAPIs E fuel projectNumber st2) as [o st3]
  end.
  simpl in Hres, Hnew'. subst o. simpl. rewrite Henc. unfold wrapErrV.
  run_succeeds Hwrite. simpl.
  rewrite Hnew', Ht. split; [done|]. split.
  - unfold issued. simpl. rewrite <- !app_assoc, drop_app_length.
    rewrite !fmap_app, Hcalls. reflexivity.
  - rewrite lastWrite_app. simpl. by rewrite decide_True.
Qed.

End CacheOnDisk.

(** X11: the live fetch follows the pagination of the listing to its end:
    it asks for the first page with the empty token and for every further page
    with the token the page before named, stops at the first page that names
    none, and returns the entries of all these pages, sorted by name. *)
Theorem pullAvailableAPIs_all_pages
    (E : Env) (fuel : nat) (projectNumber : Z) (pages : list ListServicesResponse.t)
    (st : state) :
  succeeds E (NewService ServiceUsage None) ->
  pagesFrom E (formatProjectNumber projectNumber) EmptyString pages ->
  length pages <= fuel ->
  (pullAvailableAPIs E fuel projectNumber st).1 = Done (sortByName (pageEntries pages)) /\
  issued st (pullAvailableAPIs E fuel projectNumber st).2
  = NewService ServiceUsage None
    :: (ServicesList (formatProjectNumber projectNumber) <$> pageTokens EmptyString pages).
Proof.
  intros Hnew Hpages Hfuel.
  destruct (pullAvailableAPIs_run E fuel projectNumber Hnew pages Hpages Hfuel st)
    as (Hres & new & Ht & Hcalls).
  split; [done|]. unfold issued. by rewrite Ht, drop_app_length.
Qed.

Lemma pullAvailableAPIs_all_pages_demo :
  (pullAvailableAPIs (pagedEnv convergedWorld) 2 42 start).1
  = Done (sortByName (pageEntries [firstPage; secondPage])) /\
  issued start (pullAvailableAPIs (pagedEnv convergedWorld) 2 42 start).2
  = [NewService ServiceUsage None; ServicesList "projects/42" "";
     ServicesList "projects/42" "page-2"].
Proof.
  apply (pullAvailableAPIs_all_pages (pagedEnv convergedWorld) 2 42
           [firstPage; secondPage] start).
  - intros h. by eexists.
  - split; [intros h; reflexivity|]. split; [discriminate|].
    split; [intros h; reflexivity | reflexivity].
  - simpl. lia.
Defined.

Example pullAvailableAPIs_sorted_demo :
  api.Name <$> sortByName (pageEntries [firstPage; secondPage])
  = ["compute.googleapis.com"; "storage.googleapis.com"] /\
  api.Summary <$> sortByName (pageEntries [firstPage; secondPage])
  = [EmptyString; "Stores objects."].
Proof. by vm_compute. Qed.

(** X12: with no cache document on disk, [availableAPIs] reads the listing
    live, page by page, writes its encoding to the cache path of the project
    and returns it: the calls are the three that look for the cache, the live
    fetch, and one write of the encoded listing. *)
Theorem availableAPIs_miss_fetches_and_stores
    (E : Env) (fuel : nat) (projectNumber : Z) (dir buf : string)
    (pages : list ListServicesResponse.t) (st : state) :
  answers E UserCacheDir dir ->
  succeeds E (MkdirAll (Join E [dir; "gproj"; pretty projectNumber])) ->
  keepsFile E (cachePathOf E dir projectNumber) ->
  lastWrite (cachePathOf E dir projectNumber) (trace st) = None ->
  succeeds E (NewService ServiceUsage None) ->
  pagesFrom E (formatProjectNumber projectNumber) EmptyString pages ->
  length pages <= fuel ->
  Marshal E (sortByName (pageEntries pages)) = inr buf ->
  succeeds E (WriteFile (cachePathOf E dir projectNumber) buf) ->
  (availableAPIs E fuel projectNumber st).1 = Done (sortByName (pageEntries pages)) /\
  issued st (availableAPIs E fuel projectNumber st).2
  = [UserCacheDir; MkdirAll (Join E [dir; "gproj"; pretty projectNumber]);
     ReadFile (cachePathOf E dir projectNumber); NewService ServiceUsage None]
    ++ (ServicesList (formatProjectNumber projectNumber) <$> pageTokens EmptyString pages)
    ++ [WriteFile (cachePathOf E dir projectNumber) buf].
Proof.
  intros Hdir Hmk Hdisk Hlast Hnew Hpages Hfuel Henc Hwrite.
  destruct (availableAPIs_miss_run E fuel projectNumber dir Hdir Hmk Hdisk Hnew pages
              Hpages Hfuel buf Henc Hwrite st Hlast) as (Hres & Hcalls & _).
  by split.
Qed.

Lemma availableAPIs_miss_demo :
  (availableAPIs (diskEnv convergedWorld) 2 42 start).1 = Done demoCatalog /\
  issued start (availableAPIs (diskEnv convergedWorld) 2 42 start).2
  = [UserCacheDir; MkdirAll "/home/user/.cache/gproj/42";
     ReadFile "/home/user/.cache/gproj/42/available-apis.json";
     NewService ServiceUsage None;
     ServicesList "projects/42" ""; ServicesList "projects/42" "page-2";
     WriteFile "/home/user/.cache/gproj/42/available-apis.json" "[compute,storage]"].
Proof.
  apply (availableAPIs_miss_fetches_and_stores (diskEnv convergedWorld) 2 42
           "/home/user/.cache" "[compute,storage]" [firstPage; secondPage] start).
  - intros h. reflexivity.
  - intros h. by eexists.
  - intros h. change (respond (diskEnv convergedWorld) h (ReadFile ?p))
      with (diskRespond convergedWorld h (ReadFile p)). unfold diskRespond.
    destruct (lastWrite _ h); [reflexivity | by eexists].
  - reflexivity.
  - intros h. by eexists.
  - split; [intros h; reflexivity|]. split; [discriminate|].
    split; [intros h; reflexivity | reflexivity].
  - simpl. lia.
  - reflexivity.
  - intros h. by eexists.
Defined.

(** X13: the cache round trip.  When the encoding of the listing decodes to
    the listing again and the disk keeps what is written, a second
    [availableAPIs] after a first one that found no cache returns the same
    listing as the first, from the three local calls that look for the
    cache, with no call to Google Cloud. *)
Theorem availableAPIs_round_trip
    (E : Env) (fuel : nat) (projectNumber : Z) (dir buf : string)
    (pages : list ListServicesResponse.t) (st : state) :
  answers E UserCacheDir dir ->
  succeeds E (MkdirAll (Join E [dir; "gproj"; pretty projectNumber])) ->
  keepsFile E (cachePathOf E dir projectNumber) ->
  lastWrite (cachePathOf E dir projectNumber) (trace st) = None ->
  succeeds E (NewService ServiceUsage None) ->
  pagesFrom E (formatProjectNumber projectNumber) EmptyString pages ->
  length pages <= fuel ->
  Marshal E (sortByName (pageEntries pages)) = inr buf ->
  Unmarshal E buf = inr (sortByName (pageEntries pages)) ->
  succeeds E (WriteFile (cachePathOf E dir projectNumber) buf) ->
  let first := availableAPIs E fuel projectNumber st in
  let second := availableAPIs E fuel projectNumber first.2 in
  second.1 = first.1 /\
  second.1 = Done (sortByName (pageEntries pages)) /\
  issued first.2 second.2
  = [UserCacheDir; MkdirAll (Join E [dir; "gproj"; pretty projectNumber]);
     ReadFile (cachePathOf E dir projectNumber)] /\
  Forall (fun c => isRemote c = false) (issued first.2 second.2).
Proof.
  intros Hdir Hmk Hdisk Hlast Hnew Hpages Hfuel Henc Hdec Hwrite first second.
  destruct (availableAPIs_miss_run E fuel projectNumber dir Hdir Hmk Hdisk Hnew pages
              Hpages Hfuel buf Henc Hwrite st Hlast) as (Hres & _ & Hlast').
  destruct (availableAPIs_hit_run E fuel projectNumber dir Hdir Hmk Hdisk buf _ first.2
              Hlast' Hdec) as [Hres' Hcalls].
  subst first second. rewrite Hres, Hres', Hcalls.
  split; [done|]. split; [done|]. split; [done|]. by repeat constructor.
Qed.

Lemma availableAPIs_round_trip_demo :
  let first := availableAPIs (diskEnv convergedWorld) 2 42 start in
  let second := availableAPIs (diskEnv convergedWorld) 2 42 first.2 in
  second.1 = first.1 /\
  second.1 = Done demoCatalog /\
  issued first.2 second.2
  = [UserCacheDir; MkdirAll "/home/user/.cache/gproj/42";
     ReadFile "/home/user/.cache/gproj/42/available-apis.json"] /\
  Forall (fun c => isRemote c = false) (issued first.2 second.2).
Proof.
  apply (availableAPIs_round_trip (diskEnv convergedWorld) 2 42
           "/home/user/.cache" "[compute,storage]" [firstPage; secondPage] start).
  - intros h. reflexivity.
  - intros h. by eexists.
  - intros h. change (respond (diskEnv convergedWorld) h (ReadFile ?p))
      with (diskRespond convergedWorld h (ReadFile p)). unfold diskRespond.
    destruct (lastWrite _ h); [reflexivity | by eexists].
  - reflexivity.
  - intros h. by eexists.
  - split; [intros h; reflexivity|]. split; [discriminate|].
    split; [intros h; reflexivity | reflexivity].
  - simpl. lia.
  - reflexivity.
  - reflexivity.
  - intros h. by eexists.
Defined.

Lemma issued_app st st1 st' pre :
  trace st1 = trace st ++ pre ->
  (exists new, trace st' = trace st1 ++ new) ->
  issued st st' = pre.*2 ++ issued st1 st'.
Proof.
  intros H1 [new H']. unfold issued.
  rewrite H', drop_app_length, H1, <- app_assoc, drop_app_length.
  by rewrite fmap_app.
Qed.

(** X14: when the cache directory cannot be found or cannot be created,
    [availableAPIs] is the live fetch and nothing else: after the failed call
    it runs [pullAvailableAPIs], and the whole run neither reads nor writes a
    file. *)
Theorem availableAPIs_without_cache_dir
    (E : Env) (fuel : nat) (projectNumber : Z) (st : state) :
  fails E UserCacheDir \/
  (exists dir, answers E UserCacheDir dir /\
               fails E (MkdirAll (Join E [dir; "gproj"; pretty projectNumber]))) ->
  (exists st1, availableAPIs E fuel projectNumber st
               = pullAvailableAPIs E fuel projectNumber st1) /\
  Forall (fun c => isFileAccess c = false)
         (issued st (availableAPIs E fuel projectNumber st).2).
Proof.
  assert (Hpull : forall st1 pre,
            trace st1 = trace st ++ pre ->
            Forall (fun c => isFileAccess c = false) pre.*2 ->
            Forall (fun c => isFileAccess c = false)
                   (issued st (pullAvailableAPIs E fuel projectNumber st1).2)).
  { intros st1 pre Ht Hpre.
    destruct (sat_pullAvailableAPIs_issues E (fun c => isFileAccess c = false) fuel
                projectNumber eq_refl (fun _ => eq_refl) st1) as [Hi _].
    rewrite (issued_app st st1 _ pre Ht); [|destruct Hi as (new & ? & _); by exists new].
    apply Forall_app. split; [done | by apply issues_issued]. }
  intros Hfail.
  assert (Hstep : exists st1 pre,
            availableAPIs E fuel projectNumber st
            = pullAvailableAPIs E fuel projectNumber st1 /\
            trace st1 = trace st ++ pre /\
            Forall (fun c => isFileAccess c = false) pre.*2).
  { destruct Hfail as [Hdir | (dir & Hdir & Hmk)].
    - destruct (Hdir (trace st)) as [err He].
      eexists _, [(now st, UserCacheDir)].
      unfold availableAPIs, cacheDir, bind, catch, wrapErr.
      rewrite perform_Background_run, He. cbv beta iota.
      split; [reflexivity|]. split; [reflexivity | by repeat constructor].
    - eexists _, [(now st, UserCacheDir);
                  ((now st + (respond E (trace st) UserCacheDir).2)%N,
                   MkdirAll (Join E [dir; "gproj"; pretty projectNumber]))].
      unfold availableAPIs, cacheDir, bind, catch, wrapErr.
      rewrite perform_Background_run, Hdir. cbv beta iota.
      rewrite perform_Background_run.
      match goal with |- context [(respond _ ?h (MkdirAll ?p)).1] =>
        destruct (Hmk h) as [err ->]
      end.
      cbv beta iota. split; [reflexivity|]. simpl.
      split; [by rewrite <- app_assoc | by repeat constructor]. }
  destruct Hstep as (st1 & pre & Heq & Ht & Hpre).
  split; [by exists st1|]. rewrite Heq. by apply (Hpull st1 pre).
Qed.

Lemma availableAPIs_without_cache_dir_demo :
  (exists st1, availableAPIs (homelessEnv convergedWorld) 2 42 start
               = pullAvailableAPIs (homelessEnv convergedWorld) 2 42 st1) /\
  Forall (fun c => isFileAccess c = false)
         (issued start (availableAPIs (homelessEnv convergedWorld) 2 42 start).2).
Proof.
  apply (availableAPIs_without_cache_dir (homelessEnv convergedWorld) 2 42 start).
  left. intros h. by eexists.
Defined.

(** X15: a listing that has been fetched but cannot be stored is not
    returned: when there is no cache document and the write of the fetched
    listing is refused, [availableAPIs] fails with the error of the write,
    after the complete live fetch. *)
Theorem availableAPIs_store_failure
    (E : Env) (fuel : nat) (projectNumber : Z) (dir buf : string)
    (pages : list ListServicesResponse.t) (st : state) :
  answers E UserCacheDir dir ->
  succeeds E (MkdirAll (Join E [dir; "gproj"; pretty projectNumber])) ->
  fails E (ReadFile (cachePathOf E dir projectNumber)) ->
  succeeds E (NewService ServiceUsage None) ->
  pagesFrom E (formatProjectNumber projectNumber) EmptyString pages ->
  length pages <= fuel ->
  Marshal E (sortByName (pageEntries pages)) = inr buf ->
  fails E (WriteFile (cachePathOf E dir projectNumber) buf) ->
  (exists err, (availableAPIs E fuel projectNumber st).1
               = Fail (ErrorString ("error writing apis to cache: " +:+ Error err))) /\
  issued st (availableAPIs E fuel projectNumber st).2
  = [UserCacheDir; MkdirAll (Join E [dir; "gproj"; pretty projectNumber]);
     ReadFile (cachePathOf E dir projectNumber); NewService ServiceUsage None]
    ++ (ServicesList (formatProjectNumber projectNumber) <$> pageTokens EmptyString pages)
    ++ [WriteFile (cachePathOf E dir projectNumber) buf].
Proof.
  intros Hdir Hmk Hread Hnew Hpages Hfuel Henc Hwrite.
  destruct (cacheDir_run E projectNumber dir st Hdir Hmk) as (st1 & t1 & t2 & Hrun & Ht).
  unfold availableAPIs, bind, catch. rewrite Hrun. simpl.
  fold (cachePathOf E dir projectNumber).
  rewrite perform_Background_run.
  destruct (Hread (trace st1)) as [err ->]. cbv beta iota.
  unfold pullAndStoreAvailableAPIs, bind.
  match goal with |- context [pullAvailableAPIs E fuel projectNumber ?st2] =>
    destruct (pullAvailableAPIs_run E fuel projectNumber Hnew pages Hpages Hfuel st2)
      as (Hres & new & Hnew' & Hcalls);
    destruct (pullAvailableAPIs E fuel projectNumber st2) as [o st3]
  end.
  simpl in Hres, Hnew'. subst o. cbv beta iota. rewrite Henc. unfold wrapErrV.
  rewrite perform_Background_run.
  destruct (Hwrite (trace st3)) as [err' ->]. simpl.
  split; [by exists err'|].
  rewrite Hnew', Ht. unfold issued. simpl. rewrite <- !app_assoc, drop_app_length.
  rewrite !fmap_app, Hcalls. reflexivity.
Qed.

Lemma availableAPIs_store_failure_demo :
  (exists err, (availableAPIs (fullDiskEnv convergedWorld) 2 42 start).1
               = Fail (ErrorString ("error writing apis to cache: " +:+ Error err))) /\
  issued start (availableAPIs (fullDiskEnv convergedWorld) 2 42 start).2
  = [UserCacheDir; MkdirAll "/home/user/.cache/gproj/42";
     ReadFile "/home/user/.cache/gproj/42/available-apis.json";
     NewService ServiceUsage None;
     ServicesList "projects/42" ""; ServicesList "projects/42" "page-2";
     WriteFile "/home/user/.cache/gproj/42/available-apis.json" "[]"].
Proof.
  apply (availableAPIs_store_failure (fullDiskEnv convergedWorld) 2 42
           "/home/user/.cache" "[]" [firstPage; secondPage] start).
  - intros h. reflexivity.
  - intros h. by eexists.
  - intros h. by eexists.
  - intros h. by eexists.
  - split; [intros h; reflexivity|]. split; [discriminate|].
    split; [intros h; reflexivity | reflexivity].
  - simpl. lia.
  - reflexivity.
  - intros h. by eexists.
Defined.

(** ** What the engines ask for *)

(** X16: [apply] never looks at the service catalog: it issues no service
    listing and touches no cache file, whatever the answers to its calls;
    [sync] touches no cache file either and asks for the first page of the
    listing only, never for a later one. *)
Theorem engines_catalog_access (E : Env) (fuel : nat) (a : args) (st : state) :
  Forall (fun c => isLiveFetch c = false /\ isFileAccess c = false)
         (issued st (apply E fuel a st).2) /\
  Forall (fun c => isFileAccess c = false /\ firstPageOnly c)
         (issued st (sync E fuel a st).2).
Proof.
  split; apply issues_issued.
  - assert (He : forall projNum toEnable,
              sat (issues (fun c => isLiveFetch c = false /\ isFileAccess c = false))
                (fun _ => True) (enableAPIs E fuel projNum toEnable)).
    { intros. unfold enableAPIs. sat_any ltac:(by split). }
    cut (sat (issues (fun c => isLiveFetch c = false /\ isFileAccess c = false))
           (fun _ => True) (apply E fuel a)); [intros Hs; apply Hs|].
    unfold apply, googleCredentials, readProjectSpec, createProject, newProject,
      ProjectsCreateDo, findBillingAccount, updateBillingAccount.
    sat_any ltac:(first [by split | apply He]).
    all: apply He.
  - assert (He : forall projNum toEnable,
              sat (issues (fun c => isFileAccess c = false /\ firstPageOnly c))
                (fun _ => True) (enableAPIs E fuel projNum toEnable)).
    { intros. unfold enableAPIs. sat_any ltac:(by split). }
    cut (sat (issues (fun c => isFileAccess c = false /\ firstPageOnly c))
           (fun _ => True) (sync E fuel a)); [intros Hs; apply Hs|].
    unfold sync, readProjectSpec_sync, createProject_sync, newProject_sync,
      ProjectsCreateDo, findBillingAccount, updateBillingAccount.
    sat_any ltac:(first [by split | apply He]).
    all: apply He.
Qed.

Lemma sat_googleCredentials_stripped E (P : call -> Prop) :
  P FindDefaultCredentials ->
  sat (issues P)
    (fun creds => Credentials.ProjectID creds = EmptyString /\ Credentials.JSON creds = None)
    (googleCredentials E).
Proof.
  intros HP. unfold googleCredentials.
  apply sat_bind_any; pre;
    [by apply (sat_perform E P Background FindDefaultCredentials)|].
  intros creds. by apply sat_ret; pre.
Qed.

(** X17: every client that [apply] builds for resource manager or billing
    gets the default credentials with the quota project and the JSON removed,
    and the service-usage client gets none of its own; this holds for every
    client of every run. *)
Theorem apply_client_credentials (E : Env) (fuel : nat) (a : args) (st : state) :
  Forall clientCredentials (issued st (apply E fuel a st).2).
Proof.
  apply issues_issued.
  cut (sat (issues clientCredentials) (fun _ => True) (apply E fuel a));
    [intros Hs; apply Hs|].
  assert (He : forall projNum toEnable,
            sat (issues clientCredentials) (fun _ => True)
              (enableAPIs E fuel projNum toEnable)).
  { intros. unfold enableAPIs. sat_any ltac:(exact I). }
  unfold apply.
  eapply sat_bind; pre; [by apply sat_googleCredentials_stripped|].
  intros creds [Hid Hjson].
  unfold readProjectSpec, createProject, newProject, ProjectsCreateDo,
    findBillingAccount, updateBillingAccount.
  sat_any ltac:(first [exact I | by simpl | apply He]).
  all: apply He.
Qed.

Section FollowsSpec.

Variables (E : Env) (spec : ProjectSpec.t) (sentinel : string)
  (batch : list string -> Prop).

Hypothesis Hspec : forall path, answers E (YamlDecode path) spec.

Let P := followsSpec sentinel batch spec.

Lemma followsSpec_local : forall c, isRemote c = false -> P c.
Proof. by intros []. Qed.

Lemma sat_findBillingAccount_spec :
  sat (issues P)
    (fun account => ProjectSpec.Billing spec <> sentinel -> account = ProjectSpec.Billing spec)
    (findBillingAccount E sentinel spec).
Proof.
  unfold findBillingAccount.
  destruct (decide (ProjectSpec.Billing spec = sentinel)) as [Heq|Hne].
  - eapply (sat_weaken _ (fun _ => True)); pre; [|sat_any ltac:(exact Heq)].
    by intros ? _ ?.
  - by apply sat_ret; pre.
Qed.

Lemma sat_updateBillingAccount_spec projNum billingInfo account :
  (ProjectSpec.Billing spec <> sentinel -> account = ProjectSpec.Billing spec) ->
  sat (issues P) (fun _ => True) (updateBillingAccount E projNum billingInfo account).
Proof. intros H. unfold updateBillingAccount. sat_any ltac:(exact H). Qed.

Lemma sat_enableAPIs_spec fuel projNum toEnable :
  batch toEnable ->
  sat (issues P) (fun _ => True) (enableAPIs E fuel projNum toEnable).
Proof.
  intros H. unfold enableAPIs. sat_any ltac:(first [exact H | exact I]).
Qed.

Lemma sat_newProject_spec :
  sat (issues P)
    (fun project => Project.Name project = ProjectSpec.Name spec /\
                    Project.ProjectId project = ProjectSpec.ID spec)
    (newProject spec).
Proof.
  unfold newProject.
  apply sat_bind_any; pre; [sat_any idtac|]. intros labels.
  apply sat_bind_any; pre; [sat_any idtac|]. intros _.
  apply sat_bind_any; pre; [sat_any idtac|]. intros _.
  by apply sat_ret; pre.
Qed.

Lemma sat_newProject_sync_spec :
  sat (issues P)
    (fun project => Project.Name project = ProjectSpec.Name spec /\
                    Project.ProjectId project = ProjectSpec.ID spec)
    (newProject_sync E spec).
Proof.
  unfold newProject_sync.
  apply sat_bind_any; pre; [sat_any idtac|]. intros labels.
  apply sat_bind_any; pre; [sat_any idtac|]. intros _.
  apply sat_bind_any; pre; [sat_any idtac|]. intros t.
  apply sat_bind_any; pre; [sat_any idtac|]. intros _.
  by apply sat_ret; pre.
Qed.

Lemma sat_createProject_spec fuel :
  batch ["cloudbilling.googleapis.com"] ->
  sat (issues P) (fun _ => True) (createProject E fuel spec).
Proof.
  intros Hb. unfold createProject.
  eapply sat_bind; pre; [apply sat_newProject_spec|]. intros project Hproject.
  unfold ProjectsCreateDo.
  sat_any ltac:(first [exact Hproject | exact Hb | exact I | reflexivity]).
Qed.

Lemma sat_createProject_sync_spec fuel :
  sat (issues P) (fun _ => True) (createProject_sync E fuel spec).
Proof.
  unfold createProject_sync.
  eapply sat_bind; pre; [apply sat_newProject_sync_spec|]. intros project Hproject.
  unfold ProjectsCreateDo.
  sat_any ltac:(first [exact Hproject | exact I | reflexivity]).
Qed.

End FollowsSpec.

Lemma toEnable_sync_requested (apis : gmap string syncApi) (requested acc l : list string) :
  toEnable_sync apis acc requested = inr l ->
  forall n, n ∈ l -> n ∈ acc \/ n ∈ List.map normalizeAPI requested.
Proof.
  revert acc. induction requested as [|r rest IH]; intros acc; simpl.
  - intros [= <-] n Hn. by left.
  - destruct (apis !! normalizeAPI r) as [info|]; [|discriminate].
    intros H n Hn. destruct (IH _ H n Hn) as [Hacc|Hrest].
    + destruct (negb (enabled info)); [|by left].
      apply elem_of_app in Hacc as [Hacc|Hr%list_elem_of_singleton]; [by left|].
      subst n. right. by left.
    + right. by right.
Qed.

(** X18: the requests of a run are those of the spec.  Whatever Google
    Cloud answers, [apply] looks up and creates only the project the spec
    names, lists billing accounts only when the billing field is "enable",
    sets a billing account other than the one the spec names only in that
    case, and enables either the billing API alone or the whole normalised
    list of the spec; [sync] does the same
    with the empty billing field as the one that asks for a look-up, and
    enables only APIs that the spec requests. *)
Theorem requests_follow_spec
    (E : Env) (fuel : nat) (a : args) (spec : ProjectSpec.t) (st : state) :
  (forall path, answers E (YamlDecode path) spec) ->
  Forall (followsSpec "enable"
            (fun ids => ids = ["cloudbilling.googleapis.com"] \/
                        ids = List.map normalizeAPI (ProjectSpec.APIs spec)) spec)
         (issued st (apply E fuel a st).2) /\
  Forall (followsSpec EmptyString
            (fun ids => forall n, n ∈ ids -> n ∈ List.map normalizeAPI (ProjectSpec.APIs spec))
            spec)
         (issued st (sync E fuel a st).2).
Proof.
  intros Hspec. split; apply issues_issued.
  - match goal with |- issues ?P _ _ =>
      cut (sat (issues P) (fun _ => True) (apply E fuel a)); [intros Hs; apply Hs|]
    end.
    unfold apply.
    apply sat_bind_any; pre; [unfold googleCredentials; sat_any ltac:(exact I)|].
    intros creds.
    eapply sat_bind; pre;
      [apply sat_readProjectSpec; [exact Hspec | apply followsSpec_local]|].
    intros ? ->.
    destruct (String.length (ProjectSpec.Name spec) <? 4)%nat; [sat_end|].
    apply sat_bind_any; pre; [sat_any ltac:(exact I)|]. intros _.
    apply sat_bind_any; pre; [sat_any ltac:(exact I)|]. intros _.
    apply sat_bind_any; pre; [sat_any ltac:(reflexivity)|]. intros r.
    apply sat_bind_any; pre.
    { sat_any ltac:(exact I). all: apply sat_createProject_spec; by left. }
    intros project.
    apply sat_bind_any; pre; [sat_any ltac:(exact I)|]. intros _.
    apply sat_bind_any; pre; [sat_any ltac:(exact I)|]. intros billingInfo.
    eapply sat_bind; pre; [apply sat_findBillingAccount_spec|]. intros account Haccount.
    apply sat_bind_any; pre; [by apply sat_updateBillingAccount_spec|]. intros _.
    apply sat_enableAPIs_spec. right. apply toEnable_apply_map.
  - match goal with |- issues ?P _ _ =>
      cut (sat (issues P) (fun _ => True) (sync E fuel a)); [intros Hs; apply Hs|]
    end.
    unfold sync.
    eapply sat_bind; pre;
      [apply sat_readProjectSpec_sync; [exact Hspec | apply followsSpec_local]|].
    intros ? ->.
    apply sat_bind_any; pre; [sat_any ltac:(exact I)|]. intros _.
    apply sat_bind_any; pre; [sat_any ltac:(reflexivity)|]. intros r.
    apply sat_bind_any; pre.
    { sat_any ltac:(exact I). all: apply sat_createProject_sync_spec. }
    intros project.
    apply sat_bind_any; pre; [sat_any ltac:(exact I)|]. intros _.
    apply sat_bind_any; pre; [sat_any ltac:(exact I)|]. intros billing.
    eapply sat_bind; pre; [apply sat_findBillingAccount_spec|]. intros account Haccount.
    apply sat_bind_any; pre; [by apply sat_updateBillingAccount_spec|]. intros _.
    apply sat_bind_any; pre; [sat_any ltac:(exact I)|]. intros _.
    apply sat_bind_any; pre; [sat_any ltac:(exact I)|]. intros apiList.
    destruct (toEnable_sync _ [] _) as [err|toEnable] eqn:Hto; [sat_end|].
    apply sat_enableAPIs_spec. intros n Hn.
    destruct (toEnable_sync_requested _ _ _ _ Hto n Hn) as [Hnil|Hreq]; [|done].
    by apply elem_of_nil in Hnil.
Qed.

Lemma requests_follow_spec_demo :
  Forall (followsSpec "enable"
            (fun ids => ids = ["cloudbilling.googleapis.com"] \/
                        ids = List.map normalizeAPI (ProjectSpec.APIs demoSpec)) demoSpec)
         (issued start (apply (worldEnv stuckWorld) 20 noArgs start).2) /\
  Forall (followsSpec EmptyString
            (fun ids => forall n, n ∈ ids -> n ∈ List.map normalizeAPI (ProjectSpec.APIs demoSpec))
            demoSpec)
         (issued start (sync (worldEnv stuckWorld) 20 noArgs start).2).
Proof.
  apply (requests_follow_spec (worldEnv stuckWorld) 20 noArgs demoSpec start).
  intros path h. reflexivity.
Defined.

(** ** Errors that end a run *)

Section LookupFails.

Variables (E : Env) (spec : ProjectSpec.t).

Hypothesis Hspec : forall path, answers E (YamlDecode path) spec.
Hypothesis Hget :
  forall h, exists err,
    (respond E h (ProjectsGet (ProjectSpec.ID spec))).1 = inl err /\ isForbidden err = false.

Let quiet (c : call) : Prop := isMutating c = false.

Lemma quiet_local : forall c, isRemote c = false -> quiet c.
Proof. by intros []. Qed.

Lemma sat_lookup_fails :
  sat (issues quiet) (fun r => exists err, r = inl err /\ isForbidden err = false)
    (catch (perform E Background (ProjectsGet (ProjectSpec.ID spec)))).
Proof.
  intros st. split.
  - apply sat_catch_any; pre.
    by apply (sat_perform E quiet Background (ProjectsGet (ProjectSpec.ID spec))).
  - intros r. unfold catch. rewrite perform_Background_run.
    destruct (Hget (trace st)) as (err & -> & Hf). simpl.
    intros [= <-]. by exists err.
Qed.

Lemma sat_not_forbidden {A B} (err : error) (m : M A) (k : A -> M B) :
  isForbidden err = false ->
  sat (issues quiet) (fun _ => False)
    (bind (match err with
           | GoogleapiError 403 _ => m
           | _ => fail err
           end) k).
Proof.
  intros Hf.
  assert (Hfail : forall e, sat (issues quiet) (fun _ => False) (bind (@fail A e) k)).
  { intros e. eapply (sat_bind _ (fun _ => False)); pre; [apply sat_fail; pre | by intros ? []]. }
  destruct err as [code msg| | |]; try apply Hfail.
  destruct code as [|p|p]; try apply Hfail.
  simpl in Hf.
  repeat (destruct p as [p|p|]; try apply Hfail; try discriminate Hf).
Qed.

Lemma sat_apply_lookup_fails fuel a :
  sat (issues quiet) (fun _ => False) (apply E fuel a).
Proof.
  unfold apply.
  apply sat_bind_any; pre; [unfold googleCredentials; sat_any ltac:(reflexivity)|].
  intros creds.
  eapply sat_bind; pre; [apply sat_readProjectSpec; [exact Hspec | apply quiet_local]|].
  intros ? ->.
  destruct (String.length (ProjectSpec.Name spec) <? 4)%nat; [sat_end|].
  apply sat_bind_any; pre; [sat_any ltac:(reflexivity)|]. intros _.
  apply sat_bind_any; pre; [sat_any ltac:(reflexivity)|]. intros _.
  eapply sat_bind; pre; [apply sat_lookup_fails|]. intros r (err & -> & Hf).
  by apply sat_not_forbidden.
Qed.

Lemma sat_sync_lookup_fails fuel a :
  sat (issues quiet) (fun _ => False) (sync E fuel a).
Proof.
  unfold sync.
  eapply sat_bind; pre; [apply sat_readProjectSpec_sync; [exact Hspec | apply quiet_local]|].
  intros ? ->.
  apply sat_bind_any; pre; [sat_any ltac:(reflexivity)|]. intros _.
  eapply sat_bind; pre; [apply sat_lookup_fails|]. intros r (err & -> & Hf).
  by apply sat_not_forbidden.
Qed.

End LookupFails.

(** X19: the project is created on error 403 only.  When the look-up of
    the project is refused with any other error, neither [apply] nor [sync]
    succeeds, and neither makes a call that changes anything: no project is
    created, no billing account set, no API enabled. *)
Theorem lookup_error_changes_nothing
    (E : Env) (fuel : nat) (a : args) (spec : ProjectSpec.t) (st : state) :
  (forall path, answers E (YamlDecode path) spec) ->
  (forall h, exists err,
     (respond E h (ProjectsGet (ProjectSpec.ID spec))).1 = inl err /\
     isForbidden err = false) ->
  ((apply E fuel a st).1 <> Done tt /\
   Forall (fun c => isMutating c = false) (issued st (apply E fuel a st).2)) /\
  ((sync E fuel a st).1 <> Done tt /\
   Forall (fun c => isMutating c = false) (issued st (sync E fuel a st).2)).
Proof.
  intros Hspec Hget. split.
  - destruct (sat_apply_lookup_fails E spec Hspec Hget fuel a st) as [Hi Hr].
    split; [exact (Hr tt) | by apply issues_issued].
  - destruct (sat_sync_lookup_fails E spec Hspec Hget fuel a st) as [Hi Hr].
    split; [exact (Hr tt) | by apply issues_issued].
Qed.

Lemma lookup_error_changes_nothing_demo :
  let E := brokenEnv (GoogleapiError 500 "backend error") convergedWorld in
  ((apply E 5 noArgs start).1 <> Done tt /\
   Forall (fun c => isMutating c = false) (issued start (apply E 5 noArgs start).2)) /\
  ((sync E 5 noArgs start).1 <> Done tt /\
   Forall (fun c => isMutating c = false) (issued start (sync E 5 noArgs start).2)).
Proof.
  apply (lookup_error_changes_nothing
           (brokenEnv (GoogleapiError 500 "backend error") convergedWorld)
           5 noArgs demoSpec start).
  - intros path h. reflexivity.
  - intros h. by eexists.
Defined.

(** X20: [sync] refuses a spec that asks for an API which the first page of
    the service listing does not show: the run does not succeed and enables
    nothing, not even the requested APIs that are listed. *)
Theorem sync_unknown_api
    (E : Env) (fuel : nat) (a : args) (spec : ProjectSpec.t)
    (apiList : ListServicesResponse.t) (requestedAPI : string) (st : state) :
  (forall path, answers E (YamlDecode path) spec) ->
  (forall projNum, answers E (ServicesList projNum EmptyString) apiList) ->
  requestedAPI ∈ ProjectSpec.APIs spec ->
  catalog (ListServicesResponse.Services apiList) !! normalizeAPI requestedAPI = None ->
  (sync E fuel a st).1 <> Done tt /\
  Forall (fun c => isBatchEnable c = false) (issued st (sync E fuel a st).2).
Proof.
  intros Hspec Hlist Hin Hnone.
  cut (sat (issues (fun c => isBatchEnable c = false)) (fun _ => False) (sync E fuel a)).
  { intros Hs. destruct (Hs st) as [Hi Hr].
    split; [exact (Hr tt) | by apply issues_issued]. }
  unfold sync.
  eapply sat_bind; pre; [apply sat_readProjectSpec_sync; [exact Hspec | by intros []]|].
  intros ? ->.
  apply sat_bind_any; pre; [sat_any ltac:(reflexivity)|]. intros _.
  apply sat_bind_any; pre; [sat_any ltac:(reflexivity)|]. intros r.
  apply sat_bind_any; pre.
  { unfold createProject_sync, newProject_sync, ProjectsCreateDo.
    sat_any ltac:(reflexivity). }
  intros project.
  apply sat_bind_any; pre; [sat_any ltac:(reflexivity)|]. intros _.
  apply sat_bind_any; pre; [sat_any ltac:(reflexivity)|]. intros billing.
  apply sat_bind_any; pre; [unfold findBillingAccount; sat_any ltac:(reflexivity)|].
  intros account.
  apply sat_bind_any; pre; [unfold updateBillingAccount; sat_any ltac:(reflexivity)|].
  intros _.
  apply sat_bind_any; pre; [sat_any ltac:(reflexivity)|]. intros _.
  eapply sat_bind; pre.
  { apply sat_wrapErr; pre. by apply sat_perform_answers. }
  intros ? ->.
  destruct (toEnable_sync_missing (catalog (ListServicesResponse.Services apiList)) []
              (ProjectSpec.APIs spec)) as (n & _ & _ & ->); [|sat_end].
  intros HF. rewrite Forall_forall in HF.
  destruct (HF _ Hin) as [info Hinfo]. congruence.
Qed.

Lemma sync_unknown_api_demo :
  (sync (worldEnv emptyCatalogWorld) 5 noArgs start).1 <> Done tt /\
  Forall (fun c => isBatchEnable c = false)
         (issued start (sync (worldEnv emptyCatalogWorld) 5 noArgs start).2).
Proof.
  apply (sync_unknown_api (worldEnv emptyCatalogWorld) 5 noArgs demoSpec
           {| ListServicesResponse.Services := [];
              ListServicesResponse.NextPageToken := "" |} "compute" start).
  - intros path h. reflexivity.
  - intros projNum h. reflexivity.
  - by left.
  - reflexivity.
Defined.

(** X21: [apply] gives the creation of a project five seconds.  When the
    create operation never completes, the creation branch fails with the
    deadline error under the prefix of the create step, an error that
    [errors.Is] recognises as [context.DeadlineExceeded]. *)
Theorem createProject_gives_up
    (E : Env) (fuel : nat) (spec : ProjectSpec.t) (st : state) (op : Operation.t) :
  (forall h n i l, exists lat, respond E h (ProjectsCreate n i l) = (inr op, lat)) ->
  Operation.Done op = false ->
  Operation.Error op = None ->
  neverDone E CloudResourceManager (Operation.Name op) ->
  12 < fuel ->
  exists err,
    (createProject E fuel spec st).1 = Fail err /\
    errorsIs err DeadlineExceeded = true /\
    Error err
    = "error creating project: error getting operation info: context deadline exceeded".
Proof.
  intros Hcreate Hdone Herr Hnever Hfuel.
  exists (Wrapped "error creating project" timedOut). split; [|by split].
  by apply (createProject_times_out E fuel spec st op).
Qed.

Lemma createProject_gives_up_demo :
  exists err,
    (createProject (worldEnv stuckWorld) 13 demoSpec start).1 = Fail err /\
    errorsIs err DeadlineExceeded = true /\
    Error err
    = "error creating project: error getting operation info: context deadline exceeded".
Proof.
  apply (createProject_gives_up (worldEnv stuckWorld) 13 demoSpec start pendingOp).
  - intros h n i l. by eexists.
  - reflexivity.
  - reflexivity.
  - intros h. by eexists _, _.
  - lia.
Defined.
